(** * upload-api: allocation ledger, agent message index, roundabout redirects
      and space snapshot records, embedded from the JavaScript sources.

    Layout: [JS] holds the JavaScript values the sources compute with (strings,
    completions, results, async functions over a client), [JSDate] the Date
    built-in and [Base58] the base58btc codec; [S3] and [DynamoDB] are the two
    storage services the sources talk to; [AgentStore], [Roundabout],
    [Allocations] and [SpaceSnapshot] follow the source files of the same
    names, each with its properties, and [WorkflowStore], [SpaceMetrics] and
    [Customer] follow workflow-store.js, space-metrics.js and customer.js.
    [AgentStoreViews] holds the index of a parsed message as ucanto builds
    it; [AgentStoreWrites], [AgentStoreLookups] and the modules named
    [...Facts] hold how the operations of a source compose and what they
    answer at the edges; the modules named [...Cases] hold concrete stores
    and requests on which the functions are run. *)

From Stdlib Require Import ZArith Lia.
From Stdlib.Strings Require Import String Ascii Byte.
From Stdlib.Numbers Require Import DecimalString DecimalZ DecimalPos.
From Stdlib.Structures Require Import OrdersEx.
From stdpp Require Import gmap strings list sorting.

Local Open Scope Z_scope.

(** ** JavaScript values *)

Module JS.

(** An error object, with the three properties the sources inspect:
    [err.name], [err.message] and [err.$metadata.httpStatusCode]. *)
Record JSError := mkError {
  name : string;
  message : string;
  httpStatusCode : option Z
}.

(** The outcome of evaluating an expression that may throw. *)
Inductive Completion (A : Type) : Type :=
| Return (a : A)
| Throw (e : JSError).
Arguments Return {A} a.
Arguments Throw {A} e.

(** [{ ok: T } | { error: E }] *)
Inductive Result (T E : Type) : Type :=
| ok (t : T)
| error (e : E).
Arguments ok {T E} t.
Arguments error {T E} e.

(** An async function over a client whose state is [Σ]: it runs from a state
    and either returns or throws (a rejected promise), leaving a state. *)
Definition Async (Σ A : Type) : Type := Σ → Completion A * Σ.

Definition ret {Σ A} (a : A) : Async Σ A := λ σ, (Return a, σ).
Definition throw {Σ A} (e : JSError) : Async Σ A := λ σ, (Throw e, σ).
Definition bind {Σ A B} (m : Async Σ A) (k : A → Async Σ B) : Async Σ B :=
  λ σ, match m σ with
       | (Return a, σ') => k a σ'
       | (Throw e, σ') => (Throw e, σ')
       end.
(** [try { m } catch (err) { h err }] *)
Definition try_catch {Σ A} (m : Async Σ A) (h : JSError → Async Σ A) : Async Σ A :=
  λ σ, match m σ with
       | (Return a, σ') => (Return a, σ')
       | (Throw e, σ') => h e σ'
       end.
(** A synchronous expression that may throw, inside an async function. *)
Definition lift {Σ A} (c : Completion A) : Async Σ A := λ σ, (c, σ).

(** [s.indexOf(c)] for a one-character search string: -1 when absent. *)
Fixpoint indexOf_from (c : ascii) (s : string) (i : Z) : Z :=
  match s with
  | EmptyString => -1
  | String a s' => if Ascii.eqb a c then i else indexOf_from c s' (i + 1)
  end.
Definition indexOf (s : string) (c : ascii) : Z := indexOf_from c s 0.

(** [s.slice(start, end)]: a negative index counts from the end, both are
    clamped to the string, and an empty range gives the empty string. *)
Definition slice (s : string) (start end_ : Z) : string :=
  let len := Z.of_nat (String.length s) in
  let from := if start <? 0 then Z.max (len + start) 0 else Z.min start len in
  let to := if end_ <? 0 then Z.max (len + end_) 0 else Z.min end_ len in
  substring (Z.to_nat from) (Z.to_nat (Z.max (to - from) 0)) s.

Definition startsWith (s pre : string) : bool := String.prefix pre s.

Definition endsWith (s suf : string) : bool :=
  let n := String.length s in
  let m := String.length suf in
  if (m <=? n)%nat then String.eqb (substring (n - m) m s) suf else false.

(** Truthiness of a string, and of a string that may be [undefined]. *)
Definition truthy (s : string) : bool :=
  match s with EmptyString => false | String _ _ => true end.
Definition truthy_opt (s : option string) : bool :=
  match s with Some s => truthy s | None => false end.

(** Strings compare by code unit, as S3 keys and DynamoDB sort keys do. *)
Definition string_le (a b : string) : Prop := String_as_OT.compare a b ≠ Gt.
Definition string_ltb (a b : string) : bool :=
  match String_as_OT.compare a b with Lt => true | _ => false end.

End JS.
Export JS.

(** [const x = await m; k] *)
Notation "'let*' x ':=' m 'in' k" := (bind m (λ x, k))
  (at level 10, x name, m at level 100, k at level 200, only parsing).

Global Instance string_le_dec a b : Decision (string_le a b).
Proof.
  unfold string_le. destruct (String_as_OT.compare a b);
    [left; discriminate | left; discriminate | right; auto].
Defined.

Global Instance string_le_total : Total string_le.
Proof.
  intros a b. unfold string_le.
  destruct (String_as_OT.compare_spec a b) as [->|Hlt|Hgt].
  - left. destruct (String_as_OT.compare_spec b b) as [_|_|H]; [done..|].
    by apply (irreflexivity String_as_OT.lt) in H.
  - left. done.
  - right. unfold String_as_OT.lt in Hgt. by rewrite Hgt.
Qed.

Global Instance string_le_trans : Transitive string_le.
Proof.
  intros a b c. unfold string_le.
  destruct (String_as_OT.compare_spec a b) as [->|Hab|Hab]; [done| |done].
  destruct (String_as_OT.compare_spec b c) as [<-|Hbc|Hbc]; intros _ Hc.
  - unfold String_as_OT.lt in Hab. by rewrite Hab.
  - assert (H : String_as_OT.lt a c) by (etransitivity; eassumption).
    unfold String_as_OT.lt in H. by rewrite H.
  - done.
Qed.

(** ** Facts about the JavaScript string functions *)

Module JSFacts.

(** [s.includes(c)] for a one-character search string. *)
Fixpoint includes (s : string) (c : ascii) : bool :=
  match s with
  | EmptyString => false
  | String a s' => Ascii.eqb a c || includes s' c
  end.

Lemma includes_app a b c : includes (a +:+ b) c = includes a c || includes b c.
Proof.
  induction a as [|x a IH]; simpl; [done|]. rewrite IH. by rewrite orb_assoc.
Qed.

Lemma append_cons x a b : String x a +:+ b = String x (a +:+ b).
Proof. reflexivity. Qed.

Lemma append_assoc a b c : (a +:+ b) +:+ c = a +:+ (b +:+ c).
Proof.
  induction a as [|x a IH]; [reflexivity|]. rewrite !append_cons. by rewrite IH.
Qed.

Lemma length_append a b :
  String.length (a +:+ b) = (String.length a + String.length b)%nat.
Proof. induction a as [|x a IH]; simpl; [done|]. by rewrite IH. Qed.

Lemma indexOf_from_spec c s i :
  if includes s c
  then i ≤ indexOf_from c s i < i + Z.of_nat (String.length s)
  else indexOf_from c s i = -1.
Proof.
  revert i. induction s as [|a s IH]; intros i; cbn; [done|].
  destruct (Ascii.eqb a c); cbn; [lia|].
  specialize (IH (i + 1)). destruct (includes s c); lia.
Qed.

Lemma indexOf_from_app_l c a b i :
  includes a c = true → indexOf_from c (a +:+ b) i = indexOf_from c a i.
Proof.
  revert i. induction a as [|x a IH]; intros i; simpl; [done|].
  destruct (Ascii.eqb x c); simpl; [done|]. apply IH.
Qed.

Lemma indexOf_from_app_r c a b i :
  includes a c = false →
  indexOf_from c (a +:+ b) i = indexOf_from c b (i + Z.of_nat (String.length a)).
Proof.
  revert i. induction a as [|x a IH]; intros i; simpl.
  - intros _. f_equal. lia.
  - destruct (Ascii.eqb x c); simpl; [done|]. intros H. rewrite IH by done. f_equal. lia.
Qed.

Lemma length_substring n m s :
  String.length (substring n m s) = (m `min` (String.length s - n))%nat.
Proof.
  revert n m. induction s as [|a s IH]; intros [|n] [|m];
    cbn [substring String.length]; rewrite ?IH; lia.
Qed.

Lemma truthy_length s : truthy s = true ↔ (0 < String.length s)%nat.
Proof. destruct s; cbn; split; (done || lia). Qed.

Lemma truthy_slice s a b :
  0 ≤ a < b → b ≤ Z.of_nat (String.length s) → truthy (slice s a b) = true.
Proof.
  intros Ha Hb. apply truthy_length. unfold slice. rewrite length_substring.
  repeat case_match; lia.
Qed.

Lemma prefix_append p s : String.prefix p s = true → ∃ r, s = p +:+ r.
Proof.
  revert s. induction p as [|a p IH]; intros s.
  - intros _. by exists s.
  - destruct s as [|b s]; simpl; [done|]. destruct (ascii_dec a b) as [->|]; [|done].
    intros [r ->]%IH. by exists r.
Qed.

End JSFacts.

(** ** Dates and BigInts (ECMAScript built-ins)

    Modelled from ECMA-262: a Date is a time value in milliseconds since the
    epoch, within 8.64e15 of it, or NaN; [toISOString] writes it in the
    date-time string format on the proleptic Gregorian calendar and
    [new Date(string)] reads that format. *)

Module JSDate.

(** A Date holds a time value, the milliseconds since the epoch, or NaN. *)
Inductive Date :=
| TimeValue (t : Z)
| InvalidDate.

Definition msPerDay : Z := 86400000.
Definition maxTime : Z := 8640000000000000.

Definition TimeClip (t : Z) : Date :=
  if Z.abs t <=? maxTime then TimeValue t else InvalidDate.

Definition isLeap (y : Z) : bool :=
  ((y mod 4 =? 0) && negb (y mod 100 =? 0)) || (y mod 400 =? 0).

Definition daysInMonth (y m : Z) : Z :=
  if m =? 2 then (if isLeap y then 29 else 28)
  else if (m =? 4) || (m =? 6) || (m =? 9) || (m =? 11) then 30
  else 31.

(** Year, month (1 to 12) and day of the month of a day number. *)
Definition civil_from_days (z : Z) : Z * Z * Z :=
  let z := z + 719468 in
  let era := z / 146097 in
  let doe := z - era * 146097 in
  let yoe := (doe - doe / 1460 + doe / 36524 - doe / 146096) / 365 in
  let doy := doe - (365 * yoe + yoe / 4 - yoe / 100) in
  let mp := (5 * doy + 2) / 153 in
  let d := doy - (153 * mp + 2) / 5 + 1 in
  let m := if mp <? 10 then mp + 3 else mp - 9 in
  (if m <=? 2 then yoe + era * 400 + 1 else yoe + era * 400, m, d).

(** The day number of a year, month and day of the month. *)
Definition days_from_civil (y m d : Z) : Z :=
  let y := if m <=? 2 then y - 1 else y in
  let era := y / 400 in
  let yoe := y - era * 400 in
  let doy := (153 * (if 2 <? m then m - 3 else m + 9) + 2) / 5 + d - 1 in
  let doe := yoe * 365 + yoe / 4 - yoe / 100 + doy in
  era * 146097 + doe - 719468.

(** *** The date-time string format *)

Definition digit_char (d : Z) : ascii := ascii_of_N (48 + Z.to_N d).
Definition digit_value (c : ascii) : option Z :=
  let n := N_of_ascii c in
  if ((48 <=? n) && (n <=? 57))%N then Some (Z.of_N n - 48) else None.

(** The decimal digits of [n], zero-padded to a width. *)
Fixpoint pad (width : nat) (n : Z) : string :=
  match width with
  | O => ""
  | S w => String (digit_char (n / 10 ^ Z.of_nat w mod 10)) (pad w n)
  end.

(** Reads a number of exactly [width] digits. *)
Fixpoint number (width : nat) (acc : Z) (s : string) : option (Z * string) :=
  match width with
  | O => Some (acc, s)
  | S w =>
      match s with
      | String c s' =>
          match digit_value c with
          | Some d => number w (acc * 10 + d) s'
          | None => None
          end
      | EmptyString => None
      end
  end.

Definition expect (c : ascii) (s : string) : option string :=
  match s with
  | String a s' => if Ascii.eqb a c then Some s' else None
  | EmptyString => None
  end.

Record Fields := {
  year : Z; month : Z; day : Z; hours : Z; minutes : Z; seconds : Z; milliseconds : Z
}.

(** [Date.prototype.toISOString]: YYYY-MM-DDTHH:mm:ss.sssZ, the year
    written with a sign and six digits outside 0 to 9999; a RangeError for
    an invalid date. *)
Definition toISOString (date : Date) : Completion string :=
  match date with
  | InvalidDate => Throw (mkError "RangeError" "Invalid time value" None)
  | TimeValue t =>
      let '(y, m, d) := civil_from_days (t / msPerDay) in
      let ms := t mod msPerDay in
      let YYYY :=
        if (0 <=? y) && (y <=? 9999) then pad 4 y
        else String (if y <? 0 then "-"%char else "+"%char) (pad 6 (Z.abs y)) in
      Return (YYYY +:+ "-" +:+ pad 2 m +:+ "-" +:+ pad 2 d
              +:+ "T" +:+ pad 2 (ms / 3600000) +:+ ":" +:+ pad 2 (ms / 60000 mod 60)
              +:+ ":" +:+ pad 2 (ms / 1000 mod 60) +:+ "." +:+ pad 3 (ms mod 1000) +:+ "Z")
  end.

(** The fields of a date-time string whose year has [width] digits. *)
Definition fields (width : nat) (s : string) : option Fields :=
  '(y, s) ← number width 0 s; s ← expect "-" s;
  '(m, s) ← number 2 0 s; s ← expect "-" s;
  '(d, s) ← number 2 0 s; s ← expect "T" s;
  '(h, s) ← number 2 0 s; s ← expect ":" s;
  '(mi, s) ← number 2 0 s; s ← expect ":" s;
  '(sec, s) ← number 2 0 s; s ← expect "." s;
  '(ms, s) ← number 3 0 s; s ← expect "Z" s;
  if String.eqb s "" then
    Some {| year := y; month := m; day := d; hours := h; minutes := mi;
            seconds := sec; milliseconds := ms |}
  else None.

(** The time value of the fields, when they name a time of the calendar. *)
Definition time_of_fields (sign : Z) (f : Fields) : option Z :=
  let y := sign * year f in
  if (1 <=? month f) && (month f <=? 12)
     && (1 <=? day f) && (day f <=? daysInMonth y (month f))
     && (hours f <=? 23) && (minutes f <=? 59) && (seconds f <=? 59)
  then Some (days_from_civil y (month f) (day f) * msPerDay
             + hours f * 3600000 + minutes f * 60000 + seconds f * 1000
             + milliseconds f)
  else None.

(** [new Date(string)] for the format [toISOString] writes; a string that is
    not of this format reads as an invalid date here (what else engines
    accept is outside the model). *)
Definition new_Date (s : string) : Date :=
  let time :=
    match s with
    | String c s' =>
        if Ascii.eqb c "+" then fields 6 s' ≫= time_of_fields 1
        else if Ascii.eqb c "-" then
          f ← fields 6 s'; if year f =? 0 then None else time_of_fields (-1) f
        else fields 4 s ≫= time_of_fields 1
    | EmptyString => None
    end in
  match time with
  | Some t => TimeClip t
  | None => InvalidDate
  end.

Definition doe_ok (doe : Z) : bool :=
  (doe <? 0) || (146097 <=? doe) ||
  (let yoe := (doe - doe / 1460 + doe / 36524 - doe / 146096) / 365 in
   let doy := doe - (365 * yoe + yoe / 4 - yoe / 100) in
   let mp := (5 * doy + 2) / 153 in
   let d := doy - (153 * mp + 2) / 5 + 1 in
   let m := if mp <? 10 then mp + 3 else mp - 9 in
   (0 <=? yoe) && (yoe <=? 399) && (0 <=? doy) && (0 <=? mp) && (mp <=? 11)
   && (1 <=? d) && (d <=? daysInMonth (if m <=? 2 then yoe + 1 else yoe) m)).

Fixpoint all_ok (k : nat) (lo : Z) : bool :=
  match k with
  | O => doe_ok lo
  | S k => all_ok k lo && all_ok k (lo + 2 ^ Z.of_nat k)
  end.

Lemma all_ok_spec k lo x :
  all_ok k lo = true → lo ≤ x < lo + 2 ^ Z.of_nat k → doe_ok x = true.
Proof.
  revert lo. induction k as [|k IH]; intros lo Hall Hx.
  - simpl in *. by replace x with lo by lia.
  - cbn [all_ok] in Hall. apply andb_true_iff in Hall as [Hl Hr].
    rewrite Nat2Z.inj_succ, Z.pow_succ_r in Hx by lia.
    destruct (Z.lt_ge_cases x (lo + 2 ^ Z.of_nat k)).
    + apply (IH lo); [done|lia].
    + apply (IH (lo + 2 ^ Z.of_nat k)); [done|lia].
Qed.

Lemma all_days_ok : all_ok 18 0 = true.
Proof. vm_compute. reflexivity. Qed.

Lemma doe_ok_all doe : doe_ok doe = true.
Proof.
  destruct (Z.lt_ge_cases doe 0) as [H|H].
  - unfold doe_ok. by rewrite (proj2 (Z.ltb_lt _ _) H).
  - destruct (Z.lt_ge_cases doe 146097) as [H'|H'].
    + apply (all_ok_spec 18 0); [apply all_days_ok|]. change (2 ^ Z.of_nat 18) with 262144. lia.
    + unfold doe_ok. rewrite (proj2 (Z.leb_le _ _) H'). by rewrite orb_true_r.
Qed.

Lemma isLeap_era y era : isLeap (y + era * 400) = isLeap y.
Proof.
  unfold isLeap.
  replace ((y + era * 400) mod 4) with (y mod 4)
    by (rewrite <- (Z.mod_add y (era * 100) 4) by lia; f_equal; lia).
  replace ((y + era * 400) mod 100) with (y mod 100)
    by (rewrite <- (Z.mod_add y (era * 4) 100) by lia; f_equal; lia).
  replace ((y + era * 400) mod 400) with (y mod 400)
    by (by rewrite Z.mod_add by lia).
  done.
Qed.

Lemma daysInMonth_era y era m : daysInMonth (y + era * 400) m = daysInMonth y m.
Proof. unfold daysInMonth. by rewrite isLeap_era. Qed.

(** The calendar date of a day number is a date of the calendar, and the
    day number of that date is the one it came from. *)
Lemma civil_from_days_spec z :
  let '(y, m, d) := civil_from_days z in
  days_from_civil y m d = z
  ∧ 1 ≤ m ≤ 12
  ∧ 1 ≤ d ≤ daysInMonth y m
  ∧ (z + 719468) / 146097 * 400 ≤ y ≤ (z + 719468) / 146097 * 400 + 400.
Proof.
  unfold civil_from_days. cbv zeta.
  set (z' := z + 719468). set (era := z' / 146097). set (doe := z' - era * 146097).
  pose proof (doe_ok_all doe) as Hok. unfold doe_ok in Hok.
  assert (Hdoe : 0 ≤ doe < 146097).
  { subst doe era. pose proof (Z.mod_pos_bound z' 146097 ltac:(lia)).
    rewrite Z.mod_eq in H by lia. lia. }
  replace (doe <? 0) with false in Hok by (symmetry; apply Z.ltb_ge; lia).
  replace (146097 <=? doe) with false in Hok by (symmetry; apply Z.leb_gt; lia).
  cbn [orb] in Hok. cbv zeta in Hok.
  set (yoe := (doe - doe / 1460 + doe / 36524 - doe / 146096) / 365) in *.
  set (doy := doe - (365 * yoe + yoe / 4 - yoe / 100)) in *.
  set (mp := (5 * doy + 2) / 153) in *.
  set (d := doy - (153 * mp + 2) / 5 + 1) in *.
  set (m := if mp <? 10 then mp + 3 else mp - 9) in *.
  repeat (apply andb_true_iff in Hok as [Hok ?]).
  assert (Hm : 1 ≤ m ≤ 12 ∧ (if 2 <? m then m - 3 else m + 9) = mp
               ∧ ((m <=? 2) = negb (mp <? 10))).
  { subst m. destruct (Z.ltb_spec mp 10).
    - rewrite (proj2 (Z.ltb_lt 2 (mp + 3))) by lia.
      rewrite (proj2 (Z.leb_gt (mp + 3) 2)) by lia. simpl. lia.
    - rewrite (proj2 (Z.ltb_ge 2 (mp - 9))) by lia.
      rewrite (proj2 (Z.leb_le (mp - 9) 2)) by lia. simpl. lia. }
  destruct Hm as (Hm & Hmp & Hle).
  split; [|split; [done|split]].
  - unfold days_from_civil. cbv zeta. rewrite Hmp.
    replace (if m <=? 2 then (if m <=? 2 then yoe + era * 400 + 1 else yoe + era * 400) - 1
             else if m <=? 2 then yoe + era * 400 + 1 else yoe + era * 400)
      with (yoe + era * 400) by (destruct (m <=? 2); lia).
    replace ((yoe + era * 400) / 400) with era
      by (rewrite Z.div_add by lia; rewrite Z.div_small by lia; lia).
    replace (yoe + era * 400 - era * 400) with yoe by lia.
    subst d doy doe z'. lia.
  - split; [lia|].
    destruct (m <=? 2).
    + replace (yoe + era * 400 + 1) with (yoe + 1 + era * 400) by lia.
      rewrite daysInMonth_era. lia.
    + rewrite daysInMonth_era. lia.
  - fold era. destruct (m <=? 2); lia.
Qed.

Lemma digit_cases d : 0 ≤ d ≤ 9 →
  d = 0 ∨ d = 1 ∨ d = 2 ∨ d = 3 ∨ d = 4 ∨ d = 5 ∨ d = 6 ∨ d = 7 ∨ d = 8 ∨ d = 9.
Proof. lia. Qed.

Lemma digit_value_char d : 0 ≤ d ≤ 9 → digit_value (digit_char d) = Some d.
Proof. intros Hd. destruct (digit_cases d Hd) as [->|H]; repeat (destruct H as [->|H]); subst; reflexivity. Qed.

Lemma digit_char_not_sign d :
  0 ≤ d ≤ 9 → Ascii.eqb (digit_char d) "+" = false ∧ Ascii.eqb (digit_char d) "-" = false.
Proof. intros Hd. destruct (digit_cases d Hd) as [->|H]; repeat (destruct H as [->|H]); subst; split; reflexivity. Qed.

Lemma number_pad w n acc rest :
  0 ≤ n →
  number w acc (pad w n +:+ rest) = Some (acc * 10 ^ Z.of_nat w + n mod 10 ^ Z.of_nat w, rest).
Proof.
  intros Hn. revert acc. induction w as [|w IH]; intros acc.
  - cbn [number pad]. change ("" +:+ rest) with rest. rewrite Z.mod_1_r. do 2 f_equal. change (10 ^ Z.of_nat 0) with 1. lia.
  - cbn [pad]. change (String ?c ?a +:+ rest) with (String c (a +:+ rest)). cbn [number].
    assert (Hd : 0 ≤ n / 10 ^ Z.of_nat w mod 10 ≤ 9)
      by (pose proof (Z.mod_pos_bound (n / 10 ^ Z.of_nat w) 10); lia).
    rewrite digit_value_char by done. rewrite IH. do 2 f_equal.
    rewrite Nat2Z.inj_succ, Z.pow_succ_r by lia.
    rewrite (Z.mul_comm 10), Z.rem_mul_r by lia. lia.
Qed.

Lemma number_pad_small w n acc rest :
  0 ≤ n < 10 ^ Z.of_nat w →
  number w acc (pad w n +:+ rest) = Some (acc * 10 ^ Z.of_nat w + n, rest).
Proof. intros Hn. rewrite number_pad by lia. by rewrite Z.mod_small. Qed.

Lemma expect_sep c rest : expect c (String c "" +:+ rest) = Some rest.
Proof. change (String c "" +:+ rest) with (String c rest). cbn. by rewrite Ascii.eqb_refl. Qed.

Lemma fields_format w y m d h mi sec ms :
  0 ≤ y < 10 ^ Z.of_nat w → 0 ≤ m < 100 → 0 ≤ d < 100 → 0 ≤ h < 100 →
  0 ≤ mi < 100 → 0 ≤ sec < 100 → 0 ≤ ms < 1000 →
  fields w (pad w y +:+ "-" +:+ pad 2 m +:+ "-" +:+ pad 2 d
            +:+ "T" +:+ pad 2 h +:+ ":" +:+ pad 2 mi
            +:+ ":" +:+ pad 2 sec +:+ "." +:+ pad 3 ms +:+ "Z")
  = Some {| year := y; month := m; day := d; hours := h; minutes := mi;
            seconds := sec; milliseconds := ms |}.
Proof.
  intros Hy Hm Hd Hh Hmi Hsec Hms. unfold fields.
  repeat (rewrite number_pad_small by done; cbn [mbind option_bind];
          rewrite expect_sep; cbn [mbind option_bind]).
  rewrite number_pad_small by done. cbn [mbind option_bind].
  change (expect "Z" "Z") with (Some ""). cbn [mbind option_bind String.eqb].
  by rewrite !Z.mul_0_l, !Z.add_0_l.
Qed.

Lemma daysInMonth_le y m : daysInMonth y m ≤ 31.
Proof. unfold daysInMonth. repeat case_match; lia. Qed.

Lemma time_of_fields_format sign yabs y m d ms :
  y = sign * yabs → 1 ≤ m ≤ 12 → 1 ≤ d ≤ daysInMonth y m → 0 ≤ ms < msPerDay →
  time_of_fields sign
    {| year := yabs; month := m; day := d; hours := ms / 3600000;
       minutes := ms / 60000 mod 60; seconds := ms / 1000 mod 60;
       milliseconds := ms mod 1000 |}
  = Some (days_from_civil y m d * msPerDay + ms).
Proof.
  intros -> Hm Hd Hms. unfold time_of_fields, msPerDay in *. cbn [year month day hours minutes seconds milliseconds].
  rewrite (proj2 (Z.leb_le 1 m)), (proj2 (Z.leb_le m 12)), (proj2 (Z.leb_le 1 d)),
    (proj2 (Z.leb_le d _)) by lia.
  rewrite (proj2 (Z.leb_le (ms / 3600000) 23))
    by (apply Z.lt_succ_r, Z.div_lt_upper_bound; lia).
  rewrite (proj2 (Z.leb_le (ms / 60000 mod 60) 59))
    by (pose proof (Z.mod_pos_bound (ms / 60000) 60); lia).
  rewrite (proj2 (Z.leb_le (ms / 1000 mod 60) 59))
    by (pose proof (Z.mod_pos_bound (ms / 1000) 60); lia).
  cbn [andb]. f_equal.
  assert (ms / 3600000 * 3600000 + ms / 60000 mod 60 * 60000
          + ms / 1000 mod 60 * 1000 + ms mod 1000 = ms); [|lia].
  clear. Z.to_euclidean_division_equations. lia.
Qed.

Lemma new_Date_unsigned c s' :
  Ascii.eqb c "+" = false → Ascii.eqb c "-" = false →
  new_Date (String c s')
  = match fields 4 (String c s') ≫= time_of_fields 1 with
    | Some t => TimeClip t
    | None => InvalidDate
    end.
Proof. intros Hplus Hminus. unfold new_Date. by rewrite Hplus, Hminus. Qed.

(** A valid date reads back from its ISO string. *)
Theorem new_Date_toISOString t :
  Z.abs t ≤ maxTime →
  ∃ s, toISOString (TimeValue t) = Return s ∧ new_Date s = TimeValue t.
Proof.
  intros Ht. unfold toISOString.
  pose proof (civil_from_days_spec (t / msPerDay)) as Hspec.
  destruct (civil_from_days (t / msPerDay)) as [[y m] d].
  destruct Hspec as (Hdays & Hm & Hd & Hy).
  set (ms := t mod msPerDay).
  assert (Hms : 0 ≤ ms < msPerDay) by (apply Z.mod_pos_bound; done).
  assert (Hyear : -999999 ≤ y ≤ 999999).
  { unfold maxTime, msPerDay in *. clear -Ht Hy.
    assert (-100000000 ≤ t / 86400000 ≤ 100000000).
    { split; [apply Z.div_le_lower_bound|apply Z.lt_succ_r, Z.div_lt_upper_bound]; lia. }
    assert (-680 ≤ (t / 86400000 + 719468) / 146097 ≤ 690).
    { split; [apply Z.div_le_lower_bound|apply Z.lt_succ_r, Z.div_lt_upper_bound]; lia. }
    lia. }
  assert (Htime : days_from_civil y m d * msPerDay + ms = t).
  { rewrite Hdays. subst ms. rewrite Z.mul_comm. symmetry. by apply Z.div_mod. }
  assert (Hd31 := daysInMonth_le y m).
  assert (Hclip : TimeClip t = TimeValue t).
  { unfold TimeClip. by rewrite (proj2 (Z.leb_le _ _) Ht). }
  eexists. split; [reflexivity|].
  destruct ((0 <=? y) && (y <=? 9999)) eqn:Hshort.
  - apply andb_true_iff in Hshort as [Hy0%Z.leb_le Hy9%Z.leb_le].
    cbn [pad]. change (String ?c ?a +:+ ?rest) with (String c (a +:+ rest)).
    assert (Hdigit : 0 ≤ y / 10 ^ Z.of_nat 3 mod 10 ≤ 9)
      by (pose proof (Z.mod_pos_bound (y / 10 ^ Z.of_nat 3) 10); lia).
    rewrite new_Date_unsigned by (by apply digit_char_not_sign).
    change (String (digit_char (y / 10 ^ Z.of_nat 3 mod 10)) ?r)
      with (pad 4 y +:+ "-" +:+ pad 2 m +:+ "-" +:+ pad 2 d
            +:+ "T" +:+ pad 2 (ms / 3600000) +:+ ":" +:+ pad 2 (ms / 60000 mod 60)
            +:+ ":" +:+ pad 2 (ms / 1000 mod 60) +:+ "." +:+ pad 3 (ms mod 1000) +:+ "Z").
    rewrite fields_format; unfold msPerDay in *.
    + cbn [mbind option_bind]. rewrite (time_of_fields_format 1 y y) by (done || lia).
      unfold msPerDay. by rewrite Htime.
    + change (10 ^ Z.of_nat 4) with 10000. lia.
    + lia.
    + lia.
    + split; [apply Z.div_pos; lia|]. apply Z.div_lt_upper_bound; lia.
    + pose proof (Z.mod_pos_bound (ms / 60000) 60). lia.
    + pose proof (Z.mod_pos_bound (ms / 1000) 60). lia.
    + apply Z.mod_pos_bound. lia.
  - change (String ?c ?a +:+ ?rest) with (String c (a +:+ rest)).
    assert (Hfields : fields 6
      (pad 6 (Z.abs y) +:+ "-" +:+ pad 2 m +:+ "-" +:+ pad 2 d
       +:+ "T" +:+ pad 2 (ms / 3600000) +:+ ":" +:+ pad 2 (ms / 60000 mod 60)
       +:+ ":" +:+ pad 2 (ms / 1000 mod 60) +:+ "." +:+ pad 3 (ms mod 1000) +:+ "Z")
      = Some {| year := Z.abs y; month := m; day := d; hours := ms / 3600000;
                minutes := ms / 60000 mod 60; seconds := ms / 1000 mod 60;
                milliseconds := ms mod 1000 |}).
    { apply fields_format; unfold msPerDay in *.
      + change (10 ^ Z.of_nat 6) with 1000000. lia.
      + lia.
      + lia.
      + split; [apply Z.div_pos; lia|]. apply Z.div_lt_upper_bound; lia.
      + pose proof (Z.mod_pos_bound (ms / 60000) 60). lia.
      + pose proof (Z.mod_pos_bound (ms / 1000) 60). lia.
      + apply Z.mod_pos_bound. lia. }
    unfold new_Date. destruct (Z.ltb_spec y 0) as [Hneg|Hpos].
    + change (Ascii.eqb "-" "+") with false. change (Ascii.eqb "-" "-") with true.
      cbv iota. rewrite Hfields. cbn [mbind option_bind year].
      rewrite (proj2 (Z.eqb_neq (Z.abs y) 0)) by lia.
      rewrite (time_of_fields_format (-1) (Z.abs y) y) by (done || lia).
      by rewrite Htime.
    + change (Ascii.eqb "+" "+") with true. cbv iota.
      rewrite Hfields. cbn [mbind option_bind].
      rewrite (time_of_fields_format 1 (Z.abs y) y) by (done || lia).
      by rewrite Htime.
Qed.

Example toISOString_epoch :
  toISOString (TimeValue 0) = Return "1970-01-01T00:00:00.000Z".
Proof. reflexivity. Qed.
Example toISOString_before_epoch :
  toISOString (TimeValue (-1)) = Return "1969-12-31T23:59:59.999Z".
Proof. reflexivity. Qed.
Example toISOString_latest :
  toISOString (TimeValue 8640000000000000) = Return "+275760-09-13T00:00:00.000Z".
Proof. reflexivity. Qed.
Example toISOString_earliest :
  toISOString (TimeValue (-8640000000000000)) = Return "-271821-04-20T00:00:00.000Z".
Proof. reflexivity. Qed.
Example new_Date_known :
  new_Date "2024-05-01T10:00:00.123Z" = TimeValue 1714557600123.
Proof. reflexivity. Qed.
Example new_Date_no_such_day : new_Date "2023-02-30T00:00:00.000Z" = InvalidDate.
Proof. reflexivity. Qed.

End JSDate.

(** ** base58btc (multiformats)

    Modelled from the multiformats library (base-x over the Bitcoin
    alphabet, multibase prefix "z"): every leading zero byte becomes a "1",
    the remaining bytes are read as one big-endian number and written in base
    58; decoding reverses this and fails on a missing prefix or a character
    outside the alphabet. *)

Module Base58.
Local Open Scope N_scope.

Definition alphabet : string :=
  "123456789ABCDEFGHJKLMNPQRSTUVWXYZabcdefghijkmnopqrstuvwxyz".

Definition char_of_digit (d : N) : ascii :=
  default "1"%char (String.get (N.to_nat d) alphabet).

Fixpoint index_of (c : ascii) (s : string) (i : N) : option N :=
  match s with
  | EmptyString => None
  | String a s' => if Ascii.eqb a c then Some i else index_of c s' (i + 1)
  end.
Definition digit_of_char (c : ascii) : option N := index_of c alphabet 0.

(** The digits of a number in a base, least significant first. *)
Fixpoint digits_le (fuel : nat) (base n : N) : list N :=
  match fuel with
  | O => []
  | S fuel => if n =? 0 then [] else n mod base :: digits_le fuel base (n / base)
  end.
Definition digits (base n : N) : list N :=
  reverse (digits_le (N.to_nat (N.size n)) base n).

(** The number a list of digits spells, least significant first. *)
Definition value_le (base : N) (ds : list N) : N :=
  foldr (λ d acc, d + base * acc) 0 ds.
Definition value (base : N) (ds : list N) : N := value_le base (reverse ds).

Fixpoint leading_zeroes (ds : list N) : nat :=
  match ds with
  | 0 :: ds => S (leading_zeroes ds)
  | _ => 0
  end.

Definition byte_of_N (n : N) : byte := default x00 (Byte.of_N n).

(** Leading zero digits are kept one for one; the rest is one number,
    written in the other base. *)
Definition convert (from to : N) (ds : list N) : list N :=
  let zeroes := leading_zeroes ds in
  replicate zeroes 0 ++ digits to (value from (drop zeroes ds)).

Definition encode (bytes : list byte) : string :=
  String "z"
    (string_of_list_ascii (char_of_digit <$> convert 256 58 (Byte.to_N <$> bytes))).

Definition decode (s : string) : option (list byte) :=
  match s with
  | String "z" s' =>
      ds ← mapM digit_of_char (list_ascii_of_string s');
      Some (byte_of_N <$> convert 58 256 ds)
  | _ => None
  end.


(** *** The codec round-trips *)

Lemma digit_of_char_of_digit d : d < 58 → digit_of_char (char_of_digit d) = Some d.
Proof.
  intros Hd.
  assert (H : Forall (λ d, digit_of_char (char_of_digit d) = Some d)
                (N.of_nat <$> seq 0 58)) by (vm_compute; repeat constructor).
  rewrite Forall_forall in H. apply H.
  apply list_elem_of_fmap. exists (N.to_nat d). split; [lia|].
  apply elem_of_seq. lia.
Qed.

Lemma digits_le_value f b n :
  2 ≤ b → n < 2 ^ N.of_nat f → value_le b (digits_le f b n) = n.
Proof.
  intros Hb. revert n. induction f as [|f IH]; intros n Hn; simpl.
  - simpl in Hn. lia.
  - destruct (N.eqb_spec n 0) as [->|Hn0]; [done|]. simpl.
    rewrite IH.
    + pose proof (N.div_mod n b). lia.
    + apply N.Div0.div_lt_upper_bound.
      rewrite Nat2N.inj_succ, N.pow_succ_r' in Hn. nia.
Qed.

Lemma digits_le_bounded f b n : 0 < b → Forall (λ d, d < b) (digits_le f b n).
Proof.
  intros Hb. revert n. induction f as [|f IH]; intros n; simpl; [done|].
  destruct (n =? 0); [done|]. constructor; [|done]. apply N.mod_lt. lia.
Qed.

Lemma value_le_nonzero b ds :
  0 < b → last ds ≠ Some 0 → ds ≠ [] → value_le b ds ≠ 0.
Proof.
  intros Hb. induction ds as [|d ds IH]; [done|]. intros Hlast _.
  destruct ds as [|d' ds]; simpl in *.
  - assert (d ≠ 0) by congruence. lia.
  - specialize (IH Hlast). simpl in IH. specialize (IH ltac:(done)). nia.
Qed.

Lemma digits_le_last f b n :
  2 ≤ b → n < 2 ^ N.of_nat f → last (digits_le f b n) ≠ Some 0.
Proof.
  intros Hb. revert n. induction f as [|f IH]; intros n Hn; simpl; [done|].
  destruct (N.eqb_spec n 0) as [->|Hn0]; [done|].
  assert (Hq : n / b < 2 ^ N.of_nat f).
  { apply N.Div0.div_lt_upper_bound.
    rewrite Nat2N.inj_succ, N.pow_succ_r' in Hn. nia. }
  specialize (IH _ Hq).
  destruct (digits_le f b (n / b)) as [|d ds] eqn:Hds; [|done].
  simpl. intros [= Hmod].
  pose proof (digits_le_value f b (n / b) Hb Hq) as Hv. rewrite Hds in Hv. simpl in Hv.
  pose proof (N.div_mod n b). lia.
Qed.

Lemma value_le_digits f b ds :
  2 ≤ b → Forall (λ d, d < b) ds → last ds ≠ Some 0 → value_le b ds < 2 ^ N.of_nat f →
  digits_le f b (value_le b ds) = ds.
Proof.
  intros Hb Hds. revert f. induction Hds as [|d ds Hd Hds IH]; intros f Hlast Hf.
  - by destruct f.
  - assert (Hv : value_le b (d :: ds) ≠ 0) by (apply value_le_nonzero; [lia|done..]).
    simpl in *. destruct f as [|f]; [simpl in Hf; lia|]. simpl.
    destruct (N.eqb_spec (d + b * value_le b ds) 0) as [|_]; [done|].
    assert (Hmod : (d + b * value_le b ds) mod b = d).
    { rewrite N.mul_comm, N.Div0.mod_add. by apply N.mod_small. }
    assert (Hdiv : (d + b * value_le b ds) / b = value_le b ds).
    { rewrite N.mul_comm, N.div_add by lia. rewrite N.div_small by done. lia. }
    rewrite Hmod, Hdiv. f_equal. apply IH.
    + destruct ds; [done|]. done.
    + rewrite Nat2N.inj_succ, N.pow_succ_r' in Hf. nia.
Qed.

Lemma value_digits b n : 2 ≤ b → value b (digits b n) = n.
Proof.
  intros Hb. unfold value, digits. rewrite reverse_involutive.
  apply digits_le_value; [done|]. rewrite N2Nat.id. apply N.size_gt.
Qed.

Lemma digits_value b ds :
  2 ≤ b → Forall (λ d, d < b) ds → head ds ≠ Some 0 → digits b (value b ds) = ds.
Proof.
  intros Hb Hds Hhead. unfold value, digits.
  rewrite value_le_digits, reverse_involutive; try done.
  - by apply Forall_reverse.
  - by rewrite last_reverse.
  - rewrite N2Nat.id. apply N.size_gt.
Qed.

Lemma head_digits b n : 2 ≤ b → head (digits b n) ≠ Some 0.
Proof.
  intros Hb. unfold digits. rewrite head_reverse.
  apply digits_le_last; [done|]. rewrite N2Nat.id. apply N.size_gt.
Qed.

Lemma leading_zeroes_spec ds :
  ds = replicate (leading_zeroes ds) 0 ++ drop (leading_zeroes ds) ds
  ∧ head (drop (leading_zeroes ds) ds) ≠ Some 0.
Proof.
  induction ds as [|d ds [IH1 IH2]]; [done|].
  destruct d as [|p]; simpl; [|done]. split; [by rewrite <- IH1|done].
Qed.

Lemma leading_zeroes_replicate z ds :
  head ds ≠ Some 0 → leading_zeroes (replicate z 0 ++ ds) = z.
Proof.
  intros Hds. induction z as [|z IH]; simpl; [|by rewrite IH].
  destruct ds as [|[|p] ds]; done.
Qed.

Lemma convert_bounded a b ds : 0 < b → Forall (λ d, d < b) (convert a b ds).
Proof.
  intros Hb. unfold convert. apply Forall_app. split.
  - apply Forall_replicate. lia.
  - unfold digits. apply Forall_reverse, digits_le_bounded. done.
Qed.

Lemma convert_convert a b ds :
  2 ≤ a → 2 ≤ b → Forall (λ d, d < a) ds → convert b a (convert a b ds) = ds.
Proof.
  intros Ha Hb Hds. destruct (leading_zeroes_spec ds) as [Hsplit Hhead].
  unfold convert at 2.
  set (z := leading_zeroes ds) in *. set (rest := drop z ds) in *.
  unfold convert.
  rewrite leading_zeroes_replicate by by apply head_digits.
  rewrite drop_app_length' by by rewrite length_replicate.
  rewrite value_digits by done. rewrite digits_value; try done.
  subst rest. by apply Forall_drop.
Qed.

(** base58btc decodes what it encodes. *)
Lemma decode_of_encode bytes : decode (encode bytes) = Some bytes.
Proof.
  unfold decode, encode. rewrite list_ascii_of_string_of_list_ascii.
  set (ds := convert 256 58 (Byte.to_N <$> bytes)).
  assert (Hmap : mapM digit_of_char (char_of_digit <$> ds) = Some ds).
  { apply mapM_Some. apply Forall2_fmap_l, Forall_Forall2_diag.
    eapply Forall_impl; [apply (convert_bounded 256 58); lia|].
    intros d Hd. by apply digit_of_char_of_digit. }
  rewrite Hmap. simpl. f_equal. subst ds. rewrite convert_convert; try lia.
  - rewrite <- list_fmap_compose. rewrite <- (list_fmap_id bytes) at 2.
    apply list_fmap_ext. intros _ b _. unfold byte_of_N. simpl.
    by rewrite Byte.of_to_N.
  - apply Forall_fmap, Forall_forall. intros b _. pose proof (Byte.to_N_bounded b). simpl. lia.
Qed.

Lemma char_of_digit_of_char c d :
  digit_of_char c = Some d → char_of_digit d = c ∧ d < 58.
Proof.
  destruct c as [[] [] [] [] [] [] [] []]; vm_compute; intros [= <-]; done.
Qed.

Lemma to_N_byte_of_N n : n < 256 → Byte.to_N (byte_of_N n) = n.
Proof.
  intros Hn. unfold byte_of_N. destruct (Byte.of_N n) as [b|] eqn:Hb.
  - by apply Byte.to_of_N.
  - apply Byte.of_N_None_iff in Hb. lia.
Qed.

(** What decodes was encoded from its decoding: base58btc strings are
    canonical. *)
Lemma encode_of_decode s bytes : decode s = Some bytes → encode bytes = s.
Proof.
  unfold decode, encode. destruct s as [|c s]; [done|].
  destruct (ascii_dec c "z") as [->|Hc];
    [|by destruct c as [[] [] [] [] [] [] [] []]].
  destruct (mapM digit_of_char (list_ascii_of_string s)) as [ds|] eqn:Hds; [|done].
  simpl. intros [= <-]. f_equal.
  apply mapM_Some in Hds.
  assert (Hbound : Forall (λ d, d < 58) ds).
  { clear -Hds. induction Hds as [|c d cs ds Hc _ IH]; constructor; [|done].
    by apply char_of_digit_of_char in Hc as [_ ?]. }
  assert (Hchars : char_of_digit <$> ds = list_ascii_of_string s).
  { clear -Hds. induction Hds as [|c d cs ds Hc _ IH]; [done|].
    rewrite fmap_cons, IH. by apply char_of_digit_of_char in Hc as [-> _]. }
  rewrite <- list_fmap_compose.
  rewrite (list_fmap_ext _ id (convert 58 256 ds)), list_fmap_id.
  - rewrite convert_convert by (done || lia).
    by rewrite Hchars, string_of_list_ascii_of_string.
  - intros i n Hn. simpl. apply to_N_byte_of_N.
    eapply (Forall_lookup_1 (λ d, d < 256)); [|exact Hn].
    apply convert_bounded. lia.
Qed.

End Base58.

(** ** The object store (S3), as the sources use it

    Modelled from the S3 API (an external service): [PutObject] creates or
    overwrites the object, [GetObject] fails with a 404 error on a missing key,
    and [ListObjectsV2] returns the keys under a prefix in ascending code-unit
    order, at most 1000 of them, with [Contents] absent when there is none.
    A client whose [outage] is set fails every command with that error. *)

Module S3.

Record S3Object := { Key : option string }.
Record GetObjectOutput := { Body : option (list byte) }.
Record ListObjectsV2Output := { Contents : option (list S3Object) }.

Inductive Command : Type → Type :=
| PutObjectCommand (Bucket Key : string) (Body : option (list byte)) : Command unit
| GetObjectCommand (Bucket Key : string) : Command GetObjectOutput
| ListObjectsV2Command (Bucket Prefix : string) : Command ListObjectsV2Output.

Record S3Client := {
  objects : gmap (string * string) (list byte);
  outage : option JSError
}.

Definition NoSuchKey : JSError :=
  mkError "NoSuchKey" "The specified key does not exist." (Some 404).

Definition MaxKeys : nat := 1000.

(** The keys of a bucket under a prefix, in listing order. *)
Definition bucket_keys (objs : gmap (string * string) (list byte))
    (bucket prefix : string) : list string :=
  merge_sort string_le
    (filter (λ key, startsWith key prefix)
       (omap (λ entry, if decide (entry.1.1 = bucket) then Some entry.1.2 else None)
          (map_to_list objs))).

Definition send {A} (command : Command A) : Async S3Client A := λ σ,
  match outage σ with
  | Some e => (Throw e, σ)
  | None =>
    match command in Command A return Completion A * S3Client with
    | PutObjectCommand bucket key body =>
        (Return (), {| objects := <[(bucket, key) := default [] body]> (objects σ);
                       outage := None |})
    | GetObjectCommand bucket key =>
        match objects σ !! (bucket, key) with
        | Some bytes => (Return {| Body := Some bytes |}, σ)
        | None => (Throw NoSuchKey, σ)
        end
    | ListObjectsV2Command bucket prefix =>
        match take MaxKeys (bucket_keys (objects σ) bucket prefix) with
        | [] => (Return {| Contents := None |}, σ)
        | keys => (Return {| Contents := Some ((λ k, {| Key := Some k |}) <$> keys) |}, σ)
        end
    end
  end.

End S3.

(** ** upload-api/stores/agent/store.js *)

Module AgentStore.
Import S3.

Inductive StoreError :=
| RecordNotFound (message : option string)
| StorageOperationFailed (message : string).

Record Bucket := { name : string }.
Record Buckets := { index : Bucket; message : Bucket }.
(** The store's [channel] is the S3 client the async functions run over. *)
Record Store := { buckets : Buckets }.

(** [{root?: string, at: string}] *)
Record IndexEntry := { root : option string; at_ : string }.

(** [AgentMessageQuery]: a variant of [invocation] and [receipt]. *)
Record AgentMessageQuery (Link : Type) := {
  q_invocation : option Link;
  q_receipt : option Link
}.
Arguments q_invocation {Link} _.
Arguments q_receipt {Link} _.

(** Takes a pseudo symlink and extracts the DAG [root] and DAG [archive]
    identifiers. *)
Definition toIndexEntry (path : string) : IndexEntry :=
  let start := indexOf path "/" in
  let offset := indexOf path "@" in
  if 0 <? offset
  then {| root := Some (slice path start offset);
          at_ := slice path (offset + 1) (indexOf path ".") |}
  else {| root := None;
          at_ := slice path (start + 1) (indexOf path ".") |}.

(** The loop of [resolve] over the entries after the first: the first one
    with a root, else the head. *)
Fixpoint resolve_rest (head : IndexEntry) (rest : list string) : IndexEntry :=
  match rest with
  | [] => head
  | path :: rest =>
      let entry := toIndexEntry path in
      if truthy_opt (root entry) then entry else resolve_rest head rest
  end.

Section Ucanto.

(** What the sources import from ucanto and multiformats: links with their
    string form and parser, the CAR codec, and the views over a decoded
    archive. A parser or decoder that throws is a [Throw]. *)
Variable Link : Type.
Variable toString : Link → string.
Variable parseLink : string → Completion Link.
Variable Archive : Type.
Variable CAR_codec_decode : list byte → Completion Archive.
Variables InvocationView ReceiptView AgentMessage AgentMessageView : Type.
Variable Invocation_view : Link → Archive → option InvocationView.
Variable Receipt_view : Link → Archive → option ReceiptView.
Variable CAR_request_decode : list byte → Completion AgentMessageView.
Variable receipts_get : AgentMessageView → string → option ReceiptView.

Record HTTPMessage := { headers : gmap string string; body : list byte }.
Variable CAR_response_encode : AgentMessage → HTTPMessage.
Variable root_cid : AgentMessage → Link.

Definition CAR_codec_contentType : string := "application/vnd.ipld.car".

(** The entries of a message's index. The template literals of [assert]
    spell the three fields of an entry into a key, each by its string form. *)
Record InvocationSource := {
  i_task : Link; i_invocation : Link; i_message : Link
}.
Record ReceiptSource := {
  r_task : Link; r_receipt : Link; r_message : Link
}.
Record AgentMessageIndexRecord := {
  invocation : option InvocationSource;
  receipt : option ReceiptSource
}.
Record ParsedAgentMessage := {
  source : HTTPMessage;
  data : AgentMessage;
  index_ : list AgentMessageIndexRecord
}.

(** The commands [assert] yields for one entry of [message.index]. *)
Definition assert_entry (buckets : Buckets) (entry : AgentMessageIndexRecord)
    : list (Command unit) :=
  match invocation entry with
  | Some i =>
      [PutObjectCommand (name (index buckets))
         (toString (i_task i) +:+ "/" +:+ toString (i_invocation i) +:+ "@"
            +:+ toString (i_message i) +:+ ".in") None]
  | None => []
  end ++
  match receipt entry with
  | Some r =>
      [PutObjectCommand (name (index buckets))
         (toString (r_task r) +:+ "/" +:+ toString (r_receipt r) +:+ "@"
            +:+ toString (r_message r) +:+ ".out") None]
  | None => []
  end.

Fixpoint assert_index (buckets : Buckets) (entries : list AgentMessageIndexRecord)
    : list (Command unit) :=
  match entries with
  | [] => []
  | entry :: entries => assert_entry buckets entry ++ assert_index buckets entries
  end.

(** Iterates over all invocations and receipts and yields corresponding S3
    Put commands. *)
Definition assert (store : Store) (parsed : ParsedAgentMessage) : list (Command unit) :=
  let id := toString (root_cid (data parsed)) in
  let body_ :=
    if decide (headers (source parsed) !! "content-type" = Some CAR_codec_contentType)
    then body (source parsed)
    else body (CAR_response_encode (data parsed)) in
  PutObjectCommand (name (message (buckets store))) (id +:+ "/" +:+ id) (Some body_)
  :: assert_index (buckets store) (index_ parsed).

(** [Promise.all(commands.map(command => channel.send(command)))]: every
    command is issued, in order; the promise rejects with the first failure. *)
Fixpoint send_all (commands : list (Command unit)) : Async S3Client unit :=
  match commands with
  | [] => ret ()
  | command :: commands => λ σ,
      match send command σ with
      | (Return _, σ') => send_all commands σ'
      | (Throw e, σ') => (Throw e, (send_all commands σ').2)
      end
  end.

Definition write (store : Store) (parsed : ParsedAgentMessage)
    : Async S3Client (Result unit JSError) :=
  let commands := assert store parsed in
  try_catch
    (let* _ := send_all commands in ret (ok ()))
    (λ cause, ret (error cause)).

Definition not_found_message (prefix suffix : string) : string :=
  "any pseudo symlink from invocation " +:+ prefix +:+ "*" +:+ suffix +:+ " was found".

Definition list_ (connection : Store) (prefix suffix : string)
    : Async S3Client (Result (list string) StoreError) :=
  try_catch
    (let* out := send (ListObjectsV2Command (name (index (buckets connection))) prefix) in
     let entries :=
       match Contents out with
       | Some contents =>
           filter (λ key, endsWith key suffix) ((λ c, default "" (Key c)) <$> contents)
       | None => []
       end in
     ret (if (0 <? length entries)%nat
          then ok entries
          else error (RecordNotFound (Some (not_found_message prefix suffix)))))
    (λ error_,
       if decide (httpStatusCode error_ = Some 404)
       then ret (error (RecordNotFound (Some (not_found_message prefix suffix))))
       else ret (error (StorageOperationFailed (JS.message error_)))).

Definition archive_not_found (at_ : string) : StoreError :=
  RecordNotFound (Some ("agent message archive " +:+ at_ +:+ " not found in store")).

Definition read (connection : Store) (at_ : string)
    : Async S3Client (Result (list byte) StoreError) :=
  let getCmd := GetObjectCommand (name (index (buckets connection))) (at_ +:+ "/" +:+ at_) in
  λ σ,
    match send getCmd σ with
    | (Throw error_, σ') =>
        if decide (httpStatusCode error_ = Some 404)
        then (Return (error (archive_not_found at_)), σ')
        else (Return (error (StorageOperationFailed (JS.message error_))), σ')
    | (Return res, σ') =>
        match Body res with
        | None => (Return (error (archive_not_found at_)), σ')
        | Some bytes => (Return (ok bytes), σ')
        end
    end.

(** A [TypeError]: destructuring or calling a method of [undefined]. *)
Definition TypeError : JSError := mkError "TypeError" "undefined" None.

(** Resolves paths to an agent message for the given key. *)
Definition resolve (store : Store) (query : AgentMessageQuery Link)
    : Async S3Client (Result IndexEntry StoreError) :=
  let '(prefix, suffix) :=
    match q_invocation query with
    | Some invocation => (toString invocation +:+ "/", ".in")
    | None =>
        (match q_receipt query with
         | Some receipt => toString receipt
         | None => "undefined"
         end +:+ "/", ".out")
    end in
  let* entries := list_ store prefix suffix in
  match entries with
  | error e => ret (error e)
  | ok [] => throw TypeError
  | ok (first :: rest) =>
      let head := toIndexEntry first in
      if truthy_opt (root head)
      then ret (ok head)
      else ret (ok (resolve_rest head rest))
  end.

Record Loaded := { archive : Archive; l_root : option Link }.

(** Loads a view based on the query *)
Definition load (store : Store) (query : AgentMessageQuery Link)
    : Async S3Client (Result Loaded StoreError) :=
  let* resolved := resolve store query in
  match resolved with
  | error e => ret (error e)
  | ok index =>
      let* bytes := read store (at_ index) in
      match bytes with
      | error readError => ret (error readError)
      | ok bytes =>
          let* archive := lift (CAR_codec_decode bytes) in
          let* root :=
            (if truthy_opt (root index)
             then let* link := lift (parseLink (default "" (root index))) in ret (Some link)
             else ret None) in
          ret (ok {| archive := archive; l_root := root |})
      end
  end.

(** Gets a invocation corresponding to the given task. *)
Definition getInvocation (store : Store) (task : Link)
    : Async S3Client (Result InvocationView StoreError) :=
  let* result := load store {| q_invocation := Some task; q_receipt := None |} in
  match result with
  | error e => ret (error e)
  | ok loaded =>
      let invocation := default task (l_root loaded) in
      match Invocation_view invocation (archive loaded) with
      | Some view => ret (ok view)
      | None => ret (error (RecordNotFound None))
      end
  end.

Definition receipt_not_found (at_ : string) (task : Link) : StoreError :=
  RecordNotFound
    (Some ("agent message " +:+ at_ +:+ " does not contain receipt for "
             +:+ toString task +:+ " task")).

(** Gets a receipt corresponding to the given task. *)
Definition getReceipt (store : Store) (task : Link)
    : Async S3Client (Result ReceiptView StoreError) :=
  let* result := load store {| q_invocation := Some task; q_receipt := None |} in
  match result with
  | error e => ret (error e)
  | ok _ =>
      let invocation := task in
      let* resolved := resolve store {| q_invocation := None; q_receipt := Some invocation |} in
      match resolved with
      | error e => ret (error e)
      | ok entry =>
          let* body := read store (at_ entry) in
          match body with
          | error readError => ret (error readError)
          | ok body =>
              if truthy_opt (root entry)
              then
                let* archive := lift (CAR_codec_decode body) in
                let* link := lift (parseLink (default "" (root entry))) in
                match Receipt_view link archive with
                | Some receipt => ret (ok receipt)
                | None => ret (error (receipt_not_found (at_ entry) task))
                end
              else
                let* message := lift (CAR_request_decode body) in
                match receipts_get message (toString task) with
                | Some receipt => ret (ok receipt)
                | None => ret (error (receipt_not_found (at_ entry) task))
                end
          end
      end
  end.

(** *** The write path *)

Definition invocations (parsed : ParsedAgentMessage) : list InvocationSource :=
  omap invocation (index_ parsed).
Definition receipts (parsed : ParsedAgentMessage) : list ReceiptSource :=
  omap receipt (index_ parsed).

(** [{task}/{invocation}@{message}.in] in the index bucket, an empty object. *)
Definition incoming_link (store : Store) (i : InvocationSource) : Command unit :=
  PutObjectCommand (name (index (buckets store)))
    (toString (i_task i) +:+ "/" +:+ toString (i_invocation i) +:+ "@"
       +:+ toString (i_message i) +:+ ".in") None.
(** [{task}/{receipt}@{message}.out] in the index bucket, an empty object. *)
Definition outgoing_link (store : Store) (r : ReceiptSource) : Command unit :=
  PutObjectCommand (name (index (buckets store)))
    (toString (r_task r) +:+ "/" +:+ toString (r_receipt r) +:+ "@"
       +:+ toString (r_message r) +:+ ".out") None.
(** The archive under [{id}/{id}] in the message bucket. *)
Definition archive_put (store : Store) (parsed : ParsedAgentMessage)
    (bytes : list byte) : Command unit :=
  let id := toString (root_cid (data parsed)) in
  PutObjectCommand (name (message (buckets store))) (id +:+ "/" +:+ id) (Some bytes).

Lemma assert_index_links store entries :
  assert_index (buckets store) entries ≡ₚ
    (incoming_link store <$> omap invocation entries)
    ++ (outgoing_link store <$> omap receipt entries).
Proof.
  induction entries as [|entry entries IH]; [done|].
  cbn [assert_index omap list_omap]. rewrite IH. unfold assert_entry.
  destruct (invocation entry) as [i|], (receipt entry) as [r|]; cbn.
  - apply Permutation_skip, Permutation_middle.
  - done.
  - apply Permutation_middle.
  - done.
Qed.

(** For a parsed agent message with n invocations and m receipts,
    [assert] yields exactly 1 + n + m put commands: first the archive under
    [{id}/{id}] in the message bucket, and besides it exactly one incoming
    pseudo-link [{task}/{invocation}@{message}.in] per invocation and one
    outgoing pseudo-link [{task}/{receipt}@{message}.out] per receipt, both
    empty objects in the index bucket, each field of the record spelled by
    the string form of what it holds. The archive's bytes are the source's
    bytes unmodified when the source's content type is the CAR content type,
    and the CAR encoding of the message otherwise. *)
Theorem assert_emits (store : Store) (parsed : ParsedAgentMessage) :
  let bytes :=
    if decide (headers (source parsed) !! "content-type" = Some "application/vnd.ipld.car")
    then body (source parsed)
    else body (CAR_response_encode (data parsed)) in
  head (assert store parsed) = Some (archive_put store parsed bytes)
  ∧ assert store parsed ≡ₚ
      archive_put store parsed bytes
      :: (incoming_link store <$> invocations parsed)
      ++ (outgoing_link store <$> receipts parsed)
  ∧ length (assert store parsed)
    = (1 + length (invocations parsed) + length (receipts parsed))%nat.
Proof.
  intros bytes.
  assert (Hperm : assert store parsed ≡ₚ
      archive_put store parsed bytes
      :: (incoming_link store <$> invocations parsed)
      ++ (outgoing_link store <$> receipts parsed)).
  { unfold assert. apply Permutation_skip, assert_index_links. }
  split; [done|]. split; [done|].
  rewrite Hperm. cbn [length]. rewrite length_app, !length_fmap. lia.
Qed.

(** *** Disambiguation *)

(** A key of the current scheme, [{task}/{id}@{message}.{suffix}], carries
    the counterpart's root before an "@"; a legacy key
    [{id}/{message}.{suffix}] has no "@". *)
Definition current_scheme (path : string) : bool := JSFacts.includes path "@".

(** The identifier a query names, as the key prefix spells it. *)
Definition query_task (query : AgentMessageQuery Link) : string :=
  match q_invocation query, q_receipt query with
  | Some invocation, _ => toString invocation
  | None, Some receipt => toString receipt
  | None, None => "undefined"
  end.
Definition query_suffix (query : AgentMessageQuery Link) : string :=
  match q_invocation query with Some _ => ".in" | None => ".out" end.

Lemma has_root_current_scheme task path :
  JSFacts.includes task "@" = false →
  startsWith path (task +:+ "/") = true →
  truthy_opt (root (toIndexEntry path)) = current_scheme path.
Proof.
  intros Htask [r ->]%JSFacts.prefix_append.
  rewrite JSFacts.append_assoc. change ("/" +:+ r) with (String "/" r).
  set (n := Z.of_nat (String.length task)).
  assert (Hstart : 0 ≤ indexOf (task +:+ String "/" r) "/" ≤ n).
  { unfold indexOf. destruct (JSFacts.includes task "/") eqn:Hs.
    - rewrite JSFacts.indexOf_from_app_l by done.
      pose proof (JSFacts.indexOf_from_spec "/" task 0) as H. rewrite Hs in H. lia.
    - rewrite JSFacts.indexOf_from_app_r by done. simpl. lia. }
  assert (Hoff : indexOf (task +:+ String "/" r) "@" = indexOf_from "@" r (n + 1)).
  { unfold indexOf. rewrite JSFacts.indexOf_from_app_r by done. simpl. done. }
  unfold current_scheme, toIndexEntry. rewrite Hoff.
  rewrite JSFacts.includes_app, Htask. simpl.
  pose proof (JSFacts.indexOf_from_spec "@" r (n + 1)) as H.
  destruct (JSFacts.includes r "@").
  - replace (0 <? indexOf_from "@" r (n + 1)) with true by (symmetry; apply Z.ltb_lt; lia).
    simpl. apply JSFacts.truthy_slice; [lia|].
    rewrite JSFacts.length_append. simpl. lia.
  - rewrite H. done.
Qed.

Lemma resolve_rest_find task head rest :
  JSFacts.includes task "@" = false →
  Forall (λ path, startsWith path (task +:+ "/") = true) rest →
  resolve_rest head rest = from_option toIndexEntry head (List.find current_scheme rest).
Proof.
  intros Htask. induction 1 as [|path rest Hpath _ IH]; [done|].
  simpl. rewrite (has_root_current_scheme task) by done.
  destruct (current_scheme path); [done|apply IH].
Qed.

Lemma bucket_keys_prefix objs bucket prefix :
  Forall (λ key, startsWith key prefix = true) (bucket_keys objs bucket prefix).
Proof.
  unfold bucket_keys. rewrite merge_sort_Permutation.
  apply Forall_forall. intros key [H _]%list_elem_of_filter. by apply Is_true_true.
Qed.

(** What [list_] returns when the store is up: the listed keys that end in
    the suffix, or [RecordNotFound] when there is none. *)
Lemma list_up store prefix suffix σ :
  outage σ = None →
  list_ store prefix suffix σ =
    (Return
       (match filter (λ key, endsWith key suffix)
                (take MaxKeys (bucket_keys (objects σ) (name (index (buckets store))) prefix)) with
        | [] => error (RecordNotFound (Some (not_found_message prefix suffix)))
        | entries => ok entries
        end), σ).
Proof.
  intros Hup. unfold list_, try_catch, bind, send. rewrite Hup.
  destruct (take MaxKeys _) as [|key keys] eqn:Hkeys; [done|].
  cbn [Contents].
  assert (Hkey : ∀ l : list string,
    (λ c, default "" (Key c)) <$> ((λ k, {| Key := Some k |}) <$> l) = l).
  { induction l as [|k l IH]; [done|]. cbn. by rewrite IH. }
  rewrite Hkey. destruct (filter _ (key :: keys)); done.
Qed.

Lemma list_ok_prefix store prefix suffix σ σ' entries :
  list_ store prefix suffix σ = (Return (ok entries), σ') →
  Forall (λ key, startsWith key prefix = true) entries.
Proof.
  destruct (outage σ) as [e|] eqn:Hup.
  - unfold list_, try_catch, bind, send. rewrite Hup. case_decide; done.
  - rewrite list_up by done. intros H.
    assert (entries = filter (λ key, endsWith key suffix)
      (take MaxKeys (bucket_keys (objects σ) (name (index (buckets store))) prefix)))
      as -> by (destruct (filter _ _); congruence).
    apply Forall_forall. intros key [_ Hkey%subseteq_take]%list_elem_of_filter.
    revert key Hkey. apply Forall_forall, bucket_keys_prefix.
Qed.

(** [read] looks for the archive in the index bucket. *)
Lemma read_up store at_ σ :
  outage σ = None →
  read store at_ σ
  = (Return (match objects σ !! (name (index (buckets store)), at_ +:+ "/" +:+ at_) with
             | Some bytes => ok bytes
             | None => error (archive_not_found at_)
             end), σ).
Proof.
  intros Hup. unfold read, send. rewrite Hup.
  destruct (objects σ !! _); [done|]. by rewrite decide_True.
Qed.

(** C5. Among the candidate entries listed for a task (the task's identifier
    has no "@" in it), [resolve] returns the first entry, in listing order,
    of the current scheme (the one that encodes a root before an "@"); when
    no entry encodes a root it returns the first entry of the list. *)
Theorem resolve_prefers_root (store : Store) (query : AgentMessageQuery Link)
    (σ σ' : S3Client) (first : string) (rest : list string) :
  JSFacts.includes (query_task query) "@" = false →
  list_ store (query_task query +:+ "/") (query_suffix query) σ
    = (Return (ok (first :: rest)), σ') →
  resolve store query σ
    = (Return (ok (toIndexEntry (default first (List.find current_scheme (first :: rest))))), σ').
Proof.
  intros Htask Hlist. pose proof (list_ok_prefix _ _ _ _ _ _ Hlist) as Hpre.
  apply Forall_cons in Hpre as [Hfirst Hrest].
  assert (Hres : resolve store query σ =
    (let* entries := list_ store (query_task query +:+ "/") (query_suffix query) in
     match entries with
     | error e => ret (error e)
     | ok [] => throw TypeError
     | ok (first :: rest) =>
         let head := toIndexEntry first in
         if truthy_opt (root head) then ret (ok head)
         else ret (ok (resolve_rest head rest))
     end) σ).
  { unfold resolve, query_task, query_suffix.
    destruct (q_invocation query), (q_receipt query); done. }
  rewrite Hres. unfold bind. rewrite Hlist. cbn zeta.
  rewrite (has_root_current_scheme (query_task query)) by done.
  simpl List.find. destruct (current_scheme first); [done|].
  unfold ret. rewrite (resolve_rest_find (query_task query)) by done.
  by destruct (List.find current_scheme rest).
Qed.

End Ucanto.

End AgentStore.

Module AgentStoreCases.
Import S3 AgentStore.

(** Two deployments: separate index and message buckets, and one bucket
    serving as both. Links are spelled by their string form. *)
Definition two_buckets : Store :=
  {| buckets := {| index := {| name := "invocation-store" |};
                   message := {| name := "workflow-store" |} |} |}.
Definition one_bucket : Store :=
  {| buckets := {| index := {| name := "agent-store" |};
                   message := {| name := "agent-store" |} |} |}.
Definition empty : S3Client := {| objects := ∅; outage := None |}.

Definition car_bytes : list byte := [x3a; xa2; x65].
Definition car_source : HTTPMessage :=
  {| headers := {[ "content-type" := "application/vnd.ipld.car" ]}; body := car_bytes |}.

(** A message [bafymsg] with one invocation and one receipt of task [bafytask]. *)
Definition request_and_response : ParsedAgentMessage string string :=
  {| source := car_source;
     data := "bafymsg";
     index_ :=
       [ {| invocation := Some {| i_task := "bafytask"; i_invocation := "bafyinv";
                                  i_message := "bafymsg" |};
            receipt := None |};
         {| invocation := None;
            receipt := Some {| r_task := "bafytask"; r_receipt := "bafyrcpt";
                               r_message := "bafymsg" |} |} ] |}.

(** A message [bafymsg] that holds the receipt of task [bafytask] only. *)
Definition response_only : ParsedAgentMessage string string :=
  {| source := car_source;
     data := "bafymsg";
     index_ :=
       [ {| invocation := None;
            receipt := Some {| r_task := "bafytask"; r_receipt := "bafyrcpt";
                               r_message := "bafymsg" |} |} ] |}.

(** A legacy entry next to a current one, the legacy one listed first. *)
Definition mixed_index : S3Client :=
  {| objects := {[ ("agent-store", "bafytask/bafyaaa.in") := [];
                   ("agent-store", "bafytask/bafyinv@bafymsg.in") := [] ]};
     outage := None |}.

Lemma resolve_prefers_root_witness :
  resolve string id one_bucket {| q_invocation := Some "bafytask"; q_receipt := None |}
    mixed_index
  = (Return (ok {| root := Some "/bafyinv"; at_ := "bafymsg" |}), mixed_index).
Proof.
  apply (resolve_prefers_root string id one_bucket
           {| q_invocation := Some "bafytask"; q_receipt := None |}
           mixed_index mixed_index "bafytask/bafyaaa.in" ["bafytask/bafyinv@bafymsg.in"]).
  - reflexivity.
  - vm_compute. reflexivity.
Defined.

Section AnyCodec.

(** The cases below hold whatever the codecs and views are. *)
Variable parseLink : string → Completion string.
Variable Archive : Type.
Variable CAR_codec_decode : list byte → Completion Archive.
Variables InvocationView ReceiptView AgentMessageView : Type.
Variable Invocation_view : string → Archive → option InvocationView.
Variable Receipt_view : string → Archive → option ReceiptView.
Variable CAR_request_decode : list byte → Completion AgentMessageView.
Variable receipts_get : AgentMessageView → string → option ReceiptView.
Variable CAR_response_encode : string → HTTPMessage.

Abbreviation write_ := (write string id string CAR_response_encode id).
Abbreviation getInvocation_ :=
  (getInvocation string id parseLink Archive CAR_codec_decode InvocationView Invocation_view).
Abbreviation getReceipt_ :=
  (getReceipt string id parseLink Archive CAR_codec_decode ReceiptView AgentMessageView
     Receipt_view CAR_request_decode receipts_get).

(** C4 (the code departs from it). With separate index and message buckets,
    [write] of a message with one invocation and one receipt of a task
    succeeds and stores the archive in the message bucket, and then both
    [getInvocation] and [getReceipt] of that task answer [RecordNotFound]
    for the archive: [read] looks for it in the index bucket. *)
Theorem read_misses_written_archive :
  let written := write_ two_buckets request_and_response empty in
  written.1 = Return (ok ())
  ∧ objects written.2 !! ("workflow-store", "bafymsg/bafymsg") = Some car_bytes
  ∧ getInvocation_ two_buckets "bafytask" written.2
    = (Return (error (archive_not_found "bafymsg")), written.2)
  ∧ getReceipt_ two_buckets "bafytask" written.2
    = (Return (error (archive_not_found "bafymsg")), written.2).
Proof. vm_compute. done. Qed.

(** With one bucket for both, the archive is found, and the entry's root is
    the counterpart's identifier with the "/" before it: when the link
    parser rejects it, [getInvocation] throws. *)
Lemma getInvocation_root_keeps_slash (a : Archive) (e : JSError) :
  CAR_codec_decode car_bytes = Return a →
  parseLink "/bafyinv" = Throw e →
  let written := write_ one_bucket request_and_response empty in
  getInvocation_ one_bucket "bafytask" written.2 = (Throw e, written.2).
Proof.
  intros Hdecode Hparse written.
  unfold getInvocation, load, bind, lift.
  replace (resolve string id one_bucket _ written.2)
    with (Return (ok (E:=StoreError) {| root := Some "/bafyinv"; at_ := "bafymsg" |}), written.2)
    by (vm_compute; reflexivity).
  cbn [at_ root truthy_opt truthy default from_option id].
  replace (read one_bucket "bafymsg" written.2)
    with (Return (ok (E:=StoreError) car_bytes), written.2) by (vm_compute; reflexivity).
  by rewrite Hdecode, Hparse.
Qed.

(** C6 (the code departs from it). After a message that holds only the
    receipt of a task is written, the task's outgoing entry is stored and
    [resolve] finds it for a receipt query, yet [getReceipt] answers
    [RecordNotFound] for the incoming entry: it first loads the task as an
    invocation. *)
Theorem getReceipt_needs_incoming :
  let written := (write_ one_bucket response_only empty).2 in
  bucket_keys (objects written) "agent-store" "bafytask/" = ["bafytask/bafyrcpt@bafymsg.out"]
  ∧ resolve string id one_bucket {| q_invocation := None; q_receipt := Some "bafytask" |} written
    = (Return (ok {| root := Some "/bafyrcpt"; at_ := "bafymsg" |}), written)
  ∧ getReceipt_ one_bucket "bafytask" written
    = (Return (error (RecordNotFound
         (Some "any pseudo symlink from invocation bafytask/*.in was found"))), written).
Proof. vm_compute. done. Qed.

End AnyCodec.

End AgentStoreCases.

(** ** upload-api/stores/agent/store.js: the keys of a parsed message's index *)

Module AgentStoreViews.
Import S3 AgentStore.

(** What a field of an index record holds. In a parsed agent message the
    [task] and [message] fields are links, and the [invocation] and
    [receipt] fields are the invocation and the receipt themselves: views
    (ucanto) that have a link, [view.link()], and no string form of their
    own. *)
Inductive Value :=
| Link (cid : string)
| View (link : string).

(** What a template literal makes of a value: a link is spelled as its CID,
    an object without a [toString] of its own as [Object.prototype.toString]
    spells every such object. *)
Definition String_ (value : Value) : string :=
  match value with
  | Link cid => cid
  | View _ => "[object Object]"
  end.

Section Codec.

Variable CAR_response_encode : string → HTTPMessage.

(** A message, named by its root CID, that holds one invocation and the
    receipt of a task. *)
Definition exchange (source : HTTPMessage) (message task invocation_ receipt_ : string)
    : ParsedAgentMessage Value string :=
  {| source := source;
     data := message;
     index_ :=
       [ {| invocation := Some {| i_task := Link task; i_invocation := View invocation_;
                                  i_message := Link message |};
            receipt := Some {| r_task := Link task; r_receipt := View receipt_;
                               r_message := Link message |} |} ] |}.

(** C7 (the code departs from it). For a message that holds one invocation
    and one receipt of a task, [assert] yields the archive put under
    [{message}/{message}], with the source's bytes when the source is a CAR
    and the CAR encoding otherwise, and two pseudo-links whose keys are
    [{task}/[object Object]@{message}.in] and
    [{task}/[object Object]@{message}.out]: the key carries the string form
    of the view and not the view's link, so the commands are the same
    whatever the links of the invocation and of the receipt are. *)
Theorem assert_spells_views (store : Store) (source : HTTPMessage)
    (message task invocation_ receipt_ : string) :
  let bytes :=
    if decide (headers source !! "content-type" = Some "application/vnd.ipld.car")
    then body source
    else body (CAR_response_encode message) in
  assert Value String_ string CAR_response_encode Link store
    (exchange source message task invocation_ receipt_)
  = [ PutObjectCommand (name (AgentStore.message (buckets store)))
        (message +:+ "/" +:+ message) (Some bytes);
      PutObjectCommand (name (index (buckets store)))
        (task +:+ "/[object Object]@" +:+ message +:+ ".in") None;
      PutObjectCommand (name (index (buckets store)))
        (task +:+ "/[object Object]@" +:+ message +:+ ".out") None ]
  ∧ ∀ other_invocation other_receipt,
      assert Value String_ string CAR_response_encode Link store
        (exchange source message task other_invocation other_receipt)
      = assert Value String_ string CAR_response_encode Link store
          (exchange source message task invocation_ receipt_).
Proof. split; reflexivity. Qed.

End Codec.

End AgentStoreViews.

(** ** upload-api/stores/agent/store.js: what a write leaves in the store *)

Module AgentStoreWrites.
Import S3 AgentStore.

(** The object a put command stores: bucket, key and bytes (none is empty). *)
Definition stored {A} (command : Command A) : option (string * string * list byte) :=
  match command with
  | PutObjectCommand bucket key body => Some (bucket, key, default [] body)
  | _ => None
  end.

(** Objects put one after the other; a later one replaces an earlier one. *)
Definition put_all (objs : gmap (string * string) (list byte))
    (puts : list (string * string * list byte)) : gmap (string * string) (list byte) :=
  foldl (λ objs put, <[put.1 := put.2]> objs) objs puts.

Lemma put_all_union objs puts :
  put_all objs puts = list_to_map (reverse puts) ∪ objs.
Proof.
  revert objs. induction puts as [|[key bytes] puts IH]; intros objs.
  - cbn. by rewrite (left_id_L ∅ (∪)).
  - cbn [put_all foldl]. fold (put_all (<[(key, bytes).1 := (key, bytes).2]> objs) puts).
    rewrite IH, reverse_cons, list_to_map_app. cbn [list_to_map foldr fst snd].
    rewrite <- (assoc_L (∪)). f_equal.
    by rewrite insert_union_singleton_l.
Qed.

Lemma put_all_twice objs puts :
  put_all (put_all objs puts) puts = put_all objs puts.
Proof.
  rewrite !put_all_union. by rewrite (assoc_L (∪)), (idemp_L (∪)).
Qed.

Lemma put_all_other objs puts key :
  key ∉ puts.*1 → put_all objs puts !! key = objs !! key.
Proof.
  intros Hkey. rewrite put_all_union. apply lookup_union_r.
  apply not_elem_of_list_to_map. by rewrite fmap_reverse, elem_of_reverse.
Qed.

Lemma put_all_some objs puts key :
  key ∈ puts.*1 → ∃ bytes, (key, bytes) ∈ puts ∧ put_all objs puts !! key = Some bytes.
Proof.
  intros Hkey. rewrite put_all_union.
  destruct (list_to_map (M:=gmap _ _) (reverse puts) !! key) as [bytes|] eqn:H.
  - exists bytes. split.
    + apply elem_of_list_to_map_2 in H. by rewrite elem_of_reverse in H.
    + by apply lookup_union_Some_l.
  - apply not_elem_of_list_to_map in H. by rewrite fmap_reverse, elem_of_reverse in H.
Qed.

Lemma send_put {A} (command : Command A) objs put :
  stored command = Some put →
  ∃ a, send command {| objects := objs; outage := None |}
       = (Return a, {| objects := <[put.1 := put.2]> objs; outage := None |}).
Proof.
  destruct command as [bucket key body| |]; [|done..].
  intros [= <-]. by exists ().
Qed.

Lemma send_all_puts commands objs :
  Forall (λ command, is_Some (stored command)) commands →
  send_all commands {| objects := objs; outage := None |}
  = (Return (), {| objects := put_all objs (omap stored commands); outage := None |}).
Proof.
  revert objs. induction commands as [|command commands IH]; intros objs; [done|].
  intros [[put Hput] Hrest]%Forall_cons.
  cbn [send_all omap list_omap]. rewrite Hput.
  destruct (send_put command objs put Hput) as [a ->]. by rewrite IH.
Qed.

Lemma send_all_down commands objs e :
  send_all commands {| objects := objs; outage := Some e |}
  = (match commands with [] => Return () | _ => Throw e end,
     {| objects := objs; outage := Some e |}).
Proof.
  induction commands as [|command commands IH]; [done|].
  cbn [send_all]. unfold send at 1. cbn [outage]. by rewrite IH.
Qed.

(** *** A store that refuses some commands *)

(** [channel.send] over a store that refuses some commands: [refused] gives
    the error of a command the store rejects (its bucket is missing, the
    key is denied), and every other command runs as [send] has it. *)
Definition send_or_refuse (refused : ∀ A, Command A → option JSError) (A : Type)
    (command : Command A) : Async S3Client A := λ σ,
  match refused A command with
  | Some e => (Throw e, σ)
  | None => send command σ
  end.

Definition accepted (refused : ∀ A, Command A → option JSError)
    (command : Command unit) : bool :=
  match refused unit command with
  | Some _ => false
  | None => true
  end.

(** [Promise.all(commands.map(command => channel.send(command)))] over a
    channel: every command is issued, whatever becomes of the others. *)
Fixpoint send_all_on (channel : ∀ A, Command A → Async S3Client A)
    (commands : list (Command unit)) : Async S3Client unit :=
  match commands with
  | [] => ret ()
  | command :: commands => λ σ,
      match channel unit command σ with
      | (Return _, σ') => send_all_on channel commands σ'
      | (Throw e, σ') => (Throw e, (send_all_on channel commands σ').2)
      end
  end.

Lemma send_all_on_send commands σ :
  send_all_on (@send) commands σ = send_all commands σ.
Proof.
  revert σ. induction commands as [|command commands IH]; intros σ; [done|].
  cbn [send_all_on send_all]. destruct (send command σ) as [[a|e] σ']; by rewrite IH.
Qed.

Lemma send_all_on_refuse refused commands objs :
  Forall (λ command, is_Some (stored command)) commands →
  send_all_on (send_or_refuse refused) commands {| objects := objs; outage := None |}
  = (match omap (refused unit) commands with
     | [] => Return ()
     | e :: _ => Throw e
     end,
     {| objects := put_all objs (omap stored (filter (λ c, accepted refused c) commands));
        outage := None |}).
Proof.
  revert objs. induction commands as [|command commands IH]; intros objs; [done|].
  intros [[put Hput] Hrest]%Forall_cons.
  cbn [send_all_on omap list_omap]. unfold send_or_refuse at 1.
  destruct (refused unit command) as [e|] eqn:Hrefused.
  - rewrite IH by done. cbn [snd].
    rewrite filter_cons_False; [done|].
    unfold accepted. rewrite Hrefused. by intros [].
  - destruct (send_put command objs put Hput) as [a ->]. rewrite IH by done.
    rewrite filter_cons_True by (unfold accepted; by rewrite Hrefused).
    cbn [omap list_omap]. by rewrite Hput.
Qed.

Section Ucanto.

Variable Link : Type.
Variable toString : Link → string.
Variable AgentMessage : Type.
Variable CAR_response_encode : AgentMessage → HTTPMessage.
Variable root_cid : AgentMessage → Link.

Abbreviation assert_ := (assert Link toString AgentMessage CAR_response_encode root_cid).
Abbreviation write_ := (write Link toString AgentMessage CAR_response_encode root_cid).

(** The keys [assert] spells out. *)
Definition incoming_key (i : InvocationSource Link) : string :=
  toString (i_task _ i) +:+ "/" +:+ toString (i_invocation _ i) +:+ "@"
    +:+ toString (i_message _ i) +:+ ".in".
Definition outgoing_key (r : ReceiptSource Link) : string :=
  toString (r_task _ r) +:+ "/" +:+ toString (r_receipt _ r) +:+ "@"
    +:+ toString (r_message _ r) +:+ ".out".
Definition archive_key (parsed : ParsedAgentMessage Link AgentMessage) : string :=
  let id := toString (root_cid (data _ _ parsed)) in id +:+ "/" +:+ id.
Definition archive_bytes (parsed : ParsedAgentMessage Link AgentMessage) : list byte :=
  if decide (headers (source _ _ parsed) !! "content-type" = Some "application/vnd.ipld.car")
  then body (source _ _ parsed)
  else body (CAR_response_encode (data _ _ parsed)).


Definition written_keys (store : Store) (parsed : ParsedAgentMessage Link AgentMessage)
    : list (string * string) :=
  (name (message (buckets store)), archive_key parsed)
  :: ((λ i, (name (index (buckets store)), incoming_key i)) <$> invocations _ _ parsed)
  ++ ((λ r, (name (index (buckets store)), outgoing_key r)) <$> receipts _ _ parsed).

Definition index_puts (store : Store) (parsed : ParsedAgentMessage Link AgentMessage)
    : list (string * string * list byte) :=
  omap stored (assert_index Link toString (buckets store) (index_ _ _ parsed)).

Lemma assert_index_stored buckets entries :
  Forall (λ command, is_Some (stored command)) (assert_index Link toString buckets entries).
Proof.
  induction entries as [|entry entries IH]; cbn; [constructor|].
  apply Forall_app. split; [|done]. unfold assert_entry.
  destruct (invocation _ entry), (receipt _ entry); repeat constructor; eauto.
Qed.

Lemma index_puts_elem store parsed put :
  put ∈ index_puts store parsed ↔
    (∃ i, i ∈ invocations _ _ parsed
          ∧ put = (name (index (buckets store)), incoming_key i, []))
    ∨ (∃ r, r ∈ receipts _ _ parsed
            ∧ put = (name (index (buckets store)), outgoing_key r, [])).
Proof.
  unfold index_puts, invocations, receipts.
  rewrite (assert_index_links Link toString store (index_ _ _ parsed)).
  rewrite omap_app, elem_of_app, !list_elem_of_omap.
  split.
  - intros [(c & (i & -> & Hi)%list_elem_of_fmap & [= <-])
           |(c & (r & -> & Hr)%list_elem_of_fmap & [= <-])]; [left|right]; eauto.
  - intros [(i & Hi & ->)|(r & Hr & ->)]; [left|right].
    + exists (incoming_link Link toString store i). split; [|done].
      apply list_elem_of_fmap. eauto.
    + exists (outgoing_link Link toString store r). split; [|done].
      apply list_elem_of_fmap. eauto.
Qed.

Lemma index_puts_keys store parsed key :
  key ∈ (index_puts store parsed).*1 ↔
    key ∈ ((λ i, (name (index (buckets store)), incoming_key i)) <$> invocations _ _ parsed)
          ++ ((λ r, (name (index (buckets store)), outgoing_key r)) <$> receipts _ _ parsed).
Proof.
  rewrite elem_of_app, !list_elem_of_fmap. split.
  - intros (put & -> & [(i & Hi & ->)|(r & Hr & ->)]%index_puts_elem); eauto.
  - intros [(i & -> & Hi)|(r & -> & Hr)].
    + exists (name (index (buckets store)), incoming_key i, []). split; [done|].
      apply index_puts_elem. eauto.
    + exists (name (index (buckets store)), outgoing_key r, []). split; [done|].
      apply index_puts_elem. eauto.
Qed.

Lemma write_up store parsed objs :
  write_ store parsed {| objects := objs; outage := None |}
  = (Return (ok ()),
     {| objects :=
          put_all (<[(name (message (buckets store)), archive_key parsed)
                       := archive_bytes parsed]> objs)
            (index_puts store parsed);
        outage := None |}).
Proof.
  unfold write, try_catch, bind. rewrite send_all_puts; [done|].
  unfold assert. constructor; [by eexists|apply assert_index_stored].
Qed.

(** Every pseudo-link of the message is an empty object after the write. *)
Lemma write_link store parsed archived key :
  key ∈ (index_puts store parsed).*1 →
  put_all archived (index_puts store parsed) !! key = Some [].
Proof.
  intros (bytes & Hput & ->)%(put_all_some archived).
  apply index_puts_elem in Hput as [(i & _ & [= _ ->])|(r & _ & [= _ ->])]; done.
Qed.

(** X1. On a store that is up, [write] answers ok and leaves the archive
    under [{id}/{id}] in the message bucket and an empty object under every
    invocation's [.in] key and every receipt's [.out] key in the index
    bucket; the archive holds the message's bytes when the two buckets
    differ, and no object under any other key is touched. *)
Theorem write_stores (store : Store) (parsed : ParsedAgentMessage Link AgentMessage)
    (objs : gmap (string * string) (list byte)) :
  let written := write_ store parsed {| objects := objs; outage := None |} in
  let index_bucket := name (index (buckets store)) in
  let message_bucket := name (message (buckets store)) in
  written.1 = Return (ok ())
  ∧ outage written.2 = None
  ∧ is_Some (objects written.2 !! (message_bucket, archive_key parsed))
  ∧ (index_bucket ≠ message_bucket →
     objects written.2 !! (message_bucket, archive_key parsed) = Some (archive_bytes parsed))
  ∧ (∀ i, i ∈ invocations _ _ parsed →
     objects written.2 !! (index_bucket, incoming_key i) = Some [])
  ∧ (∀ r, r ∈ receipts _ _ parsed →
     objects written.2 !! (index_bucket, outgoing_key r) = Some [])
  ∧ (∀ key, key ∉ written_keys store parsed → objects written.2 !! key = objs !! key).
Proof.
  intros written index_bucket message_bucket. subst written. rewrite write_up.
  cbn [fst snd objects outage].
  set (archived := <[(message_bucket, archive_key parsed) := archive_bytes parsed]> objs).
  pose proof (write_link store parsed archived) as Hlink.
  split; [done|]. split; [done|]. split; [|split; [|split; [|split]]].
  - destruct (decide ((message_bucket, archive_key parsed) ∈ (index_puts store parsed).*1))
      as [Hin|Hout].
    + rewrite Hlink by done. by eexists.
    + rewrite put_all_other by done. unfold archived. rewrite lookup_insert_eq. by eexists.
  - intros Hbuckets. rewrite put_all_other.
    + unfold archived. by rewrite lookup_insert_eq.
    + intros (put & Hkey & [(i & _ & ->)|(r & _ & ->)]%index_puts_elem)%list_elem_of_fmap;
        cbn in Hkey; injection Hkey as Hbucket _; by apply Hbuckets.
  - intros i Hi. apply Hlink, index_puts_keys, elem_of_app. left.
    apply list_elem_of_fmap. eauto.
  - intros r Hr. apply Hlink, index_puts_keys, elem_of_app. right.
    apply list_elem_of_fmap. eauto.
  - intros key [Harchive Hlinks]%not_elem_of_cons.
    rewrite put_all_other by (by rewrite index_puts_keys).
    unfold archived. by rewrite lookup_insert_ne.
Qed.

(** [write] over a channel: [store.channel] is the client the commands are
    sent through. *)
Definition write_on (channel : ∀ A, Command A → Async S3Client A) (store : Store)
    (parsed : ParsedAgentMessage Link AgentMessage)
    : Async S3Client (Result unit JSError) :=
  let commands := assert_ store parsed in
  try_catch
    (let* _ := send_all_on channel commands in ret (ok ()))
    (λ cause, ret (error cause)).

Lemma write_on_send store parsed σ :
  write_on (@send) store parsed σ = write_ store parsed σ.
Proof. unfold write_on, write, try_catch, bind. by rewrite send_all_on_send. Qed.

(** X2. [write] does not throw. Over a store that refuses some of the puts
    it answers with the error of one of them as its [error], and ok when
    none is refused; every put that is not refused is stored all the same,
    so the archive is stored, when its put is accepted, also by a write
    that answers an error. When the store fails every command, the answer
    is that failure and nothing is stored. *)
Theorem write_reports_failure (store : Store)
    (parsed : ParsedAgentMessage Link AgentMessage)
    (objs : gmap (string * string) (list byte))
    (refused : ∀ A, Command A → option JSError) :
  let commands := assert_ store parsed in
  let result :=
    write_on (send_or_refuse refused) store parsed {| objects := objs; outage := None |} in
  let index_bucket := name (index (buckets store)) in
  let message_bucket := name (message (buckets store)) in
  match omap (refused unit) commands with
  | [] => result.1 = Return (ok ())
  | errors => ∃ e, e ∈ errors ∧ result.1 = Return (error e)
  end
  ∧ objects result.2
    = put_all objs (omap stored (filter (λ c, accepted refused c) commands))
  ∧ (refused unit (archive_put _ toString _ root_cid store parsed (archive_bytes parsed))
     = None →
     index_bucket ≠ message_bucket →
     objects result.2 !! (message_bucket, archive_key parsed) = Some (archive_bytes parsed))
  ∧ (∀ σ, write_on (@send) store parsed σ = write_ store parsed σ)
  ∧ (∀ e, write_ store parsed {| objects := objs; outage := Some e |}
          = (Return (error e), {| objects := objs; outage := Some e |})).
Proof.
  intros commands result index_bucket message_bucket.
  assert (Hstored : Forall (λ command, is_Some (stored command)) commands).
  { subst commands. unfold assert. constructor; [by eexists|apply assert_index_stored]. }
  assert (Hresult : result
    = (match omap (refused unit) commands with
       | [] => Return (ok ())
       | e :: _ => Return (error e)
       end,
       {| objects := put_all objs (omap stored (filter (λ c, accepted refused c) commands));
          outage := None |})).
  { subst result. unfold write_on, try_catch, bind. fold commands.
    rewrite send_all_on_refuse by done. by destruct (omap (refused unit) commands). }
  rewrite Hresult. cbn [fst snd objects]. split; [|split; [done|split; [|split]]].
  - destruct (omap (refused unit) commands) as [|e errors]; [done|].
    exists e. split; [left|done].
  - intros Harchive Hbuckets. subst commands. unfold assert.
    change (PutObjectCommand _ _ _)
      with (archive_put _ toString _ root_cid store parsed (archive_bytes parsed)).
    rewrite filter_cons_True by (unfold accepted; by rewrite Harchive).
    cbn [omap list_omap stored archive_put default from_option put_all foldl fst snd].
    fold (archive_key parsed).
    fold (put_all (<[(message_bucket, archive_key parsed) := archive_bytes parsed]> objs)
            (omap stored (filter (λ c, accepted refused c)
                            (assert_index Link toString (buckets store) (index_ _ _ parsed))))).
    rewrite put_all_other; [by rewrite lookup_insert_eq|].
    intros (put & Hkey & (c & [_ Hc]%list_elem_of_filter & Hput)%list_elem_of_omap)%list_elem_of_fmap.
    assert (Hin : put ∈ index_puts store parsed)
      by (apply list_elem_of_omap; eauto).
    apply index_puts_elem in Hin as [(i & _ & ->)|(r & _ & ->)];
      cbn in Hkey; injection Hkey as Hbucket _; by apply Hbuckets.
  - apply write_on_send.
  - intros e. unfold write, try_catch, bind. by rewrite send_all_down.
Qed.

(** X3. Writing a message a second time changes nothing: the second [write]
    answers ok and leaves the store exactly as the first one left it. *)
Theorem write_twice (store : Store) (parsed : ParsedAgentMessage Link AgentMessage)
    (objs : gmap (string * string) (list byte)) :
  let once := (write_ store parsed {| objects := objs; outage := None |}).2 in
  write_ store parsed once = (Return (ok ()), once).
Proof.
  intros once. subst once. rewrite write_up. cbn [snd]. rewrite write_up.
  f_equal. f_equal.
  set (key := (name (message (buckets store)), archive_key parsed)).
  assert (Hcons : ∀ m, put_all (<[key := archive_bytes parsed]> m) (index_puts store parsed)
    = put_all m ((key, archive_bytes parsed) :: index_puts store parsed)) by done.
  rewrite !Hcons. apply put_all_twice.
Qed.

End Ucanto.

End AgentStoreWrites.

(** ** More facts about the JavaScript string functions *)

Module JSStrings.
Import JSFacts.

Lemma substring_append_r a b n :
  substring (String.length a) n (a +:+ b) = substring 0 n b.
Proof. induction a as [|x a IH]; [done|]. rewrite append_cons. exact IH. Qed.

Lemma substring_append_l a b : substring 0 (String.length a) (a +:+ b) = a.
Proof.
  induction a as [|x a IH]; [by destruct b|].
  rewrite append_cons. cbn [String.length substring]. by rewrite IH.
Qed.

(** [(a + b + c).slice(a.length, a.length + b.length)] is [b]. *)
Lemma slice_middle a b c :
  slice (a +:+ b +:+ c) (Z.of_nat (String.length a))
    (Z.of_nat (String.length a) + Z.of_nat (String.length b)) = b.
Proof.
  unfold slice. rewrite !length_append.
  replace (Z.of_nat (String.length a) <? 0) with false by (symmetry; apply Z.ltb_ge; lia).
  replace (Z.of_nat (String.length a) + Z.of_nat (String.length b) <? 0) with false
    by (symmetry; apply Z.ltb_ge; lia).
  cbv zeta.
  replace (Z.to_nat (Z.of_nat (String.length a) `min` _)) with (String.length a) by lia.
  replace (Z.to_nat _) with (String.length b) by lia.
  by rewrite substring_append_r, substring_append_l.
Qed.

Lemma indexOf_first a c rest :
  includes a c = false →
  indexOf (a +:+ String c rest) c = Z.of_nat (String.length a).
Proof.
  intros Ha. unfold indexOf. rewrite indexOf_from_app_r by done.
  cbn [indexOf_from]. by rewrite Ascii.eqb_refl.
Qed.

Lemma startsWith_append p r : startsWith (p +:+ r) p = true.
Proof.
  unfold startsWith. induction p as [|x p IH]; [by destruct r|].
  rewrite append_cons. cbn. by destruct (ascii_dec x x).
Qed.

Lemma endsWith_append a suf : endsWith (a +:+ suf) suf = true.
Proof.
  unfold endsWith. rewrite length_append.
  replace (_ <=? _)%nat with true by (symmetry; apply Nat.leb_le; lia).
  replace (_ + _ - _)%nat with (String.length a) by lia.
  rewrite substring_append_r.
  replace suf with (suf +:+ "") at 2 by (induction suf as [|x s IH]; [done|];
    by rewrite append_cons, IH).
  rewrite substring_append_l. apply String.eqb_refl.
Qed.

End JSStrings.

(** ** upload-api/stores/agent/store.js: what the lookups answer *)

Module AgentStoreLookups.
Import S3 AgentStore JSFacts JSStrings.

Global Instance string_le_antisymm : AntiSymm (=) string_le.
Proof.
  intros a b Hab Hba. unfold string_le in *.
  destruct (String_as_OT.compare_spec a b) as [->|Hlt|Hgt]; [done| |done].
  destruct (String_as_OT.compare_spec b a) as [->|Hlt'|Hgt']; [done| |done].
  exfalso. apply (irreflexivity String_as_OT.lt a). etransitivity; eassumption.
Qed.

Lemma bucket_keys_elem objs bucket prefix key :
  key ∈ bucket_keys objs bucket prefix ↔
  is_Some (objs !! (bucket, key)) ∧ startsWith key prefix = true.
Proof.
  unfold bucket_keys. rewrite merge_sort_Permutation, list_elem_of_filter, list_elem_of_omap.
  split.
  - intros [Hp ([[b k] v] & Hin%elem_of_map_to_list & Hk)]. cbn in Hk.
    case_decide; [|done]. simplify_eq. split; [eauto|by apply Is_true_true].
  - intros [[v Hv] Hp]. split; [by apply Is_true_true|].
    exists (bucket, key, v). split; [by apply elem_of_map_to_list|].
    cbn. by rewrite decide_True.
Qed.

Lemma bucket_keys_NoDup objs bucket prefix : NoDup (bucket_keys objs bucket prefix).
Proof.
  unfold bucket_keys. rewrite merge_sort_Permutation. apply NoDup_filter.
  pose proof (NoDup_fst_map_to_list objs) as H.
  induction (map_to_list objs) as [|[[b k] v] l IH]; cbn; [constructor|].
  cbn in H. apply NoDup_cons in H as [Hhd Htl]. case_decide; cbn; [|auto].
  apply NoDup_cons. split; [|auto].
  intros ([[b' k'] v'] & Hin & Hk)%list_elem_of_omap. cbn in Hk.
  case_decide; [|done]. simplify_eq. apply Hhd.
  apply list_elem_of_fmap. by eexists (_, _, v').
Qed.

(** A listing depends on which keys of the bucket lie under the prefix, and
    on nothing else. *)
Lemma bucket_keys_ext objs1 objs2 bucket prefix :
  (∀ key, startsWith key prefix = true →
          is_Some (objs1 !! (bucket, key)) ↔ is_Some (objs2 !! (bucket, key))) →
  bucket_keys objs1 bucket prefix = bucket_keys objs2 bucket prefix.
Proof.
  intros H. apply (Sorted_unique string_le).
  - apply Sorted_merge_sort; apply _.
  - apply Sorted_merge_sort; apply _.
  - apply NoDup_Permutation; [apply bucket_keys_NoDup..|].
    intros key. rewrite !bucket_keys_elem.
    split; intros [Hkey Hpre]; (split; [by apply (H key Hpre)|done]).
Qed.

(** X4. A key of the current scheme, [{task}/{id}@{message}.{ext}], whose
    task has none of "/", "@" and ".", whose id has no "@" or ".", and whose
    message has no ".", is read back by [toIndexEntry] as the message to
    look [at], with the id after a "/" as [root]. *)
Theorem toIndexEntry_current (task id_ msg ext : string) :
  includes task "/" = false → includes task "@" = false → includes task "." = false →
  includes id_ "@" = false → includes id_ "." = false →
  includes msg "." = false →
  toIndexEntry (task +:+ "/" +:+ id_ +:+ "@" +:+ msg +:+ "." +:+ ext)
  = {| root := Some ("/" +:+ id_); at_ := msg |}.
Proof.
  intros Htask_s Htask_a Htask_d Hid_a Hid_d Hmsg_d.
  set (path := task +:+ "/" +:+ id_ +:+ "@" +:+ msg +:+ "." +:+ ext).
  set (n := Z.of_nat (String.length task)).
  set (m := Z.of_nat (String.length id_)).
  assert (Hstart : indexOf path "/" = n) by (by apply indexOf_first).
  assert (Hoffset : indexOf path "@" = n + (1 + m)).
  { replace path with ((task +:+ "/" +:+ id_) +:+ String "@" (msg +:+ "." +:+ ext))
      by (by rewrite !append_assoc).
    rewrite indexOf_first.
    - rewrite length_append. cbn [String.length]. change ("/" +:+ id_) with (String "/" id_).
      cbn [String.length]. lia.
    - rewrite includes_app, Htask_a. change ("/" +:+ id_) with (String "/" id_).
      cbn [includes]. by rewrite Hid_a. }
  assert (Hdot : indexOf path "." = n + (1 + m) + 1 + Z.of_nat (String.length msg)).
  { replace path with ((task +:+ "/" +:+ id_ +:+ "@" +:+ msg) +:+ String "." ext)
      by (by rewrite !append_assoc).
    rewrite indexOf_first.
    - rewrite length_append. change ("/" +:+ id_ +:+ "@" +:+ msg)
        with (String "/" (id_ +:+ String "@" msg)).
      cbn [String.length]. rewrite length_append. cbn [String.length]. lia.
    - rewrite includes_app, Htask_d.
      change ("/" +:+ id_ +:+ "@" +:+ msg) with (String "/" (id_ +:+ String "@" msg)).
      cbn [includes]. rewrite includes_app, Hid_d. cbn [includes]. by rewrite Hmsg_d. }
  unfold toIndexEntry. fold path. rewrite Hstart, Hoffset, Hdot.
  replace (0 <? n + (1 + m)) with true by (symmetry; apply Z.ltb_lt; lia).
  f_equal.
  - f_equal. replace path with (task +:+ ("/" +:+ id_) +:+ "@" +:+ msg +:+ "." +:+ ext)
      by (by rewrite !append_assoc).
    replace (1 + m) with (Z.of_nat (String.length ("/" +:+ id_)))
      by (change ("/" +:+ id_) with (String "/" id_); cbn [String.length]; lia).
    apply slice_middle.
  - replace path with ((task +:+ "/" +:+ id_ +:+ "@") +:+ msg +:+ "." +:+ ext)
      by (by rewrite !append_assoc).
    replace (n + (1 + m) + 1) with (Z.of_nat (String.length (task +:+ "/" +:+ id_ +:+ "@"))).
    + apply slice_middle.
    + rewrite length_append. change ("/" +:+ id_ +:+ "@") with (String "/" (id_ +:+ "@")).
      cbn [String.length]. rewrite length_append. cbn [String.length]. lia.
Qed.

(** X5. A legacy key, [{id}/{message}.{ext}], with no "@" anywhere, no "/"
    or "." in the id and no "." in the message, is read back by
    [toIndexEntry] as the message to look [at], without a [root]. *)
Theorem toIndexEntry_legacy (id_ msg ext : string) :
  includes id_ "/" = false → includes id_ "@" = false → includes id_ "." = false →
  includes msg "@" = false → includes msg "." = false →
  includes ext "@" = false →
  toIndexEntry (id_ +:+ "/" +:+ msg +:+ "." +:+ ext) = {| root := None; at_ := msg |}.
Proof.
  intros Hid_s Hid_a Hid_d Hmsg_a Hmsg_d Hext_a.
  set (path := id_ +:+ "/" +:+ msg +:+ "." +:+ ext).
  set (n := Z.of_nat (String.length id_)).
  assert (Hstart : indexOf path "/" = n) by (by apply indexOf_first).
  assert (Hoffset : indexOf path "@" = -1).
  { pose proof (indexOf_from_spec "@" path 0) as H.
    replace (includes path "@") with false in H; [done|].
    unfold path. rewrite includes_app, Hid_a.
    change ("/" +:+ msg +:+ "." +:+ ext) with (String "/" (msg +:+ String "." ext)).
    cbn [includes]. rewrite includes_app, Hmsg_a. cbn [includes]. by rewrite Hext_a. }
  assert (Hdot : indexOf path "." = n + 1 + Z.of_nat (String.length msg)).
  { replace path with ((id_ +:+ "/" +:+ msg) +:+ String "." ext)
      by (by rewrite !append_assoc).
    rewrite indexOf_first.
    - rewrite length_append. change ("/" +:+ msg) with (String "/" msg).
      cbn [String.length]. lia.
    - rewrite includes_app, Hid_d. change ("/" +:+ msg) with (String "/" msg).
      cbn [includes]. by rewrite Hmsg_d. }
  unfold toIndexEntry. fold path. rewrite Hstart, Hoffset, Hdot.
  cbn [Z.ltb Z.compare]. f_equal.
  replace path with ((id_ +:+ "/") +:+ msg +:+ "." +:+ ext) by (by rewrite !append_assoc).
  replace (n + 1) with (Z.of_nat (String.length (id_ +:+ "/"))).
  - apply slice_middle.
  - rewrite length_append. cbn [String.length]. lia.
Qed.

Section Ucanto.

Variable Link : Type.
Variable toString : Link → string.
Variable parseLink : string → Completion Link.
Variable Archive : Type.
Variable CAR_codec_decode : list byte → Completion Archive.
Variables InvocationView ReceiptView AgentMessage AgentMessageView : Type.
Variable Invocation_view : Link → Archive → option InvocationView.
Variable Receipt_view : Link → Archive → option ReceiptView.
Variable CAR_request_decode : list byte → Completion AgentMessageView.
Variable receipts_get : AgentMessageView → string → option ReceiptView.
Variable CAR_response_encode : AgentMessage → HTTPMessage.
Variable root_cid : AgentMessage → Link.

Abbreviation write_ := (write Link toString AgentMessage CAR_response_encode root_cid).
Abbreviation resolve_ := (resolve Link toString).
Abbreviation getInvocation_ :=
  (getInvocation Link toString parseLink Archive CAR_codec_decode InvocationView
     Invocation_view).
Abbreviation getReceipt_ :=
  (getReceipt Link toString parseLink Archive CAR_codec_decode ReceiptView
     AgentMessageView Receipt_view CAR_request_decode receipts_get).

Lemma resolve_list store query :
  resolve_ store query =
    (let* entries := list_ store (query_task _ toString query +:+ "/")
                       (query_suffix _ query) in
     match entries with
     | error e => ret (error e)
     | ok [] => throw TypeError
     | ok (first :: rest) =>
         let head := toIndexEntry first in
         if truthy_opt (root head) then ret (ok head)
         else ret (ok (resolve_rest head rest))
     end).
Proof.
  unfold resolve, query_task, query_suffix.
  destruct (q_invocation query), (q_receipt query); done.
Qed.



Lemma resolve_none store query objs :
  (∀ key, is_Some (objs !! (name (index (buckets store)), key)) →
          startsWith key (query_task _ toString query +:+ "/") = true →
          endsWith key (query_suffix _ query) = false) →
  resolve_ store query {| objects := objs; outage := None |}
  = (Return (error (RecordNotFound
       (Some (not_found_message (query_task _ toString query +:+ "/")
                (query_suffix _ query))))),
     {| objects := objs; outage := None |}).
Proof.
  intros Hnone. rewrite resolve_list. unfold bind. rewrite list_up by done. cbn [objects].
  destruct (filter _ _) as [|key keys] eqn:Hkeys; [done|].
  assert (Hkey : key ∈ key :: keys) by left. rewrite <- Hkeys in Hkey.
  apply list_elem_of_filter in Hkey as [Hsuf [Hin Hpre]%subseteq_take%bucket_keys_elem].
  rewrite (Hnone key Hin Hpre) in Hsuf. done.
Qed.


(** X7. When the index bucket holds no key under [{task}/] that ends in
    [.in], both [getInvocation] and [getReceipt] of the task answer
    [RecordNotFound], and the store is left as it was. *)
Theorem lookups_need_incoming (store : Store) (task : Link)
    (objs : gmap (string * string) (list byte)) :
  (∀ key, is_Some (objs !! (name (index (buckets store)), key)) →
          startsWith key (toString task +:+ "/") = true →
          endsWith key ".in" = false) →
  let σ := {| objects := objs; outage := None |} in
  let missing :=
    RecordNotFound
      (Some ("any pseudo symlink from invocation " +:+ (toString task +:+ "/")
               +:+ "*" +:+ ".in" +:+ " was found")) in
  getInvocation_ store task σ = (Return (error missing), σ)
  ∧ getReceipt_ store task σ = (Return (error missing), σ).
Proof.
  intros Hnone σ missing. subst σ.
  unfold getInvocation, getReceipt, load, bind.
  by rewrite (resolve_none store {| q_invocation := Some task; q_receipt := None |}).
Qed.

(** X8. Which entry [resolve] picks depends only on which keys the index
    bucket holds under the task's prefix: not on any object's bytes, on
    other buckets, or on keys elsewhere in the bucket. *)
Theorem resolve_reads_index_keys (store : Store) (query : AgentMessageQuery Link)
    (objs1 objs2 : gmap (string * string) (list byte)) :
  (∀ key, startsWith key (query_task _ toString query +:+ "/") = true →
          is_Some (objs1 !! (name (index (buckets store)), key))
          ↔ is_Some (objs2 !! (name (index (buckets store)), key))) →
  (resolve_ store query {| objects := objs1; outage := None |}).1
  = (resolve_ store query {| objects := objs2; outage := None |}).1.
Proof.
  intros Hkeys. rewrite resolve_list. unfold bind. rewrite !list_up by done.
  cbn [objects]. rewrite (bucket_keys_ext objs1 objs2) by done.
  destruct (filter _ _) as [|first rest]; [done|].
  by destruct (truthy_opt (root (toIndexEntry first))).
Qed.

(** With a key of the current scheme among at most 1000 keys of the task,
    [resolve] answers an entry that has a root. *)
Lemma resolve_finds store query objs key :
  includes (query_task _ toString query) "@" = false →
  is_Some (objs !! (name (index (buckets store)), key)) →
  startsWith key (query_task _ toString query +:+ "/") = true →
  endsWith key (query_suffix _ query) = true →
  current_scheme key = true →
  (length (bucket_keys objs (name (index (buckets store)))
             (query_task _ toString query +:+ "/")) ≤ MaxKeys)%nat →
  ∃ entry,
    resolve_ store query {| objects := objs; outage := None |}
    = (Return (ok entry), {| objects := objs; outage := None |})
    ∧ truthy_opt (root entry) = true.
Proof.
  intros Htask Hin Hpre Hsuf Hcur Hmax.
  rewrite resolve_list. unfold bind. rewrite list_up by done. cbn [objects].
  rewrite take_ge by done.
  set (entries := filter _ _).
  assert (Hkey : key ∈ entries).
  { apply list_elem_of_filter. split; [by apply Is_true_true|]. by apply bucket_keys_elem. }
  assert (Hall : Forall (λ path, startsWith path (query_task _ toString query +:+ "/") = true)
                   entries).
  { apply Forall_forall. intros path [_ Hpath]%list_elem_of_filter.
    revert path Hpath. apply Forall_forall, bucket_keys_prefix. }
  destruct entries as [|first rest]; [by apply elem_of_nil in Hkey|].
  apply Forall_cons in Hall as [Hfirst Hrest]. cbn zeta.
  rewrite (has_root_current_scheme (query_task _ toString query)) by done.
  destruct (current_scheme first) eqn:Hscheme.
  - eexists. split; [done|].
    by rewrite (has_root_current_scheme (query_task _ toString query)).
  - apply elem_of_cons in Hkey as [->|Hkey]; [congruence|].
    rewrite (resolve_rest_find (query_task _ toString query)) by done.
    destruct (List.find current_scheme rest) as [path|] eqn:Hfind.
    + apply find_some in Hfind as [Hpath%list_elem_of_In Hpath_scheme].
      eexists. split; [done|]. cbn [from_option].
      rewrite (has_root_current_scheme (query_task _ toString query)); [done..|].
      by apply (proj1 (Forall_forall _ _) Hrest).
    + apply list_elem_of_In in Hkey. apply (find_none _ _ Hfind) in Hkey. congruence.
Qed.

(** X9. After a message is written, [resolve] of the task of any of its
    invocations (a task whose identifier has no "@", with at most 1000 index
    keys) finds an incoming entry that carries a root. *)
Theorem resolve_written_invocation (store : Store)
    (parsed : ParsedAgentMessage Link AgentMessage)
    (objs : gmap (string * string) (list byte)) (i : InvocationSource Link) :
  i ∈ invocations _ _ parsed →
  includes (toString (i_task _ i)) "@" = false →
  let written := (write_ store parsed {| objects := objs; outage := None |}).2 in
  (length (bucket_keys (objects written) (name (index (buckets store)))
             (toString (i_task _ i) +:+ "/")) ≤ 1000)%nat →
  ∃ entry,
    resolve_ store {| q_invocation := Some (i_task _ i); q_receipt := None |} written
    = (Return (ok entry), written)
    ∧ truthy_opt (root entry) = true.
Proof.
  intros Hi Htask written Hmax. subst written. revert Hmax.
  rewrite AgentStoreWrites.write_up. cbn [snd objects]. intros Hmax.
  apply (resolve_finds store {| q_invocation := Some (i_task _ i); q_receipt := None |} _
           (AgentStoreWrites.incoming_key _ toString i)); try done.
  - rewrite AgentStoreWrites.write_link; [by eexists|].
    apply AgentStoreWrites.index_puts_keys, elem_of_app. left.
    apply list_elem_of_fmap. eauto.
  - unfold AgentStoreWrites.incoming_key. cbn [query_task q_invocation].
    rewrite <- append_assoc. apply startsWith_append.
  - unfold AgentStoreWrites.incoming_key. cbn [query_suffix q_invocation].
    rewrite <- !append_assoc. apply endsWith_append.
  - unfold current_scheme, AgentStoreWrites.incoming_key.
    rewrite !includes_app. cbn. by rewrite !orb_true_r.
Qed.

(** X10. After a message is written, [resolve] of the task of any of its
    receipts (a task whose identifier has no "@", with at most 1000 index
    keys) finds an outgoing entry that carries a root. *)
Theorem resolve_written_receipt (store : Store)
    (parsed : ParsedAgentMessage Link AgentMessage)
    (objs : gmap (string * string) (list byte)) (r : ReceiptSource Link) :
  r ∈ receipts _ _ parsed →
  includes (toString (r_task _ r)) "@" = false →
  let written := (write_ store parsed {| objects := objs; outage := None |}).2 in
  (length (bucket_keys (objects written) (name (index (buckets store)))
             (toString (r_task _ r) +:+ "/")) ≤ 1000)%nat →
  ∃ entry,
    resolve_ store {| q_invocation := None; q_receipt := Some (r_task _ r) |} written
    = (Return (ok entry), written)
    ∧ truthy_opt (root entry) = true.
Proof.
  intros Hr Htask written Hmax. subst written. revert Hmax.
  rewrite AgentStoreWrites.write_up. cbn [snd objects]. intros Hmax.
  apply (resolve_finds store {| q_invocation := None; q_receipt := Some (r_task _ r) |} _
           (AgentStoreWrites.outgoing_key _ toString r)); try done.
  - rewrite AgentStoreWrites.write_link; [by eexists|].
    apply AgentStoreWrites.index_puts_keys, elem_of_app. right.
    apply list_elem_of_fmap. eauto.
  - unfold AgentStoreWrites.outgoing_key. cbn [query_task q_invocation q_receipt].
    rewrite <- append_assoc. apply startsWith_append.
  - unfold AgentStoreWrites.outgoing_key. cbn [query_suffix q_invocation].
    rewrite <- !append_assoc. apply endsWith_append.
  - unfold current_scheme, AgentStoreWrites.outgoing_key.
    rewrite !includes_app. cbn. by rewrite !orb_true_r.
Qed.

End Ucanto.

End AgentStoreLookups.

Module AgentStoreLookupCases.
Import S3 AgentStore AgentStoreCases AgentStoreLookups.

(** Codecs that take every byte string for an archive and every string for a
    link, with views that are always there. *)
Definition parseLink (s : string) : Completion string := Return s.
Definition CAR_codec_decode (bytes : list byte) : Completion (list byte) := Return bytes.
Definition view (root : string) (archive : list byte) : option string := Some root.
Definition receipts_get (message : list byte) (task : string) : option string := None.
Definition CAR_response_encode (message : string) : HTTPMessage :=
  {| headers := ∅; body := [] |}.

Definition outgoing_only : gmap (string * string) (list byte) :=
  {[ ("agent-store", "bafytask/bafyrcpt@bafymsg.out") := [] ]}.
Definition incoming_only : gmap (string * string) (list byte) :=
  {[ ("agent-store", "bafytask/bafyinv@bafymsg.in") := [] ]}.
Definition incoming_and_more : gmap (string * string) (list byte) :=
  {[ ("agent-store", "bafytask/bafyinv@bafymsg.in") := car_bytes;
     ("workflow-store", "bafymsg/bafymsg") := car_bytes ]}.

Definition the_invocation : InvocationSource string :=
  {| i_task := "bafytask"; i_invocation := "bafyinv"; i_message := "bafymsg" |}.
Definition the_receipt : ReceiptSource string :=
  {| r_task := "bafytask"; r_receipt := "bafyrcpt"; r_message := "bafymsg" |}.

(** The index bucket is missing: the store refuses every command to it. *)
Definition NoSuchBucket : JSError :=
  mkError "NoSuchBucket" "The specified bucket does not exist" (Some 404).
Definition no_index_bucket (A : Type) (command : Command A) : option JSError :=
  let refuse bucket :=
    if decide (bucket = "invocation-store") then Some NoSuchBucket else None in
  match command with
  | PutObjectCommand bucket _ _ => refuse bucket
  | GetObjectCommand bucket _ => refuse bucket
  | ListObjectsV2Command bucket _ => refuse bucket
  end.

Lemma write_reports_failure_witness :
  let result :=
    AgentStoreWrites.write_on string id string CAR_response_encode id
      (AgentStoreWrites.send_or_refuse no_index_bucket) two_buckets request_and_response
      {| objects := ∅; outage := None |} in
  result.1 = Return (error NoSuchBucket)
  ∧ objects result.2 !! ("workflow-store", "bafymsg/bafymsg") = Some car_bytes.
Proof.
  destruct (AgentStoreWrites.write_reports_failure string id string CAR_response_encode id
              two_buckets request_and_response ∅ no_index_bucket)
    as (_ & _ & Harchive & _).
  split; [vm_compute; reflexivity|]. apply Harchive; [reflexivity|discriminate].
Defined.

Lemma lookups_need_incoming_witness :
  let σ := {| objects := outgoing_only; outage := None |} in
  let missing :=
    RecordNotFound (Some "any pseudo symlink from invocation bafytask/*.in was found") in
  getInvocation string id parseLink (list byte) CAR_codec_decode string view
    one_bucket "bafytask" σ = (Return (error missing), σ)
  ∧ getReceipt string id parseLink (list byte) CAR_codec_decode string (list byte)
      view CAR_codec_decode receipts_get one_bucket "bafytask" σ
    = (Return (error missing), σ).
Proof.
  apply (lookups_need_incoming string id parseLink (list byte) CAR_codec_decode
           string string (list byte) view view CAR_codec_decode receipts_get
           one_bucket "bafytask" outgoing_only).
  intros key [bytes Hkey] _. unfold outgoing_only in Hkey.
  apply lookup_singleton_Some in Hkey as [[= <-] _]. reflexivity.
Defined.

Lemma resolve_reads_index_keys_witness :
  (resolve string id one_bucket {| q_invocation := Some "bafytask"; q_receipt := None |}
     {| objects := incoming_only; outage := None |}).1
  = (resolve string id one_bucket {| q_invocation := Some "bafytask"; q_receipt := None |}
       {| objects := incoming_and_more; outage := None |}).1.
Proof.
  apply (resolve_reads_index_keys string id one_bucket
           {| q_invocation := Some "bafytask"; q_receipt := None |}
           incoming_only incoming_and_more).
  intros key _. unfold incoming_only, incoming_and_more.
  change (name (index (buckets one_bucket))) with "agent-store".
  destruct (decide (key = "bafytask/bafyinv@bafymsg.in")) as [->|Hkey].
  - rewrite lookup_singleton_eq, lookup_insert_eq. split; intros _; by eexists.
  - rewrite lookup_singleton_ne, lookup_insert_ne, lookup_singleton_ne by congruence.
    done.
Defined.

Lemma toIndexEntry_current_witness :
  toIndexEntry "bafytask/bafyinv@bafymsg.in" = {| root := Some "/bafyinv"; at_ := "bafymsg" |}.
Proof.
  apply (toIndexEntry_current "bafytask" "bafyinv" "bafymsg" "in"); reflexivity.
Defined.

Lemma toIndexEntry_legacy_witness :
  toIndexEntry "bafyinv/bafymsg.out" = {| root := None; at_ := "bafymsg" |}.
Proof.
  apply (toIndexEntry_legacy "bafyinv" "bafymsg" "out"); reflexivity.
Defined.

Lemma resolve_written_invocation_witness :
  let written :=
    (write string id string CAR_response_encode id one_bucket request_and_response
       {| objects := ∅; outage := None |}).2 in
  ∃ entry,
    resolve string id one_bucket {| q_invocation := Some "bafytask"; q_receipt := None |}
      written = (Return (ok entry), written)
    ∧ truthy_opt (root entry) = true.
Proof.
  apply (resolve_written_invocation string id string CAR_response_encode id one_bucket
           request_and_response ∅ the_invocation).
  - vm_compute. left.
  - reflexivity.
  - apply Nat.leb_le. vm_compute. reflexivity.
Defined.

Lemma resolve_written_receipt_witness :
  let written :=
    (write string id string CAR_response_encode id one_bucket request_and_response
       {| objects := ∅; outage := None |}).2 in
  ∃ entry,
    resolve string id one_bucket {| q_invocation := None; q_receipt := Some "bafytask" |}
      written = (Return (ok entry), written)
    ∧ truthy_opt (root entry) = true.
Proof.
  apply (resolve_written_receipt string id string CAR_response_encode id one_bucket
           request_and_response ∅ the_receipt).
  - vm_compute. left.
  - reflexivity.
  - apply Nat.leb_le. vm_compute. reflexivity.
Defined.

End AgentStoreLookupCases.

(** ** upload-api/buckets/workflow-store.js *)

Module WorkflowStore.
Import S3 JSFacts.

(** [pRetry(run)] (p-retry): [run] is tried again after it rejects, up to
    [retries] more times, and the last rejection is what [pRetry] rejects
    with. The waits between attempts are not modelled. *)
Fixpoint pRetry {Σ A} (retries : nat) (run : Async Σ A) : Async Σ A :=
  match retries with
  | O => run
  | S retries => try_catch run (λ _, pRetry retries run)
  end.

(** The number of retries when no option is given. *)
Definition default_retries : nat := 10.

(** Put Workflow file with UCAN invocations into bucket. *)
Definition put (bucketName : string) (cid : string) (bytes : list byte)
    : Async S3Client unit :=
  let putCmd := PutObjectCommand bucketName (cid +:+ "/" +:+ cid) (Some bytes) in
  let* _ := pRetry default_retries (send putCmd) in
  ret ().

(** Get CAR bytes for a given invocation. *)
Definition get (bucketName : string) (cid : string)
    : Async S3Client (option (list byte)) :=
  let getObjectCmd := GetObjectCommand bucketName (cid +:+ "/" +:+ cid) in
  let* s3Object := send getObjectCmd in
  match Body s3Object with
  | Some bytes => ret (Some bytes)
  | None => ret None
  end.

Lemma append_inj_length a b ra rb :
  String.length a = String.length b → a +:+ ra = b +:+ rb → a = b.
Proof.
  revert b. induction a as [|x a IH]; intros [|y b] Hlen H; try done.
  rewrite !append_cons in H. injection H as -> H. f_equal. apply IH; [|done].
  cbn in Hlen. lia.
Qed.

Lemma key_inj a b : a +:+ "/" +:+ a = b +:+ "/" +:+ b → a = b.
Proof.
  intros H. apply (append_inj_length a b ("/" +:+ a) ("/" +:+ b)); [|done].
  apply (f_equal String.length) in H. rewrite !length_append in H. cbn in H. lia.
Qed.

Lemma send_throw_state {A} (command : Command A) σ e σ' :
  send command σ = (Throw e, σ') → σ' = σ.
Proof.
  unfold send. destruct (outage σ); [by intros [= _ <-]|].
  destruct command as [bucket key body|bucket key|bucket prefix]; [done| |].
  - destruct (objects σ !! (bucket, key)); by intros [= _ <-].
  - by destruct (take MaxKeys _).
Qed.

Lemma pRetry_send {A} (command : Command A) retries σ :
  pRetry retries (send command) σ = send command σ.
Proof.
  induction retries as [|retries IH]; [done|]. cbn [pRetry]. unfold try_catch.
  destruct (send command σ) as [[a|e] σ'] eqn:Hsend; [done|].
  apply send_throw_state in Hsend as Hσ. subst σ'. by rewrite IH.
Qed.

(** X11. On a store that is up, [put] of a workflow and then [get] of its
    identifier answers the bytes that were put, and [get] of any other
    identifier answers what it did before. *)
Theorem put_then_get (bucketName cid : string) (bytes : list byte)
    (objs : gmap (string * string) (list byte)) :
  let σ := {| objects := objs; outage := None |} in
  let stored := put bucketName cid bytes σ in
  stored.1 = Return ()
  ∧ get bucketName cid stored.2 = (Return (Some bytes), stored.2)
  ∧ ∀ other, other ≠ cid → (get bucketName other stored.2).1 = (get bucketName other σ).1.
Proof.
  intros σ stored.
  assert (Hput : stored = (Return (),
    {| objects := <[(bucketName, cid +:+ "/" +:+ cid) := bytes]> objs; outage := None |})).
  { subst stored σ. unfold put, bind. by rewrite pRetry_send. }
  rewrite Hput. cbn [fst snd]. split; [done|]. split.
  - unfold get, bind, send. cbn [outage objects]. by rewrite lookup_insert_eq.
  - intros other Hother. unfold σ, get, bind, send. cbn [outage objects].
    rewrite lookup_insert_ne.
    + by destruct (objs !! (bucketName, other +:+ "/" +:+ other)).
    + intros [= H%key_inj]. by apply Hother.
Qed.

(** X12. [get] of an identifier the bucket has no object for does not
    answer [undefined]: it throws the store's NoSuchKey error; and when the
    store fails, [put] throws the store's error after its retries and
    nothing is stored. *)
Theorem get_missing_throws (bucketName cid : string)
    (objs : gmap (string * string) (list byte)) :
  objs !! (bucketName, cid +:+ "/" +:+ cid) = None →
  get bucketName cid {| objects := objs; outage := None |}
  = (Throw NoSuchKey, {| objects := objs; outage := None |})
  ∧ ∀ bytes e,
      put bucketName cid bytes {| objects := objs; outage := Some e |}
      = (Throw e, {| objects := objs; outage := Some e |}).
Proof.
  intros Hmissing. split.
  - unfold get, bind, send. cbn [outage objects]. by rewrite Hmissing.
  - intros bytes e. unfold put, bind. by rewrite pRetry_send.
Qed.

Section Ucanto.

Variable Link : Type.
Variable toString : Link → string.
Variable AgentMessage : Type.
Variable CAR_response_encode : AgentMessage → AgentStore.HTTPMessage.
Variable root_cid : AgentMessage → Link.

(** X13. With separate index and message buckets, the archive that the
    agent store's [write] stores is what the workflow store over the
    message bucket answers for the message's identifier. *)
Theorem written_archive_is_workflow (store : AgentStore.Store)
    (parsed : AgentStore.ParsedAgentMessage Link AgentMessage)
    (objs : gmap (string * string) (list byte)) :
  AgentStore.name (AgentStore.index (AgentStore.buckets store))
  ≠ AgentStore.name (AgentStore.message (AgentStore.buckets store)) →
  let written :=
    (AgentStore.write Link toString AgentMessage CAR_response_encode root_cid store parsed
       {| objects := objs; outage := None |}).2 in
  get (AgentStore.name (AgentStore.message (AgentStore.buckets store)))
    (toString (root_cid (AgentStore.data _ _ parsed))) written
  = (Return (Some (AgentStoreWrites.archive_bytes _ _ CAR_response_encode parsed)), written).
Proof.
  intros Hbuckets written. subst written. rewrite AgentStoreWrites.write_up. cbn [snd].
  unfold get, bind, send. cbn [outage objects].
  rewrite AgentStoreWrites.put_all_other.
  - fold (AgentStoreWrites.archive_key _ toString _ root_cid parsed).
    by rewrite lookup_insert_eq.
  - intros (put & Hkey & [(i & _ & ->)|(r & _ & ->)]%AgentStoreWrites.index_puts_elem)%list_elem_of_fmap;
      cbn in Hkey; injection Hkey as Hbucket _; by apply Hbuckets.
Qed.

End Ucanto.

End WorkflowStore.

Module WorkflowStoreCases.
Import S3 AgentStoreCases AgentStoreLookupCases WorkflowStore.

Lemma get_missing_throws_witness :
  get "workflow-store" "bafymsg" {| objects := ∅; outage := None |}
  = (Throw NoSuchKey, {| objects := ∅; outage := None |}).
Proof.
  destruct (get_missing_throws "workflow-store" "bafymsg" ∅) as [Hget _].
  - reflexivity.
  - exact Hget.
Defined.

Lemma written_archive_is_workflow_witness :
  let written :=
    (AgentStore.write string id string CAR_response_encode id two_buckets
       request_and_response {| objects := ∅; outage := None |}).2 in
  get "workflow-store" "bafymsg" written = (Return (Some car_bytes), written).
Proof.
  apply (written_archive_is_workflow string id string CAR_response_encode id two_buckets
           request_and_response ∅).
  discriminate.
Defined.

End WorkflowStoreCases.

(** ** roundabout: the redirect handler for GET /{cid} *)

Module Roundabout.

Record Headers := { Location : string }.
Record Response := {
  statusCode : Z;
  body : option string;
  headers : option Headers
}.

Record PathParameters := { cid : option string }.
Record Request (Query : Type) := {
  queryStringParameters : option Query;
  pathParameters : option PathParameters
}.
Arguments queryStringParameters {Query} _.
Arguments pathParameters {Query} _.

Record ParsedQuery := { expiresIn : option Z; bucketName : option string }.

Definition redirectTo (url : string) : Response :=
  {| statusCode := 302; body := None; headers := Some {| Location := url |} |}.

Section Handler.

(** What the handler imports: the CID parser, the query-string parser, the
    two piece-CID casts, the equivalence resolver (a set, given in its
    iteration order) and the content locator. The locator asks the bucket
    for a signed URL; [signedUrl] is what the bucket answers, and the state
    the handler runs over is the list of identifiers asked so far. *)
Variables CID Query Piece : Type.
Variable CID_parse : string → Completion CID.
Variable parseQueryStringParameters : option Query → Completion ParsedQuery.
Variable asPieceCidV2 asPieceCidV1 : CID → option Piece.
Variable findEquivalentCids : CID → list CID.
Variable signedUrl : option Z → CID → Completion (option string).

Definition contentLocationResolver (expiresIn : option Z) (cid : CID)
    : Async (list CID) (option string) :=
  λ asked, (signedUrl expiresIn cid, asked ++ [cid]).

(** Return response for a content CID *)
Definition resolveContent (cid : CID)
    (locateContent : CID → Async (list CID) (option string))
    : Async (list CID) Response :=
  let* url := locateContent cid in
  if truthy_opt url
  then ret (redirectTo (default "" url))
  else ret {| statusCode := 404; body := Some "Content Not found"; headers := None |}.

(** The loop of [resolvePiece] over the equivalent identifiers. *)
Fixpoint resolvePiece_loop (cids : list CID)
    (locateContent : CID → Async (list CID) (option string))
    : Async (list CID) Response :=
  match cids with
  | [] =>
      ret {| statusCode := 404; body := Some "No content found for Piece CID";
             headers := None |}
  | cid :: cids =>
      let* url := locateContent cid in
      if truthy_opt url
      then ret (redirectTo (default "" url))
      else resolvePiece_loop cids locateContent
  end.

(** Return response for a Piece CID, or undefined for other CID types *)
Definition resolvePiece (cid : CID)
    (locateContent : CID → Async (list CID) (option string))
    : Async (list CID) Response :=
  let cids := findEquivalentCids cid in
  if decide (length cids = 0%nat)
  then ret {| statusCode := 404; body := Some "No equivalent CID for Piece CID found";
              headers := None |}
  else resolvePiece_loop cids locateContent.

Definition v1_not_supported : string :=
  "v1 Piece CIDs are not supported yet. Please provide a V2 Piece CID. https://github.com/filecoin-project/FIPs/blob/master/FRCs/frc-0069.md".

(** AWS HTTP Gateway handler for GET /{cid} by CAR CID, RAW CID or Piece CID *)
Definition redirectGet (request : Request Query) : Async (list CID) Response :=
  let parsed :=
    match parseQueryStringParameters (queryStringParameters request) with
    | Throw err => Throw err
    | Return parsedQueryParams =>
        let cidString :=
          match pathParameters request with
          | Some p => cid p
          | None => None
          end in
        match CID_parse (if truthy_opt cidString then default "" cidString else "") with
        | Throw err => Throw err
        | Return cid => Return (cid, expiresIn parsedQueryParams)
        end
    end in
  match parsed with
  | Throw err =>
      ret {| statusCode := 400; body := Some (JS.message err); headers := None |}
  | Return (cid, expiresIn) =>
      let locateContent := contentLocationResolver expiresIn in
      let* response :=
        (if decide (asPieceCidV2 cid ≠ None)
         then let* r := resolvePiece cid locateContent in ret (Some r)
         else if decide (asPieceCidV1 cid ≠ None)
         then ret (Some {| statusCode := 415; body := Some v1_not_supported;
                           headers := None |})
         else let* r := resolveContent cid locateContent in ret (Some r)) in
      ret (default {| statusCode := 415; body := Some "Unsupported CID type";
                      headers := None |} response)
  end.

(** *** Properties *)

Definition no_equivalent : Response :=
  {| statusCode := 404; body := Some "No equivalent CID for Piece CID found";
     headers := None |}.
Definition no_content : Response :=
  {| statusCode := 404; body := Some "No content found for Piece CID"; headers := None |}.

(** The bucket has nothing for the identifier: the locator resolves to
    [undefined] (or to an empty string, which the handler takes the same). *)
Definition absent (expiresIn : option Z) (cid : CID) : Prop :=
  ∃ url, signedUrl expiresIn cid = Return url ∧ truthy_opt url = false.

Lemma resolvePiece_loop_hit expiresIn before hit after url asked :
  Forall (absent expiresIn) before →
  signedUrl expiresIn hit = Return (Some url) →
  truthy url = true →
  resolvePiece_loop (before ++ hit :: after) (contentLocationResolver expiresIn) asked
  = (Return (redirectTo url), asked ++ before ++ [hit]).
Proof.
  intros Hbefore Hhit Hurl. revert asked.
  induction Hbefore as [|c before (u & Hc & Hu) _ IH]; intros asked; simpl.
  - unfold bind, contentLocationResolver. rewrite Hhit. simpl. by rewrite Hurl.
  - unfold bind at 1. unfold contentLocationResolver at 1. rewrite Hc, Hu.
    rewrite IH. by rewrite <- (assoc_L (++)).
Qed.

Lemma resolvePiece_loop_miss expiresIn cids asked :
  Forall (absent expiresIn) cids →
  resolvePiece_loop cids (contentLocationResolver expiresIn) asked
  = (Return no_content, asked ++ cids).
Proof.
  intros Hcids. revert asked.
  induction Hcids as [|c cids (u & Hc & Hu) _ IH]; intros asked; simpl.
  - by rewrite app_nil_r.
  - unfold bind at 1. unfold contentLocationResolver at 1. rewrite Hc, Hu.
    rewrite IH. by rewrite <- (assoc_L (++)).
Qed.

(** C9. For a piece CID whose equivalence set is not empty, [resolvePiece]
    asks the bucket for the candidates one after the other in the set's
    iteration order: at the first candidate the bucket has, it answers 302
    with that candidate's URL as Location, and no body, and asks for no
    later one; when the bucket has
    none of them it has asked for all and answers 404 "No content found for
    Piece CID", which differs from the 404 it answers, without asking, when
    the equivalence set is empty. *)
Theorem resolvePiece_sequential (cid : CID) (expiresIn : option Z) (asked : list CID) :
  findEquivalentCids cid ≠ [] →
  (∀ before hit after url,
     findEquivalentCids cid = before ++ hit :: after →
     Forall (absent expiresIn) before →
     signedUrl expiresIn hit = Return (Some url) →
     truthy url = true →
     resolvePiece cid (contentLocationResolver expiresIn) asked
     = (Return {| statusCode := 302; body := None;
                  headers := Some {| Location := url |} |},
        asked ++ before ++ [hit]))
  ∧ (Forall (absent expiresIn) (findEquivalentCids cid) →
     resolvePiece cid (contentLocationResolver expiresIn) asked
     = (Return no_content, asked ++ findEquivalentCids cid))
  ∧ no_content ≠ no_equivalent
  ∧ (∀ other, findEquivalentCids other = [] →
     resolvePiece other (contentLocationResolver expiresIn) asked
     = (Return no_equivalent, asked)).
Proof.
  intros Hne. split; [|split; [|split]].
  - intros before hit after url Hcids Hbefore Hhit Hurl. unfold resolvePiece.
    case_decide as Hlen; [by destruct (findEquivalentCids cid)|].
    rewrite Hcids. by apply (resolvePiece_loop_hit expiresIn before hit after url asked).
  - intros Hcids. unfold resolvePiece.
    case_decide as Hlen; [by destruct (findEquivalentCids cid)|].
    by apply resolvePiece_loop_miss.
  - done.
  - intros other Hother. unfold resolvePiece. by rewrite Hother.
Qed.

(** The only 415 answer is the one for v1 piece CIDs: the "Unsupported CID
    type" answer is never given. *)
Lemma redirectGet_415_is_v1 request asked response asked' :
  redirectGet request asked = (Return response, asked') →
  statusCode response = 415 →
  body response = Some v1_not_supported.
Proof.
  unfold redirectGet.
  destruct (parseQueryStringParameters _) as [q|err]; [|by intros [= <- _]].
  destruct (CID_parse _) as [c|err]; [|by intros [= <- _]].
  unfold bind, ret. repeat case_decide.
  - destruct (resolvePiece _ _ _) as [[r|e] asked1] eqn:Hr; [|done].
    intros [= <- _]. simpl. unfold resolvePiece in Hr. case_decide.
    + by injection Hr as <- _.
    + clear -Hr. revert asked Hr.
      induction (findEquivalentCids c) as [|c' cids IH]; intros asked; simpl.
      * by intros [= <- _].
      * unfold bind at 1. unfold contentLocationResolver at 1.
        destruct (signedUrl _ c') as [u|e]; [|done].
        destruct (truthy_opt u); [by intros [= <- _]|apply IH].
  - by intros [= <- _].
  - unfold resolveContent, bind, contentLocationResolver.
    destruct (signedUrl _ c) as [u|e]; [|done].
    destruct (truthy_opt u); by intros [= <- _].
Qed.

(** The cases of the status mapping that hold: 400 when a parser throws,
    415 for a v1 piece CID, 302 with a Location for located content. *)
Lemma redirectGet_malformed request asked :
  (∃ err, parseQueryStringParameters (queryStringParameters request) = Throw err)
  ∨ (∃ err, CID_parse (default "" (pathParameters request ≫= cid)) = Throw err) →
  ∃ message,
    redirectGet request asked
    = (Return {| statusCode := 400; body := Some message; headers := None |}, asked).
Proof.
  unfold redirectGet.
  replace (if truthy_opt _ then _ else _)
    with (default "" (pathParameters request ≫= cid))
    by (destruct (pathParameters request) as [[[[|??]|]]|]; done).
  intros [[err Hq]|[err Hc]].
  - rewrite Hq. by eexists.
  - destruct (parseQueryStringParameters _); [rewrite Hc|]; by eexists.
Qed.

Lemma redirectGet_v1_piece request q c asked :
  parseQueryStringParameters (queryStringParameters request) = Return q →
  CID_parse (default "" (pathParameters request ≫= cid)) = Return c →
  asPieceCidV2 c = None →
  asPieceCidV1 c ≠ None →
  redirectGet request asked
  = (Return {| statusCode := 415; body := Some v1_not_supported; headers := None |}, asked).
Proof.
  intros Hq Hc Hv2 Hv1. unfold redirectGet. rewrite Hq.
  replace (if truthy_opt _ then _ else _)
    with (default "" (pathParameters request ≫= cid))
    by (destruct (pathParameters request) as [[[[|??]|]]|]; done).
  rewrite Hc. unfold bind. rewrite Hv2. by repeat case_decide.
Qed.

Lemma redirectGet_located request q c url asked :
  parseQueryStringParameters (queryStringParameters request) = Return q →
  CID_parse (default "" (pathParameters request ≫= cid)) = Return c →
  asPieceCidV2 c = None →
  asPieceCidV1 c = None →
  signedUrl (expiresIn q) c = Return (Some url) →
  truthy url = true →
  redirectGet request asked = (Return (redirectTo url), asked ++ [c]).
Proof.
  intros Hq Hc Hv2 Hv1 Hurl Htruthy. unfold redirectGet. rewrite Hq.
  replace (if truthy_opt _ then _ else _)
    with (default "" (pathParameters request ≫= cid))
    by (destruct (pathParameters request) as [[[[|??]|]]|]; done).
  rewrite Hc. unfold bind. rewrite Hv2, Hv1. repeat case_decide; try done.
  unfold resolveContent, bind, contentLocationResolver. rewrite Hurl. cbn.
  by rewrite Htruthy.
Qed.

(** C8 (the code departs from it). A request whose identifier parses and is
    neither a v2 nor a v1 piece CID is resolved as content whatever its
    type: when the bucket has nothing for it the answer is 404 "Content Not
    found", not 415. *)
Theorem redirectGet_other_cid (request : Request Query) (q : ParsedQuery) (c : CID)
    (asked : list CID) :
  parseQueryStringParameters (queryStringParameters request) = Return q →
  CID_parse (default "" (pathParameters request ≫= cid)) = Return c →
  asPieceCidV2 c = None →
  asPieceCidV1 c = None →
  signedUrl (expiresIn q) c = Return None →
  redirectGet request asked
  = (Return {| statusCode := 404; body := Some "Content Not found"; headers := None |},
     asked ++ [c]).
Proof.
  intros Hq Hc Hv2 Hv1 Hurl. unfold redirectGet. rewrite Hq.
  replace (CID_parse _) with (Return c).
  - unfold bind. rewrite Hv2, Hv1. repeat case_decide; try done.
    unfold resolveContent, bind, contentLocationResolver. by rewrite Hurl.
  - rewrite <- Hc. f_equal.
    destruct (pathParameters request) as [[[[|??]|]]|]; done.
Qed.

End Handler.

End Roundabout.

Module RoundaboutCases.
Import Roundabout.

(** A deployment given by its answers: identifiers are spelled by their
    string form, [bafkpiece] is a v2 piece CID with three equivalent
    identifiers of which the bucket has the second, and the bucket has
    nothing else. *)
Definition CID_parse (s : string) : Completion string :=
  if truthy s then Return s else Throw (mkError "Error" "Unexpected end of data" None).
Definition parseQueryStringParameters (q : option unit) : Completion ParsedQuery :=
  Return {| expiresIn := None; bucketName := None |}.
Definition asPieceCidV2 (c : string) : option string :=
  if decide (c = "bafkpiece") then Some c else None.
Definition asPieceCidV1 (c : string) : option string :=
  if decide (c = "baga6ea4seaq") then Some c else None.
Definition findEquivalentCids (c : string) : list string :=
  if decide (c = "bafkpiece") then ["bafkraw"; "bagbaiera"; "bafkpiece"] else [].
Definition signedUrl (expiresIn : option Z) (c : string) : Completion (option string) :=
  Return (if decide (c = "bagbaiera") then Some "https://carpark/bagbaiera.car" else None).

Definition get (c : string) : Request unit :=
  {| queryStringParameters := None; pathParameters := Some {| cid := Some c |} |}.

Lemma resolvePiece_sequential_witness :
  resolvePiece string findEquivalentCids "bafkpiece"
    (contentLocationResolver string signedUrl None) []
  = (Return {| statusCode := 302; body := None;
               headers := Some {| Location := "https://carpark/bagbaiera.car" |} |},
     ["bafkraw"; "bagbaiera"]).
Proof.
  assert (Hne : findEquivalentCids "bafkpiece" ≠ []) by done.
  destruct (resolvePiece_sequential string findEquivalentCids signedUrl
              "bafkpiece" None [] Hne) as [Hhit _].
  apply (Hhit ["bafkraw"] "bagbaiera" ["bafkpiece"] "https://carpark/bagbaiera.car").
  - reflexivity.
  - repeat constructor. exists None. split; reflexivity.
  - reflexivity.
  - reflexivity.
Defined.

Lemma redirectGet_other_cid_witness :
  redirectGet string unit string CID_parse parseQueryStringParameters
    asPieceCidV2 asPieceCidV1 findEquivalentCids signedUrl
    (get "bafybeigdyrzt5sfp7udm7hu76uh7y26nf3efuylqabf3oclgtqy55fbzdi") []
  = (Return {| statusCode := 404; body := Some "Content Not found"; headers := None |},
     ["bafybeigdyrzt5sfp7udm7hu76uh7y26nf3efuylqabf3oclgtqy55fbzdi"]).
Proof.
  apply (redirectGet_other_cid string unit string CID_parse parseQueryStringParameters
           asPieceCidV2 asPieceCidV1 findEquivalentCids signedUrl
           (get "bafybeigdyrzt5sfp7udm7hu76uh7y26nf3efuylqabf3oclgtqy55fbzdi")
           {| expiresIn := None; bucketName := None |}
           "bafybeigdyrzt5sfp7udm7hu76uh7y26nf3efuylqabf3oclgtqy55fbzdi" []);
    reflexivity.
Defined.

End RoundaboutCases.

(** ** roundabout: the answers of the two handlers *)

Module RoundaboutFacts.
Import Roundabout.

(** [pathParameters] and the request of GET /key/{key}. *)
Record KeyPathParameters := { key : option string }.
Record KeyRequest (Query : Type) := {
  k_queryStringParameters : option Query;
  k_pathParameters : option KeyPathParameters
}.
Arguments k_queryStringParameters {Query} _.
Arguments k_pathParameters {Query} _.

Definition toLambdaResponse (signedUrl : option string) : Response :=
  if truthy_opt signedUrl
  then redirectTo (default "" signedUrl)
  else {| statusCode := 404; body := None; headers := None |}.

Section Handler.

Variables CID Query Piece : Type.
Variable CID_parse : string → Completion CID.
Variable parseQueryStringParameters : option Query → Completion ParsedQuery.
Variable asPieceCidV2 asPieceCidV1 : CID → option Piece.
Variable findEquivalentCids : CID → list CID.
Variable signedUrl : option Z → CID → Completion (option string).

Abbreviation redirectGet_ :=
  (redirectGet CID Query Piece CID_parse parseQueryStringParameters asPieceCidV2
     asPieceCidV1 findEquivalentCids signedUrl).

(** The signer of a bucket ([getSigner(s3Client, bucketName).getUrl]); the
    state the key handler runs over is the list of bucket names and keys it
    asked a URL for. *)
Variable getUrl : option string → string → option Z → Completion (option string).

Definition signer_getUrl (bucketName : option string) (key : string)
    (expiresIn : option Z) : Async (list (option string * string)) (option string) :=
  λ asked, (getUrl bucketName key expiresIn, asked ++ [(bucketName, key)]).

(** AWS HTTP Gateway handler for GET /key/{key} by bucket key *)
Definition redirectKeyGet (request : KeyRequest Query)
    : Async (list (option string * string)) Response :=
  let parsed :=
    match parseQueryStringParameters (k_queryStringParameters request) with
    | Throw err => Throw err
    | Return parsedQueryParams =>
        let key_ :=
          match k_pathParameters request with
          | Some p => key p
          | None => None
          end in
        if truthy_opt key_
        then Return (default "" key_, expiresIn parsedQueryParams,
                     bucketName parsedQueryParams)
        else Throw (mkError "Error" "no path key provided" None)
    end in
  match parsed with
  | Throw err =>
      ret {| statusCode := 400; body := Some (JS.message err); headers := None |}
  | Return (key_, expiresIn, bucketName) =>
      let* signedUrl := signer_getUrl bucketName key_ expiresIn in
      ret (toLambdaResponse signedUrl)
  end.

(** A 302 to a non-empty URL without a body, or a refusal with a message
    and no header. *)
Definition redirect_or_refusal (response : Response) : Prop :=
  (∃ url, truthy url = true
          ∧ response = {| statusCode := 302; body := None;
                          headers := Some {| Location := url |} |})
  ∨ (∃ text, statusCode response ∈ [400; 404; 415]
             ∧ body response = Some text ∧ headers response = None).

Lemma subseteq_cons_same {A} (x : A) (l k : list A) : l ⊆ k → x :: l ⊆ x :: k.
Proof. intros H y [->|Hy]%elem_of_cons; [left|right; by apply H]. Qed.

Lemma subseteq_singleton_cons {A} (x : A) (k : list A) : [x] ⊆ x :: k.
Proof. intros y ->%list_elem_of_singleton. left. Qed.

Lemma resolvePiece_loop_answers expiresIn cids asked response asked' :
  resolvePiece_loop CID cids (contentLocationResolver CID signedUrl expiresIn) asked
  = (response, asked') →
  (∀ r, response = Return r → redirect_or_refusal r)
  ∧ ∃ more, asked' = asked ++ more ∧ more ⊆ cids.
Proof.
  revert asked. induction cids as [|c cids IH]; intros asked; simpl.
  - intros [= <- <-]. split.
    + intros r [= <-]. right. eexists. split; [|done]. right. left.
    + exists []. split; [by rewrite app_nil_r|done].
  - unfold bind at 1. unfold contentLocationResolver at 1.
    destruct (signedUrl expiresIn c) as [u|e].
    + destruct u as [u|]; cbn [truthy_opt]; [destruct (truthy u) eqn:Hu|].
      * intros [= <- <-]. split; [|exists [c]; split; [done|apply subseteq_singleton_cons]].
        intros r [= <-]. left. by exists u.
      * intros [Hr (more & -> & Hmore)]%IH. split; [done|].
        exists (c :: more).
        split; [by rewrite <- (assoc_L (++))|by apply subseteq_cons_same].
      * intros [Hr (more & -> & Hmore)]%IH. split; [done|].
        exists (c :: more).
        split; [by rewrite <- (assoc_L (++))|by apply subseteq_cons_same].
    + intros [= <- <-]. split; [done|]. exists [c].
      split; [done|apply subseteq_singleton_cons].
Qed.

(** The identifier a request names, as the handler reads it. *)
Definition requested (request : Request Query) : Completion CID :=
  match parseQueryStringParameters (queryStringParameters request) with
  | Throw err => Throw err
  | Return _ => CID_parse (default "" (pathParameters request ≫= cid))
  end.

(** X14. Whatever [redirectGet] answers is either a 302 whose Location is a
    non-empty URL, without a body, or a 400, 404 or 415 with a message and
    no header. *)
Theorem redirectGet_answers (request : Request Query) (asked asked' : list CID)
    (response : Response) :
  redirectGet_ request asked = (Return response, asked') →
  redirect_or_refusal response.
Proof.
  unfold redirectGet.
  destruct (parseQueryStringParameters _) as [q|err].
  2:{ intros [= <- _]. right. eexists. split; [left|done]. }
  destruct (CID_parse _) as [c|err].
  2:{ intros [= <- _]. right. eexists. split; [left|done]. }
  unfold bind, ret. repeat case_decide.
  - destruct (resolvePiece _ _ _ _ _) as [[r|e] asked1] eqn:Hr; [|done].
    intros [= <- _]. cbn [default from_option id]. unfold resolvePiece in Hr. case_decide.
    + injection Hr as <- _. right. eexists. split; [|done]. right. left.
    + by apply resolvePiece_loop_answers in Hr as [Hr _]; apply Hr.
  - intros [= <- _]. right. eexists. split; [|done]. right. right. left.
  - unfold resolveContent, bind, contentLocationResolver.
    destruct (signedUrl _ c) as [u|e]; [|done].
    destruct u as [u|]; cbn [truthy_opt]; [destruct (truthy u) eqn:Hu|];
      intros [= <- _]; cbn [default from_option id].
    + left. by exists u.
    + right. eexists. split; [|done]. right. left.
    + right. eexists. split; [|done]. right. left.
Qed.

(** X15. [redirectGet] asks the bucket only for the identifier the request
    names or for identifiers equivalent to it, and for nothing when the
    request is malformed. *)
Theorem redirectGet_asks (request : Request Query) (asked asked' : list CID)
    (outcome : Completion Response) :
  redirectGet_ request asked = (outcome, asked') →
  ∃ more, asked' = asked ++ more
    ∧ match requested request with
      | Return c => more ⊆ c :: findEquivalentCids c
      | Throw _ => more = []
      end.
Proof.
  unfold redirectGet, requested.
  destruct (parseQueryStringParameters _) as [q|err].
  2:{ intros [= _ <-]. exists []. by rewrite app_nil_r. }
  replace (if truthy_opt _ then _ else _)
    with (default "" (pathParameters request ≫= cid))
    by (destruct (pathParameters request) as [[[[|??]|]]|]; done).
  destruct (CID_parse _) as [c|err].
  2:{ intros [= _ <-]. exists []. by rewrite app_nil_r. }
  unfold bind, ret. repeat case_decide.
  - destruct (resolvePiece _ _ _ _ _) as [outcome1 asked1] eqn:Hr.
    assert (Hmore : ∃ more, asked1 = asked ++ more ∧ more ⊆ findEquivalentCids c).
    { unfold resolvePiece in Hr. case_decide.
      - injection Hr as _ <-. exists [].
        split; [by rewrite app_nil_r|]. intros x Hx. by apply elem_of_nil in Hx.
      - by apply resolvePiece_loop_answers in Hr as [_ Hr]. }
    destruct Hmore as (more & -> & Hmore).
    destruct outcome1; intros [= _ <-]; exists more;
      (split; [done|]); intros x Hx; right; by apply Hmore.
  - intros [= _ <-]. exists [].
    split; [by rewrite app_nil_r|]. intros x Hx. by apply elem_of_nil in Hx.
  - unfold resolveContent, bind, contentLocationResolver.
    destruct (signedUrl _ c) as [u|e].
    + destruct (truthy_opt u); intros [= _ <-]; exists [c];
        (split; [done|apply subseteq_singleton_cons]).
    + intros [= _ <-]. exists [c]. split; [done|apply subseteq_singleton_cons].
Qed.

(** X16. [redirectKeyGet] answers 400 with the message "no path key
    provided", without asking the signer, when the request has no key or an
    empty one; with a key it asks the signer once, for that key in the
    bucket the query names, and answers 302 with the signed URL as
    Location and no body, or 404 without a body or header when the signer
    has none. *)
Theorem redirectKeyGet_answers (request : KeyRequest Query) (q : ParsedQuery)
    (asked : list (option string * string)) :
  parseQueryStringParameters (k_queryStringParameters request) = Return q →
  match k_pathParameters request ≫= key with
  | Some (String a k) =>
      ∀ signed, getUrl (bucketName q) (String a k) (expiresIn q) = Return signed →
        redirectKeyGet request asked
        = (Return (match signed with
                   | Some (String b url) =>
                       {| statusCode := 302; body := None;
                          headers := Some {| Location := String b url |} |}
                   | _ => {| statusCode := 404; body := None; headers := None |}
                   end),
           asked ++ [(bucketName q, String a k)])
  | _ =>
      redirectKeyGet request asked
      = (Return {| statusCode := 400; body := Some "no path key provided";
                   headers := None |}, asked)
  end.
Proof.
  intros Hq. unfold redirectKeyGet. rewrite Hq.
  destruct (k_pathParameters request) as [[[[|a k]|]]|]; try done.
  cbn. intros signed Hsigned. unfold bind, signer_getUrl. rewrite Hsigned.
  by destruct signed as [[|b url]|].
Qed.

End Handler.

End RoundaboutFacts.

Module RoundaboutFactsCases.
Import Roundabout RoundaboutCases RoundaboutFacts.

(** The signer has the key [raw/bagbaiera.car] of the default bucket only. *)
Definition getUrl (bucketName : option string) (key : string) (expiresIn : option Z)
    : Completion (option string) :=
  Return (if decide (key = "raw/bagbaiera.car")
          then Some "https://carpark/raw/bagbaiera.car" else None).

Definition get_key (k : option string) : KeyRequest unit :=
  {| k_queryStringParameters := None; k_pathParameters := Some {| key := k |} |}.

Lemma redirectGet_answers_witness :
  redirect_or_refusal
    {| statusCode := 404; body := Some "Content Not found"; headers := None |}.
Proof.
  apply (redirectGet_answers string unit string CID_parse parseQueryStringParameters
           asPieceCidV2 asPieceCidV1 findEquivalentCids signedUrl
           (get "bafybeigdyrzt5sfp7udm7hu76uh7y26nf3efuylqabf3oclgtqy55fbzdi") []
           ["bafybeigdyrzt5sfp7udm7hu76uh7y26nf3efuylqabf3oclgtqy55fbzdi"]).
  reflexivity.
Defined.

Lemma redirectGet_asks_witness :
  ∃ more, ["bafkraw"; "bagbaiera"] = [] ++ more
    ∧ more ⊆ "bafkpiece" :: findEquivalentCids "bafkpiece".
Proof.
  apply (redirectGet_asks string unit string CID_parse parseQueryStringParameters
           asPieceCidV2 asPieceCidV1 findEquivalentCids signedUrl
           (get "bafkpiece") [] ["bafkraw"; "bagbaiera"]
           (Return {| statusCode := 302; body := None;
                      headers := Some {| Location := "https://carpark/bagbaiera.car" |} |})).
  reflexivity.
Defined.

Lemma redirectKeyGet_answers_witness :
  redirectKeyGet unit parseQueryStringParameters getUrl (get_key (Some "raw/bagbaiera.car")) []
  = (Return {| statusCode := 302; body := None;
               headers := Some {| Location := "https://carpark/raw/bagbaiera.car" |} |},
     [(None, "raw/bagbaiera.car")]).
Proof.
  apply (redirectKeyGet_answers unit parseQueryStringParameters getUrl
           (get_key (Some "raw/bagbaiera.car")) {| expiresIn := None; bucketName := None |} []
           eq_refl (Some "https://carpark/raw/bagbaiera.car")).
  reflexivity.
Defined.

End RoundaboutFactsCases.

(** ** The keyed store (DynamoDB), as the sources use it

    Modelled from the DynamoDB API (an external service) for the allocation
    table, whose primary key is the partition key [space] with the sort key
    [multihash] (the two attributes [getKey] names). [GetItem] and
    [DeleteItem] take a key of exactly these two string attributes;
    [PutItem] and [DeleteItem] evaluate their condition on the item stored
    under the key and fail with [ConditionalCheckFailedException] when it
    does not hold; [Query] scans one partition in sort-key order, after an
    exclusive start key, up to [Limit] items, and names the last item it
    evaluated when the limit stopped it. A malformed key or limit is a
    [ValidationException]. A client whose [outage] is set fails every
    command with that error; [sent] records the commands it was sent. *)

Module DynamoDB.

Inductive AttributeValue :=
| attr_S (s : string)
| attr_N (n : Z).

Global Instance AttributeValue_eq_dec : EqDecision AttributeValue.
Proof. solve_decision. Defined.

Inductive Condition :=
| attribute_exists (path : string)
| attribute_not_exists (path : string)
| AND (l r : Condition).

Record GetItemOutput := { Item : option (gmap string AttributeValue) }.
Record DeleteItemOutput := { Attributes : option (gmap string AttributeValue) }.
Record QueryOutput := {
  Items : option (list (gmap string AttributeValue));
  LastEvaluatedKey : option (gmap string AttributeValue)
}.

Inductive Command : Type → Type :=
| GetItemCommand (Key : gmap string AttributeValue)
    (AttributesToGet : option (list string)) : Command GetItemOutput
| PutItemCommand (Item : gmap string AttributeValue)
    (ConditionExpression : option Condition)
    (ExpressionAttributeNames : list (string * string)) : Command unit
| DeleteItemCommand (Key : gmap string AttributeValue)
    (ConditionExpression : option Condition)
    (ExpressionAttributeNames : list (string * string))
    (ReturnValues : option string) : Command DeleteItemOutput
| QueryCommand (Limit : Z) (KeyConditions_space : string) (ScanIndexForward : bool)
    (ExclusiveStartKey : option (gmap string AttributeValue))
    (AttributesToGet : list string) : Command QueryOutput.

Record DynamoDBClient := {
  table : gmap (string * string) (gmap string AttributeValue);
  outage : option JSError;
  sent : list { A : Type & Command A }
}.

Definition ConditionalCheckFailedException : JSError :=
  mkError "ConditionalCheckFailedException" "The conditional request failed" (Some 400).
Definition ValidationException : JSError :=
  mkError "ValidationException" "One or more parameter values were invalid" (Some 400).

(** The primary key an item carries. *)
Definition key_of (item : gmap string AttributeValue) : option (string * string) :=
  match item !! "space", item !! "multihash" with
  | Some (attr_S space), Some (attr_S multihash) => Some (space, multihash)
  | _, _ => None
  end.

(** A key names the two key attributes and nothing else. *)
Definition exact_key (key : gmap string AttributeValue) : option (string * string) :=
  if decide (size key = 2%nat) then key_of key else None.

Definition attribute_name (names : list (string * string)) (path : string) : string :=
  default path (snd <$> List.find (λ entry, String.eqb entry.1 path) names).

Fixpoint holds (names : list (string * string)) (condition : Condition)
    (stored : option (gmap string AttributeValue)) : bool :=
  match condition with
  | attribute_exists path =>
      bool_decide (is_Some (stored ≫= (.!! attribute_name names path)))
  | attribute_not_exists path =>
      negb (bool_decide (is_Some (stored ≫= (.!! attribute_name names path))))
  | AND l r => holds names l stored && holds names r stored
  end.

Definition holds_opt (names : list (string * string)) (condition : option Condition)
    (stored : option (gmap string AttributeValue)) : bool :=
  match condition with
  | Some condition => holds names condition stored
  | None => true
  end.

Definition project (attributes : list string) (item : gmap string AttributeValue)
    : gmap string AttributeValue :=
  filter (λ entry, entry.1 ∈ attributes) item.

(** The items of a partition with their sort keys, in ascending order. *)
Definition partition (tbl : gmap (string * string) (gmap string AttributeValue))
    (space : string) : list (string * gmap string AttributeValue) :=
  merge_sort (λ a b, string_le a.1 b.1)
    (omap (λ entry, if decide (entry.1.1 = space) then Some (entry.1.2, entry.2) else None)
       (map_to_list tbl)).

(** Whether a sort key lies after the start key in the scan's direction. *)
Definition beyond (forward : bool) (from multihash : string) : bool :=
  if forward then string_ltb from multihash else string_ltb multihash from.

(** The items a scan evaluates: those after the exclusive start key, in the
    scan's direction. *)
Definition scan (tbl : gmap (string * string) (gmap string AttributeValue))
    (space : string) (forward : bool) (start : option string)
    : list (string * gmap string AttributeValue) :=
  let ordered := if forward then partition tbl space else reverse (partition tbl space) in
  match start with
  | None => ordered
  | Some from =>
      filter (λ entry, beyond forward from entry.1) ordered
  end.

Definition key_item (space multihash : string) : gmap string AttributeValue :=
  {[ "space" := attr_S space; "multihash" := attr_S multihash ]}.

Definition run {A} (command : Command A) (σ : DynamoDBClient)
    : Completion A * gmap (string * string) (gmap string AttributeValue) :=
  match command in Command A
        return Completion A * gmap (string * string) (gmap string AttributeValue) with
  | GetItemCommand key attributes =>
      match exact_key key with
      | None => (Throw ValidationException, table σ)
      | Some k =>
          (Return {| Item := from_option project id attributes <$> table σ !! k |}, table σ)
      end
  | PutItemCommand item condition names =>
      match key_of item with
      | None => (Throw ValidationException, table σ)
      | Some k =>
          if holds_opt names condition (table σ !! k)
          then (Return (), <[k := item]> (table σ))
          else (Throw ConditionalCheckFailedException, table σ)
      end
  | DeleteItemCommand key condition names returnValues =>
      match exact_key key with
      | None => (Throw ValidationException, table σ)
      | Some k =>
          if holds_opt names condition (table σ !! k)
          then (Return {| Attributes :=
                            if decide (returnValues = Some "ALL_OLD") then table σ !! k
                            else None |},
                delete k (table σ))
          else (Throw ConditionalCheckFailedException, table σ)
      end
  | QueryCommand limit space forward start attributes =>
      let start_key :=
        match start with
        | None => Some None
        | Some key =>
            match exact_key key with
            | Some (s, multihash) => if decide (s = space) then Some (Some multihash) else None
            | None => None
            end
        end in
      match start_key with
      | Some from =>
          if decide (1 ≤ limit) then
            let page := take (Z.to_nat limit) (scan (table σ) space forward from) in
            (Return {| Items := Some ((λ entry, project attributes entry.2) <$> page);
                       LastEvaluatedKey :=
                         if decide (length page = Z.to_nat limit)
                         then (λ entry, key_item space entry.1) <$> last page
                         else None |},
             table σ)
          else (Throw ValidationException, table σ)
      | None => (Throw ValidationException, table σ)
      end
  end.

Definition send {A} (command : Command A) : Async DynamoDBClient A := λ σ,
  let log := sent σ ++ [existT A command] in
  match outage σ with
  | Some e => (Throw e, {| table := table σ; outage := outage σ; sent := log |})
  | None =>
      let '(result, tbl) := run command σ in
      (result, {| table := tbl; outage := None; sent := log |})
  end.

(** *** Facts about partitions *)

Definition by_sort_key (a b : string * gmap string AttributeValue) : Prop :=
  string_le a.1 b.1.

Global Instance by_sort_key_total : Total by_sort_key.
Proof. intros a b. apply string_le_total. Qed.
Global Instance by_sort_key_trans : Transitive by_sort_key.
Proof. intros a b c. apply string_le_trans. Qed.

Lemma partition_lookup tbl space multihash item :
  (multihash, item) ∈ partition tbl space → tbl !! (space, multihash) = Some item.
Proof.
  unfold partition. rewrite merge_sort_Permutation.
  intros ([[s m] i] & Hin & Hsome)%list_elem_of_omap.
  cbn in Hsome. case_decide as Hs; [|done]. injection Hsome as <- <-. subst s.
  by apply elem_of_map_to_list in Hin.
Qed.

Lemma StronglySorted_sublist {A} (R : relation A) (k l : list A) :
  k `sublist_of` l → StronglySorted R l → StronglySorted R k.
Proof.
  induction 1 as [|x k l Hkl IH|x k l Hkl IH]; intros Hl; [done|..];
    apply StronglySorted_inv in Hl as [Hl Hx].
  - constructor; [by apply IH|].
    apply Forall_forall. intros y Hy. rewrite Forall_forall in Hx.
    by apply Hx, (sublist_subseteq k l).
  - by apply IH.
Qed.

Lemma partition_sorted tbl space : StronglySorted by_sort_key (partition tbl space).
Proof. apply (StronglySorted_merge_sort by_sort_key). Qed.

Lemma project_lookup attributes item a :
  a ∈ attributes → project attributes item !! a = item !! a.
Proof.
  intros Ha. unfold project. destruct (item !! a) as [v|] eqn:Hv.
  - by apply map_lookup_filter_Some.
  - apply map_lookup_filter_None. left. done.
Qed.

End DynamoDB.

(** ** upload-api/stores/allocations.js *)

Module Allocations.
Import DynamoDB.

Inductive StoreError :=
| RecordNotFound
| RecordKeyConflict
| StorageOperationFailed (message : string).

(** A property of an unmarshalled item: a string or a number. Sizes are
    integers; a property that is absent reads as [undefined] ([None]).
    [marshall] of the SDK throws on a number that is not a safe integer
    (beyond 2^53 - 1 in magnitude); sizes are taken within that range,
    where it writes the number as it is. *)
Inductive JSValue :=
| JSString (s : string)
| JSNumber (n : Z).

Definition marshall (object : gmap string JSValue) : gmap string AttributeValue :=
  (λ v, match v with JSString s => attr_S s | JSNumber n => attr_N n end) <$> object.
Definition unmarshall (item : gmap string AttributeValue) : gmap string JSValue :=
  (λ v, match v with attr_S s => JSString s | attr_N n => JSNumber n end) <$> item.

(** [Number(v)], with [None] for NaN. A string converts when it is an
    integer literal in decimal digits (the empty string is 0). *)
Definition Number_ (v : option JSValue) : option Z :=
  match v with
  | Some (JSNumber n) => Some n
  | Some (JSString s) =>
      if String.eqb s "" then Some 0 else Z.of_int <$> NilZero.int_of_string s
  | None => None
  end.

Record Blob (Size : Type) := { digest : list byte; size : Size }.
Arguments digest {Size} _.
Arguments size {Size} _.

Record BlobAddInput (Link : Type) := {
  space : string;
  blob : Blob Z;
  cause : Link
}.
Arguments space {Link} _.
Arguments blob {Link} _.
Arguments cause {Link} _.

Record Allocation (Link : Type) := {
  a_blob : Blob (option JSValue);
  a_cause : Link
}.
Arguments a_blob {Link} _.
Arguments a_cause {Link} _.

Record BlobListItem := {
  l_blob : Blob (option JSValue);
  insertedAt : option JSValue
}.

Record ListOptions := {
  cursor : option string;
  o_size : option Z;
  pre : bool
}.

Record ListResult := {
  r_size : nat;
  before : option JSValue;
  after : option JSValue;
  r_cursor : option JSValue;
  results : list BlobListItem
}.

Record Removed := { removed_size : option Z }.

Definition TypeError : JSError := mkError "TypeError" "undefined" None.
Definition base58btc_error : JSError :=
  mkError "SyntaxError" "Non-base58btc character" None.

(** [base58btc.decode(v)]: throws on what is no base58btc string. *)
Definition base58btc_decode (v : option JSValue) : Completion (list byte) :=
  match v with
  | Some (JSString s) =>
      match Base58.decode s with
      | Some bytes => Return bytes
      | None => Throw base58btc_error
      end
  | _ => Throw TypeError
  end.

Definition getKey (space : string) (blobMultihash : list byte)
    : gmap string AttributeValue :=
  let multihash58btc := Base58.encode blobMultihash in
  let item : gmap string JSValue :=
    {[ "space" := JSString space; "multihash" := JSString multihash58btc ]} in
  marshall item.

(** Upgrade from the db representation *)
Definition toBlobListResult (item : gmap string JSValue) : Completion BlobListItem :=
  match base58btc_decode (item !! "multihash") with
  | Return bytes =>
      Return {| l_blob := {| digest := bytes; size := item !! "size" |};
                insertedAt := item !! "insertedAt" |}
  | Throw e => Throw e
  end.

(** [items.map(f)] for an [f] that may throw: the first throw ends it. *)
Fixpoint map_throwing {A B} (f : A → Completion B) (items : list A)
    : Completion (list B) :=
  match items with
  | [] => Return []
  | item :: items =>
      match f item with
      | Throw e => Throw e
      | Return b =>
          match map_throwing f items with
          | Throw e => Throw e
          | Return bs => Return (b :: bs)
          end
      end
  end.

Definition not_exists : Condition :=
  AND (attribute_not_exists "#S") (attribute_not_exists "#M").
Definition does_exist : Condition :=
  AND (attribute_exists "#S") (attribute_exists "#M").
Definition names : list (string * string) := [("#S", "space"); ("#M", "multihash")].

Section Links.

(** Links (multiformats): their string form and their parser. *)
Variable Link : Type.
Variable Link_toString : Link → string.
Variable Link_parse : string → Completion Link.

(** Check if the given link CID is bound to the uploader account *)
Definition exists_ (space : string) (blobMultihash : list byte)
    : Async DynamoDBClient (Result bool StoreError) :=
  let key := getKey space blobMultihash in
  let cmd := GetItemCommand key (Some ["space"]) in
  try_catch
    (let* response := send cmd in
     ret (ok (bool_decide (is_Some (Item response)))))
    (λ _, ret (ok false)).

Definition get (space : string) (blobMultihash : list byte)
    : Async DynamoDBClient (Result (Allocation Link) StoreError) :=
  let key := getKey space blobMultihash in
  let cmd := GetItemCommand key None in
  let* response := send cmd in
  match Item response with
  | None => ret (error RecordNotFound)
  | Some item =>
      let raw := unmarshall item in
      let* bytes := lift (base58btc_decode (raw !! "multihash")) in
      let* link :=
        lift (match raw !! "cause" with
              | Some (JSString s) => Link_parse s
              | _ => Throw TypeError
              end) in
      ret (ok {| a_blob := {| digest := bytes; size := raw !! "size" |};
                 a_cause := link |})
  end.

(** Bind a link CID to an account. [now] is what [new Date().toISOString()]
    reads from the clock. *)
Definition insert (now : string) (input : BlobAddInput Link)
    : Async DynamoDBClient (Result (Blob Z) StoreError) :=
  let insertedAt := now in
  let multihash58btc := Base58.encode (digest (blob input)) in
  let item : gmap string JSValue :=
    {[ "space" := JSString (space input);
       "multihash" := JSString multihash58btc;
       "size" := JSNumber (size (blob input));
       "cause" := JSString (Link_toString (cause input));
       "insertedAt" := JSString insertedAt ]} in
  let cmd := PutItemCommand (marshall item) (Some not_exists) names in
  try_catch
    (let* _ := send cmd in ret (ok (blob input)))
    (λ err,
       if decide (name err = "ConditionalCheckFailedException")
       then ret (error RecordKeyConflict)
       else throw err).

Definition remove (space : string) (blobMultihash : list byte)
    : Async DynamoDBClient (Result Removed StoreError) :=
  let key := getKey space blobMultihash in
  let cmd := DeleteItemCommand key (Some does_exist) names (Some "ALL_OLD") in
  try_catch
    (let* res := send cmd in
     match Attributes res with
     | None => throw (mkError "Error" "missing return values" None)
     | Some attributes =>
         let raw := unmarshall attributes in
         ret (ok {| removed_size := Number_ (raw !! "size") |})
     end)
    (λ err,
       if decide (name err = "ConditionalCheckFailedException")
       then ret (ok {| removed_size := Some 0 |})
       else ret (error (StorageOperationFailed (name err)))).

(** List all CARs bound to an account *)
Definition list_ (space : string) (options : ListOptions)
    : Async DynamoDBClient (Result ListResult StoreError) :=
  let exclusiveStartKey :=
    if truthy_opt (cursor options)
    then Some (marshall {[ "space" := JSString space;
                           "link" := JSString (default "" (cursor options)) ]})
    else None in
  let limit :=
    match o_size options with
    | Some n => if decide (n = 0) then 20 else n
    | None => 20
    end in
  let cmd := QueryCommand limit space (negb (pre options)) exclusiveStartKey
               ["multihash"; "size"; "insertedAt"] in
  let* response := send cmd in
  let* results :=
    lift (map_throwing (λ i, toBlobListResult (unmarshall i))
            (default [] (Items response))) in
  let firstLinkCID :=
    match results with
    | first :: _ => Some (JSString (Base58.encode (digest (l_blob first))))
    | [] => None
    end in
  let lastKey := unmarshall <$> LastEvaluatedKey response in
  let lastLinkCID := lastKey ≫= (.!! "multihash") in
  let before := if pre options then lastLinkCID else firstLinkCID in
  let after := if pre options then firstLinkCID else lastLinkCID in
  ret (ok {| r_size := length results;
             before := before;
             after := after;
             r_cursor := after;
             results := if pre options then reverse results else results |}).

(** *** Insert, exists, get *)

(** The item [insert] writes. *)
Definition allocation_item (now : string) (input : BlobAddInput Link)
    : gmap string AttributeValue :=
  marshall
    {[ "space" := JSString (space input);
       "multihash" := JSString (Base58.encode (digest (blob input)));
       "size" := JSNumber (size (blob input));
       "cause" := JSString (Link_toString (cause input));
       "insertedAt" := JSString now ]}.

(** The key of a space and digest in the table. *)
Definition table_key (space : string) (blobMultihash : list byte) : string * string :=
  (space, Base58.encode blobMultihash).

Lemma exact_key_getKey space blobMultihash :
  exact_key (getKey space blobMultihash) = Some (table_key space blobMultihash).
Proof. reflexivity. Qed.

Lemma key_of_allocation_item now input :
  key_of (allocation_item now input)
  = Some (table_key (space input) (digest (blob input))).
Proof. reflexivity. Qed.

Lemma allocation_item_exists now input :
  holds names not_exists (Some (allocation_item now input)) = false
  ∧ holds names does_exist (Some (allocation_item now input)) = true.
Proof. split; reflexivity. Qed.

Definition put_command (now : string) (input : BlobAddInput Link) : Command unit :=
  PutItemCommand (allocation_item now input) (Some not_exists) names.

(** The client after a command was sent that left the table as [tbl]. *)
Definition logged {A} (σ : DynamoDBClient) (command : Command A)
    (tbl : gmap (string * string) (gmap string AttributeValue)) : DynamoDBClient :=
  {| table := tbl; outage := outage σ; sent := sent σ ++ [existT A command] |}.

Lemma send_up {A} (command : Command A) σ :
  outage σ = None →
  send command σ = ((run command σ).1, logged σ command (run command σ).2).
Proof. intros Hup. unfold send, logged. rewrite Hup. by destruct (run command σ). Qed.

Lemma send_down {A} (command : Command A) σ e :
  outage σ = Some e → send command σ = (Throw e, logged σ command (table σ)).
Proof. intros Hdown. unfold send, logged. by rewrite Hdown. Qed.

Lemma insert_run now input σ :
  insert now input σ =
    match outage σ with
    | Some e =>
        (if decide (name e = "ConditionalCheckFailedException")
         then Return (error RecordKeyConflict) else Throw e,
         logged σ (put_command now input) (table σ))
    | None =>
        if holds names not_exists
             (table σ !! table_key (space input) (digest (blob input)))
        then (Return (ok (blob input)),
              logged σ (put_command now input)
                (<[table_key (space input) (digest (blob input)) :=
                     allocation_item now input]> (table σ)))
        else (Return (error RecordKeyConflict),
              logged σ (put_command now input) (table σ))
    end.
Proof.
  unfold insert, try_catch, bind.
  change (PutItemCommand _ _ _) with (put_command now input).
  destruct (outage σ) as [e|] eqn:Hup.
  - rewrite (send_down _ _ e) by done. by case_decide.
  - rewrite send_up by done. unfold put_command, run.
    rewrite key_of_allocation_item. unfold holds_opt.
    destruct (holds names not_exists _); done.
Qed.



End Links.

(** *** Remove *)

Definition delete_command (space : string) (blobMultihash : list byte)
    : Command DeleteItemOutput :=
  DeleteItemCommand (getKey space blobMultihash) (Some does_exist) names (Some "ALL_OLD").

Lemma holds_does_exist item k :
  key_of item = Some k → holds names does_exist (Some item) = true.
Proof.
  unfold key_of. intros Hkey. cbn.
  destruct (item !! "space") as [[]|], (item !! "multihash") as [[]|]; done.
Qed.

Lemma remove_run space blobMultihash σ :
  remove space blobMultihash σ =
    match outage σ with
    | Some e =>
        (Return (if decide (name e = "ConditionalCheckFailedException")
                 then ok {| removed_size := Some 0 |}
                 else error (StorageOperationFailed (name e))),
         logged σ (delete_command space blobMultihash) (table σ))
    | None =>
        match table σ !! table_key space blobMultihash with
        | Some item =>
            if holds names does_exist (Some item)
            then (Return (ok {| removed_size := Number_ (unmarshall item !! "size") |}),
                  logged σ (delete_command space blobMultihash)
                    (delete (table_key space blobMultihash) (table σ)))
            else (Return (ok {| removed_size := Some 0 |}),
                  logged σ (delete_command space blobMultihash) (table σ))
        | None =>
            (Return (ok {| removed_size := Some 0 |}),
             logged σ (delete_command space blobMultihash) (table σ))
        end
    end.
Proof.
  unfold remove, try_catch, bind.
  change (DeleteItemCommand _ _ _ _) with (delete_command space blobMultihash).
  destruct (outage σ) as [e|] eqn:Hup.
  - rewrite (send_down _ _ e) by done. by case_decide.
  - rewrite send_up by done. unfold delete_command, run.
    rewrite exact_key_getKey. unfold holds_opt.
    destruct (table σ !! table_key space blobMultihash) as [item|]; [|done].
    destruct (holds names does_exist (Some item)); done.
Qed.

(** C2. [remove] of a space and digest that have no record answers ok with
    size 0, so it does after a [remove] that took the record away; when the
    record is there it answers the record's size and deletes it; when the
    backend fails with anything but the conditional-check failure it answers
    [StorageOperationFailed]. *)
Theorem remove_idempotent (σ : DynamoDBClient) (space : string)
    (blobMultihash : list byte) :
  (outage σ = None →
   table σ !! table_key space blobMultihash = None →
   (remove space blobMultihash σ).1 = Return (ok {| removed_size := Some 0 |})
   ∧ table (remove space blobMultihash σ).2 = table σ)
  ∧ (∀ item n,
       outage σ = None →
       table σ !! table_key space blobMultihash = Some item →
       key_of item = Some (table_key space blobMultihash) →
       item !! "size" = Some (attr_N n) →
       let removed := remove space blobMultihash σ in
       removed.1 = Return (ok {| removed_size := Some n |})
       ∧ table removed.2 = delete (table_key space blobMultihash) (table σ)
       ∧ (remove space blobMultihash removed.2).1
         = Return (ok {| removed_size := Some 0 |}))
  ∧ (∀ e,
       outage σ = Some e →
       name e ≠ "ConditionalCheckFailedException" →
       (remove space blobMultihash σ).1
       = Return (error (StorageOperationFailed (name e)))).
Proof.
  split; [|split].
  - intros Hup Habsent. rewrite remove_run, Hup, Habsent. done.
  - intros item n Hup Hitem Hkey Hsize removed. subst removed.
    rewrite (remove_run _ _ σ), Hup, Hitem, (holds_does_exist _ _ Hkey).
    cbn [fst snd logged table]. split; [|split; [done|]].
    + unfold unmarshall. by rewrite lookup_fmap, Hsize.
    + rewrite remove_run. cbn [outage logged table]. rewrite Hup.
      by rewrite lookup_delete_eq.
  - intros e Hdown Hname. rewrite remove_run, Hdown. by case_decide.
Qed.

(** *** List *)

(** Every item carries the key it is stored under, and its sort key is a
    base58btc string. *)
Definition decodable (tbl : gmap (string * string) (gmap string AttributeValue)) : Prop :=
  map_Forall (λ k item, key_of item = Some k ∧ is_Some (Base58.decode k.2)) tbl.

Global Instance decodable_dec tbl : Decision (decodable tbl).
Proof. unfold decodable. apply _. Defined.

(** What [list] returns for an item of the table. *)
Definition entry_result (entry : string * gmap string AttributeValue) : BlobListItem :=
  {| l_blob := {| digest := default [] (Base58.decode entry.1);
                  size := unmarshall entry.2 !! "size" |};
     insertedAt := unmarshall entry.2 !! "insertedAt" |}.

(** The sort key of a returned record: its digest in base58btc. *)
Definition result_key (r : BlobListItem) : string := Base58.encode (digest (l_blob r)).

Definition page_limit (options : ListOptions) : Z :=
  match o_size options with
  | Some n => if decide (n = 0) then 20 else n
  | None => 20
  end.

Definition listed_attributes : list string := ["multihash"; "size"; "insertedAt"].

Lemma toBlobListResult_entry tbl space multihash item :
  decodable tbl →
  tbl !! (space, multihash) = Some item →
  toBlobListResult (unmarshall (project listed_attributes item))
  = Return (entry_result (multihash, item))
  ∧ result_key (entry_result (multihash, item)) = multihash.
Proof.
  intros Htbl Hitem. destruct (Htbl _ _ Hitem) as [Hkey [bytes Hbytes]].
  cbn in Hbytes. unfold toBlobListResult, entry_result, result_key, unmarshall.
  rewrite !lookup_fmap, !project_lookup
    by (apply list_elem_of_In; unfold listed_attributes; simpl; tauto).
  unfold key_of in Hkey.
  destruct (item !! "space") as [[s|]|]; try done.
  destruct (item !! "multihash") as [[m|]|]; try done.
  injection Hkey as -> ->. cbn. rewrite Hbytes. cbn.
  split; [done|]. by apply Base58.encode_of_decode.
Qed.

Lemma map_throwing_entries tbl space page :
  decodable tbl →
  page ⊆ partition tbl space →
  map_throwing (λ i, toBlobListResult (unmarshall i))
    ((λ entry, project listed_attributes entry.2) <$> page)
  = Return (entry_result <$> page).
Proof.
  intros Htbl. induction page as [|[m item] page IH]; intros Hpage; [done|].
  rewrite !fmap_cons. cbn [map_throwing snd]. rewrite (proj1 (toBlobListResult_entry tbl space m item Htbl
                         (partition_lookup _ _ _ _ (Hpage _ (list_elem_of_here _ _))))).
  rewrite IH; [done|]. intros e He. apply Hpage. by right.
Qed.

Lemma result_keys_sorted tbl space page :
  decodable tbl →
  page `sublist_of` partition tbl space →
  StronglySorted (λ a b, string_le (result_key a) (result_key b)) (entry_result <$> page).
Proof.
  intros Htbl Hpage.
  assert (Hsorted : StronglySorted by_sort_key page)
    by (eapply StronglySorted_sublist; [exact Hpage|apply partition_sorted]).
  assert (Hin : page ⊆ partition tbl space) by by apply sublist_subseteq.
  clear Hpage. induction Hsorted as [|[m item] page _ IH Hall]; [constructor|].
  cbn. constructor.
  - apply IH. intros e He. apply Hin. by right.
  - apply Forall_fmap, Forall_forall. intros [m' item'] Hin'. cbn.
    rewrite (proj2 (toBlobListResult_entry tbl space m item Htbl
                      (partition_lookup _ _ _ _ (Hin _ (list_elem_of_here _ _))))).
    rewrite (proj2 (toBlobListResult_entry tbl space m' item' Htbl
                      (partition_lookup _ _ _ _ (Hin _ (list_elem_of_further _ _ _ Hin'))))).
    rewrite Forall_forall in Hall. apply (Hall _ Hin').
Qed.

Lemma firstLinkCID_key tbl space page :
  decodable tbl →
  page ⊆ partition tbl space →
  match entry_result <$> page with
  | first :: _ => Some (JSString (Base58.encode (digest (l_blob first))))
  | [] => None
  end = (λ entry, JSString entry.1) <$> head page.
Proof.
  intros Htbl Hpage. destruct page as [|[m item] page]; [done|].
  rewrite fmap_cons. cbn [head fmap option_fmap option_map fst].
  change (Base58.encode _) with (result_key (entry_result (m, item))).
  by rewrite (proj2 (toBlobListResult_entry tbl space m item Htbl
                       (partition_lookup _ _ _ _ (Hpage _ (list_elem_of_here _ _))))).
Qed.

Lemma lastLinkCID_key space (entry : option (string * gmap string AttributeValue)) :
  (unmarshall <$> ((λ entry, key_item space entry.1) <$> entry)) ≫= (.!! "multihash")
  = (λ entry, JSString entry.1) <$> entry.
Proof. by destruct entry. Qed.

(** What [list] answers without a cursor when the backend is up, in terms
    of the space's partition of the table. *)
Lemma list_run σ space options :
  outage σ = None →
  decodable (table σ) →
  truthy_opt (cursor options) = false →
  1 ≤ page_limit options →
  let limit := Z.to_nat (page_limit options) in
  let all := partition (table σ) space in
  let page := if pre options then drop (length all - limit) all else take limit all in
  let full := bool_decide (length page = limit) in
  let first_key := (λ entry, JSString entry.1) <$> head page in
  let last_key := (λ entry, JSString entry.1) <$> last page in
  let after_ := if pre options then last_key else if full then last_key else None in
  (list_ space options σ).1
  = Return (ok {| r_size := length page;
                  before := if pre options then if full then first_key else None
                            else first_key;
                  after := after_;
                  r_cursor := after_;
                  results := entry_result <$> page |}).
Proof.
  intros Hup Htbl Hcursor Hlimit limit all page full first_key last_key after_.
  subst after_ first_key last_key full.
  unfold list_, bind. rewrite Hcursor. fold (page_limit options).
  rewrite send_up by done. cbn [fst snd run]. rewrite decide_True by done.
  cbn [Items LastEvaluatedKey default from_option id]. fold limit.
  unfold scan. fold all.
  set (page0 := take limit (if negb (pre options) then all else reverse all)).
  assert (Hpage0 : page0 ⊆ all).
  { subst page0. destruct (negb (pre options)); intros e He%subseteq_take; [done|].
    by rewrite elem_of_reverse in He. }
  fold listed_attributes.
  cbn [fst snd Items LastEvaluatedKey default from_option id].
  rewrite (map_throwing_entries (table σ) space page0 Htbl Hpage0).
  unfold lift, ret. cbn [fst].
  rewrite (firstLinkCID_key (table σ) space page0 Htbl Hpage0).
  rewrite length_fmap.
  destruct (pre options) eqn:Hpre; cbn [negb] in page0.
  - assert (Hrev : page0 = reverse page).
    { subst page0 page. apply take_reverse. }
    rewrite Hrev, length_reverse, head_reverse, <- fmap_reverse, reverse_involutive.
    case_bool_decide as Hfull.
    + rewrite decide_True by done. by rewrite lastLinkCID_key, last_reverse.
    + by rewrite decide_False by done.
  - change page0 with page. case_bool_decide as Hfull.
    + rewrite decide_True by done. by rewrite lastLinkCID_key.
    + by rewrite decide_False by done.
Qed.

(** C3 (amended). With the backend up, a table whose sort keys are base58btc
    strings, no cursor and a valid size: [list] answers the first [size]
    records of the space (20 when no size is given) in ascending order of
    their multihash, the table's sort key; with [pre] it answers the last
    [size] records, in the same ascending order, so both answer every
    record of a space that has no more than [size]. [size] counts the
    records answered, [cursor] is [after], [before] is the multihash of the
    first record answered and [after] that of the last, the one at the far
    end of the scan being given when the page is full. *)
Theorem list_by_multihash (σ : DynamoDBClient) (space : string) (options : ListOptions) :
  outage σ = None →
  decodable (table σ) →
  truthy_opt (cursor options) = false →
  1 ≤ page_limit options →
  let limit := Z.to_nat (page_limit options) in
  let all := partition (table σ) space in
  let page := if pre options then drop (length all - limit) all else take limit all in
  let full := bool_decide (length page = limit) in
  let first_key := (λ entry, JSString entry.1) <$> head page in
  let last_key := (λ entry, JSString entry.1) <$> last page in
  let after_ := if pre options then last_key else if full then last_key else None in
  (list_ space options σ).1
  = Return (ok {| r_size := length page;
                  before := if pre options then if full then first_key else None
                            else first_key;
                  after := after_;
                  r_cursor := after_;
                  results := entry_result <$> page |})
  ∧ (length page ≤ limit)%nat
  ∧ (o_size options = None → limit = 20%nat)
  ∧ StronglySorted (λ a b, string_le (result_key a) (result_key b)) (entry_result <$> page)
  ∧ ((length all ≤ limit)%nat → page = all).
Proof.
  intros Hup Htbl Hcursor Hlimit limit all page full first_key last_key after_.
  split; [by apply list_run|].
  assert (Hsub : page `sublist_of` all).
  { subst page. destruct (pre options); [apply sublist_drop|apply sublist_take]. }
  split; [|split; [|split]].
  - subst page. destruct (pre options).
    + rewrite length_drop. lia.
    + rewrite length_take. lia.
  - intros Hsize. subst limit. unfold page_limit. by rewrite Hsize.
  - by apply (result_keys_sorted (table σ) space).
  - intros Hfits. subst page. destruct (pre options).
    + by replace (length all - limit)%nat with 0%nat by lia.
    + by apply take_ge.
Qed.

End Allocations.

Module AllocationsCases.
Import DynamoDB Allocations.

(** A ledger with links spelled by their string form: two allocations in
    one space, the digest written first having the greater multihash. *)
Definition empty : DynamoDBClient := {| table := ∅; outage := None; sent := [] |}.

Definition alice : string := "did:key:z6MkhaXgBZDvotDkL5257faiztiGiC2QtKLGpbnnEGta2doK".
Definition digest_b : list byte := [x12; x20] ++ replicate 32 xbb.
Definition digest_1 : list byte := [x12; x20] ++ replicate 32 x11.

Definition first_input : BlobAddInput string :=
  {| space := alice; blob := {| digest := digest_b; size := 1024 |};
     cause := "bafyreifirst" |}.
Definition second_input : BlobAddInput string :=
  {| space := alice; blob := {| digest := digest_1; size := 2048 |};
     cause := "bafyreisecond" |}.

Definition one_allocation : DynamoDBClient :=
  (insert string id "2024-05-01T10:00:00.000Z" first_input empty).2.
Definition two_allocations : DynamoDBClient :=
  (insert string id "2024-05-02T10:00:00.000Z" second_input one_allocation).2.

Definition no_options : ListOptions := {| cursor := None; o_size := None; pre := false |}.
Definition backwards : ListOptions := {| cursor := None; o_size := None; pre := true |}.

Definition insertion_time (r : BlobListItem) : string :=
  match insertedAt r with Some (JSString t) => t | _ => "" end.

(** Ascending by insertion time, as ISO timestamps compare. *)
Definition by_insertion_time (rs : list BlobListItem) : Prop :=
  StronglySorted (λ a b, string_le (insertion_time a) (insertion_time b)) rs.


Lemma remove_idempotent_witness :
  (remove alice digest_b one_allocation).1 = Return (ok {| removed_size := Some 1024 |})
  ∧ (remove alice digest_b (remove alice digest_b one_allocation).2).1
    = Return (ok {| removed_size := Some 0 |}).
Proof.
  destruct (remove_idempotent one_allocation alice digest_b) as (_ & Hthere & _).
  destruct (Hthere (allocation_item string id "2024-05-01T10:00:00.000Z" first_input) 1024)
    as (Hfirst & _ & Hsecond).
  - reflexivity.
  - vm_compute. reflexivity.
  - vm_compute. reflexivity.
  - vm_compute. reflexivity.
  - split; [exact Hfirst|exact Hsecond].
Defined.

Lemma two_allocations_decodable : decodable (table two_allocations).
Proof. apply (bool_decide_unpack (decodable _)). vm_compute. reflexivity. Qed.

Lemma list_by_multihash_witness :
  (list_ alice no_options two_allocations).1
  = Return (ok {| r_size := 2;
                  before := Some (JSString (Base58.encode digest_1));
                  after := None;
                  r_cursor := None;
                  results :=
                    [ {| l_blob := {| digest := digest_1; size := Some (JSNumber 2048) |};
                         insertedAt := Some (JSString "2024-05-02T10:00:00.000Z") |};
                      {| l_blob := {| digest := digest_b; size := Some (JSNumber 1024) |};
                         insertedAt := Some (JSString "2024-05-01T10:00:00.000Z") |} ] |}).
Proof.
  destruct (list_by_multihash two_allocations alice no_options) as [Hlist _].
  - reflexivity.
  - exact two_allocations_decodable.
  - reflexivity.
  - vm_compute. discriminate.
  - rewrite Hlist. vm_compute. reflexivity.
Defined.

(** C3 (as stated, refuted). The allocation inserted second is listed
    first, so the records are not in ascending order of insertion time; and
    with [pre] the list is the same one, not its reverse. *)
Lemma list_not_by_insertion_time :
  ∃ r r',
    (list_ alice no_options two_allocations).1 = Return (ok r)
    ∧ (list_ alice backwards two_allocations).1 = Return (ok r')
    ∧ insertion_time <$> results r
      = ["2024-05-02T10:00:00.000Z"; "2024-05-01T10:00:00.000Z"]
    ∧ ¬ by_insertion_time (results r)
    ∧ results r' = results r
    ∧ results r' ≠ reverse (results r).
Proof.
  eexists _, _. split; [vm_compute; reflexivity|]. split; [vm_compute; reflexivity|].
  cbn [results]. split; [reflexivity|]. split; [|split; [reflexivity|discriminate]].
  intros Hsorted. apply StronglySorted_inv in Hsorted as [_ Hle].
  apply Forall_inv in Hle. vm_compute in Hle. by apply Hle.
Qed.

(** A cursor is sent as the attribute [link] of the exclusive start key,
    which the table's key schema does not have: the query is refused. *)
Lemma list_cursor_refused (σ : DynamoDBClient) (space c : string) (options : ListOptions) :
  outage σ = None →
  cursor options = Some c →
  truthy c = true →
  (list_ space options σ).1 = Throw ValidationException.
Proof.
  intros Hup Hcursor Htruthy. unfold list_, bind. rewrite Hcursor. cbn [truthy_opt].
  rewrite Htruthy. rewrite send_up by done. reflexivity.
Qed.

End AllocationsCases.

(** ** upload-api/stores/allocations.js: how the operations compose *)

Module AllocationsFacts.
Import DynamoDB Allocations.

Lemma table_key_inj space space' d d' :
  table_key space d = table_key space' d' → space = space' ∧ d = d'.
Proof.
  intros H. split; [exact (f_equal fst H)|].
  pose proof (f_equal (λ k, Base58.decode k.2) H) as Hd.
  unfold table_key in Hd. cbn [snd] in Hd.
  rewrite !Base58.decode_of_encode in Hd. congruence.
Qed.

Lemma partition_elem tbl space multihash item :
  tbl !! (space, multihash) = Some item → (multihash, item) ∈ partition tbl space.
Proof.
  intros Hitem. unfold partition. rewrite merge_sort_Permutation.
  apply list_elem_of_omap. exists (space, multihash, item).
  split; [by apply elem_of_map_to_list|]. cbn. by rewrite decide_True.
Qed.

Lemma partition_NoDup tbl space : NoDup (partition tbl space).*1.
Proof.
  unfold partition. rewrite merge_sort_Permutation.
  pose proof (NoDup_fst_map_to_list tbl) as H.
  induction (map_to_list tbl) as [|[[s m] item] l IH]; cbn; [constructor|].
  cbn in H. apply NoDup_cons in H as [Hhd Htl]. case_decide; cbn; [|auto].
  apply NoDup_cons. split; [|auto].
  intros ([m' item'] & Hm & ([[s'' m''] item''] & Hin & Hk)%list_elem_of_omap)%list_elem_of_fmap.
  cbn in Hk, Hm. case_decide; [|done]. simplify_eq. apply Hhd.
  apply list_elem_of_fmap. by eexists (_, _, item').
Qed.

Lemma exists_run space blobMultihash σ :
  exists_ space blobMultihash σ
  = (Return (ok (match outage σ with
                 | Some _ => false
                 | None => bool_decide (is_Some (table σ !! table_key space blobMultihash))
                 end)),
     logged σ (GetItemCommand (getKey space blobMultihash) (Some ["space"])) (table σ)).
Proof.
  unfold exists_, try_catch, bind. destruct (outage σ) as [e|] eqn:Hup.
  - by rewrite (send_down _ _ e).
  - rewrite send_up by done. unfold run. rewrite exact_key_getKey. cbn [fst snd Item ret].
    f_equal. f_equal. f_equal. apply bool_decide_ext. by rewrite fmap_is_Some.
Qed.

Section Links.

Variable Link : Type.
Variable Link_toString : Link → string.
Variable Link_parse : string → Completion Link.

Abbreviation get_ := (get Link Link_parse).
Abbreviation insert_ := (insert Link Link_toString).

(** What [get] makes of a stored item. *)
Definition allocation_of (item : gmap string AttributeValue)
    : Completion (Result (Allocation Link) StoreError) :=
  let raw := unmarshall item in
  match base58btc_decode (raw !! "multihash") with
  | Throw e => Throw e
  | Return bytes =>
      match match raw !! "cause" with
            | Some (JSString s) => Link_parse s
            | _ => Throw TypeError
            end with
      | Throw e => Throw e
      | Return link =>
          Return (ok {| a_blob := {| digest := bytes; size := raw !! "size" |};
                        a_cause := link |})
      end
  end.

Lemma get_run space blobMultihash σ :
  get_ space blobMultihash σ
  = (match outage σ with
     | Some e => Throw e
     | None =>
         match table σ !! table_key space blobMultihash with
         | None => Return (error RecordNotFound)
         | Some item => allocation_of item
         end
     end,
     logged σ (GetItemCommand (getKey space blobMultihash) None) (table σ)).
Proof.
  unfold get, bind. destruct (outage σ) as [e|] eqn:Hup.
  - by rewrite (send_down _ _ e).
  - rewrite send_up by done. unfold run. rewrite exact_key_getKey. cbn [fst snd Item].
    destruct (table σ !! table_key space blobMultihash) as [item|]; [|done].
    cbn [fmap option_fmap option_map from_option id]. unfold lift, allocation_of.
    destruct (base58btc_decode _); [|done].
    by destruct (match unmarshall item !! "cause" with
                 | Some (JSString s) => Link_parse s | _ => Throw TypeError end).
Qed.

(** What an [insert] and a [remove] can have done to the table. *)
Lemma insert_table now input σ :
  outage (insert_ now input σ).2 = outage σ
  ∧ (table (insert_ now input σ).2 = table σ
     ∨ table (insert_ now input σ).2
       = <[table_key (space input) (digest (blob input)) :=
             allocation_item Link Link_toString now input]> (table σ)).
Proof.
  rewrite insert_run. destruct (outage σ) as [e|] eqn:Hup; [by auto|].
  destruct (holds names not_exists _); cbn; rewrite Hup; auto.
Qed.

Lemma remove_table space blobMultihash σ :
  outage (remove space blobMultihash σ).2 = outage σ
  ∧ (table (remove space blobMultihash σ).2 = table σ
     ∨ table (remove space blobMultihash σ).2
       = delete (table_key space blobMultihash) (table σ)).
Proof.
  rewrite remove_run. destruct (outage σ) as [e|] eqn:Hup; [by auto|].
  destruct (table σ !! _) as [item|]; [|by cbn; rewrite Hup; auto].
  destruct (holds names does_exist _); cbn; rewrite Hup; auto.
Qed.

(** X17. [exists] never fails: it answers ok, true exactly when the store is
    up and holds a record under the space and digest, and false when the
    store fails; it leaves the table as it is. *)
Theorem exists_answers (space : string) (blobMultihash : list byte) (σ : DynamoDBClient) :
  (exists_ space blobMultihash σ).1
  = Return (ok (match outage σ with
                | Some _ => false
                | None => bool_decide (is_Some (table σ !! table_key space blobMultihash))
                end))
  ∧ table (exists_ space blobMultihash σ).2 = table σ.
Proof. by rewrite exists_run. Qed.

(** X18. When the store fails with anything but the conditional-check
    failure, [get], [insert] and [list] throw the store's error while
    [exists] answers ok false, and none of them, nor [remove], changes the
    table. *)
Theorem failures_surface (tbl : gmap (string * string) (gmap string AttributeValue))
    (log : list { A : Type & Command A }) (e : JSError)
    (space : string) (blobMultihash : list byte) (now : string)
    (input : BlobAddInput Link) (options : ListOptions) :
  name e ≠ "ConditionalCheckFailedException" →
  let σ := {| table := tbl; outage := Some e; sent := log |} in
  (get_ space blobMultihash σ).1 = Throw e
  ∧ (insert_ now input σ).1 = Throw e
  ∧ (list_ space options σ).1 = Throw e
  ∧ (exists_ space blobMultihash σ).1 = Return (ok false)
  ∧ table (get_ space blobMultihash σ).2 = tbl
  ∧ table (insert_ now input σ).2 = tbl
  ∧ table (list_ space options σ).2 = tbl
  ∧ table (exists_ space blobMultihash σ).2 = tbl
  ∧ table (remove space blobMultihash σ).2 = tbl.
Proof.
  intros Hname σ. rewrite get_run, insert_run, exists_run, remove_run. cbn [outage σ].
  rewrite decide_False by done. unfold list_, bind.
  rewrite (send_down _ σ e) by done. done.
Qed.

(** [Number.MAX_SAFE_INTEGER]. The SDK's [marshall] writes a number that is
    a safe integer and throws on one beyond, while the command is built. *)
Definition MAX_SAFE_INTEGER : Z := 2 ^ 53 - 1.
Definition safe_integer (n : Z) : Prop := - MAX_SAFE_INTEGER ≤ n ≤ MAX_SAFE_INTEGER.

(** X19. On a store that is up, an [insert] of a space and digest that have
    no record, with a size that is a safe integer, succeeds, and a [remove]
    of them right after answers the inserted size and leaves the table as
    it was before the insert. *)
Theorem insert_then_remove (now : string) (input : BlobAddInput Link) (σ : DynamoDBClient) :
  safe_integer (size (blob input)) →
  outage σ = None →
  table σ !! table_key (space input) (digest (blob input)) = None →
  let inserted := insert_ now input σ in
  let removed := remove (space input) (digest (blob input)) inserted.2 in
  inserted.1 = Return (ok (blob input))
  ∧ removed.1 = Return (ok {| removed_size := Some (size (blob input)) |})
  ∧ table removed.2 = table σ.
Proof.
  intros _ Hup Habsent inserted removed. subst removed inserted.
  rewrite insert_run, Hup, Habsent. change (holds names not_exists None) with true.
  cbn [fst snd].
  split; [done|]. rewrite remove_run. cbn [outage logged table]. rewrite Hup.
  rewrite lookup_insert_eq, (proj2 (allocation_item_exists _ Link_toString now input)).
  cbn [fst snd logged table]. split; [done|]. by apply delete_insert_id.
Qed.

(** X20. An [insert] or [remove] of one space and digest changes what
    [exists] and [get] answer for no other space and digest. *)
Theorem other_records_untouched (now : string) (input : BlobAddInput Link)
    (space' : string) (digest' : list byte) (σ : DynamoDBClient) :
  (space', digest') ≠ (space input, digest (blob input)) →
  let inserted := (insert_ now input σ).2 in
  let removed := (remove (space input) (digest (blob input)) σ).2 in
  (exists_ space' digest' inserted).1 = (exists_ space' digest' σ).1
  ∧ (get_ space' digest' inserted).1 = (get_ space' digest' σ).1
  ∧ (exists_ space' digest' removed).1 = (exists_ space' digest' σ).1
  ∧ (get_ space' digest' removed).1 = (get_ space' digest' σ).1.
Proof.
  intros Hother inserted removed.
  assert (Hkey : table_key (space input) (digest (blob input)) ≠ table_key space' digest').
  { intros [Hs Hd]%table_key_inj. apply Hother. congruence. }
  assert (Hinserted : outage inserted = outage σ
            ∧ table inserted !! table_key space' digest'
              = table σ !! table_key space' digest').
  { destruct (insert_table now input σ) as [Hup [Htbl|Htbl]]; subst inserted;
      rewrite Htbl; (split; [done|]); [done|by apply lookup_insert_ne]. }
  assert (Hremoved : outage removed = outage σ
            ∧ table removed !! table_key space' digest'
              = table σ !! table_key space' digest').
  { destruct (remove_table (space input) (digest (blob input)) σ) as [Hup [Htbl|Htbl]];
      subst removed; rewrite Htbl; (split; [done|]); [done|by apply lookup_delete_ne]. }
  destruct Hinserted as [Hi_up Hi_tbl], Hremoved as [Hr_up Hr_tbl].
  rewrite !exists_run, !get_run. cbn [fst]. by rewrite Hi_up, Hi_tbl, Hr_up, Hr_tbl.
Qed.

(** An operation that changes the ledger, and a history of them. *)
Inductive Operation :=
| Insert (now : string) (input : BlobAddInput Link)
| Remove (space : string) (blobMultihash : list byte).

Definition perform (σ : DynamoDBClient) (operation : Operation) : DynamoDBClient :=
  match operation with
  | Insert now input => (insert_ now input σ).2
  | Remove space blobMultihash => (remove space blobMultihash σ).2
  end.

Lemma perform_decodable σ operation :
  decodable (table σ) → decodable (table (perform σ operation)).
Proof.
  intros Htbl. destruct operation as [now input|space blobMultihash]; cbn [perform].
  - destruct (insert_table now input σ) as [_ [->| ->]]; [done|].
    apply map_Forall_insert_2; [|done]. split; [done|].
    cbn [snd table_key]. rewrite Base58.decode_of_encode. by eexists.
  - destruct (remove_table space blobMultihash σ) as [_ [->| ->]]; [done|].
    by apply map_Forall_delete.
Qed.

(** X21. In every table reached from the empty one by inserts and removes,
    whether they succeed or not, each item carries the key it is stored
    under and each sort key is a base58btc string. *)
Theorem ledger_decodable (history : list Operation) (failure : option JSError)
    (log : list { A : Type & Command A }) :
  decodable (table (foldl perform {| table := ∅; outage := failure; sent := log |} history)).
Proof.
  induction history as [|operation history IH] using rev_ind.
  - apply map_Forall_empty.
  - rewrite foldl_snoc. by apply perform_decodable.
Qed.

(** X22. On a store that is up and whose items carry their keys, once
    [remove] of a space and digest has run, [exists] of them answers false
    and [get] answers [RecordNotFound]. *)
Theorem removed_is_gone (space : string) (blobMultihash : list byte) (σ : DynamoDBClient) :
  outage σ = None →
  decodable (table σ) →
  let removed := (remove space blobMultihash σ).2 in
  (exists_ space blobMultihash removed).1 = Return (ok false)
  ∧ (get_ space blobMultihash removed).1 = Return (error RecordNotFound).
Proof.
  intros Hup Htbl removed.
  assert (Hgone : outage removed = None
                  ∧ table removed !! table_key space blobMultihash = None).
  { subst removed. rewrite remove_run, Hup.
    destruct (table σ !! table_key space blobMultihash) as [item|] eqn:Hitem; [|done].
    rewrite (holds_does_exist item (table_key space blobMultihash))
      by apply (Htbl _ _ Hitem).
    split; [done|]. apply lookup_delete_eq. }
  destruct Hgone as [Hr_up Hr_tbl].
  rewrite exists_run, get_run. cbn [fst]. by rewrite Hr_up, Hr_tbl.
Qed.

(** X23. After a successful [insert] into a store that is up, [list] of the
    space without a cursor, with a page that takes all the space's records,
    answers the inserted record among its results: its digest, its size and
    the time of the insert. *)
Theorem inserted_is_listed (now : string) (input : BlobAddInput Link)
    (options : ListOptions) (σ : DynamoDBClient) :
  outage σ = None →
  decodable (table σ) →
  table σ !! table_key (space input) (digest (blob input)) = None →
  truthy_opt (cursor options) = false →
  1 ≤ page_limit options →
  let inserted := (insert_ now input σ).2 in
  (length (partition (table inserted) (space input)) ≤ Z.to_nat (page_limit options))%nat →
  ∃ r, (list_ (space input) options inserted).1 = Return (ok r)
       ∧ {| l_blob := {| digest := digest (blob input);
                         size := Some (JSNumber (size (blob input))) |};
            insertedAt := Some (JSString now) |} ∈ results r.
Proof.
  intros Hup Htbl Habsent Hcursor Hlimit inserted Hfits.
  assert (Hinserted : outage inserted = None
    ∧ table inserted = <[table_key (space input) (digest (blob input)) :=
                           allocation_item Link Link_toString now input]> (table σ)).
  { subst inserted. rewrite insert_run, Hup, Habsent. done. }
  destruct Hinserted as [Hi_up Hi_tbl].
  assert (Hi_dec : decodable (table inserted)) by apply (perform_decodable σ (Insert now input) Htbl).
  eexists. split; [by apply list_run|]. cbn [results].
  set (all := partition (table inserted) (space input)) in *.
  replace (if pre options then _ else _) with all.
  - apply list_elem_of_fmap.
    exists (Base58.encode (digest (blob input)), allocation_item Link Link_toString now input).
    split.
    + unfold entry_result. cbn [fst snd]. by rewrite Base58.decode_of_encode.
    + apply partition_elem. rewrite Hi_tbl. apply lookup_insert_eq.
  - destruct (pre options).
    + by replace (length all - _)%nat with 0%nat by lia.
    + by rewrite take_ge.
Qed.

End Links.

(** X24. With the store up and sort keys that are base58btc strings, [list]
    without a cursor answers only records the table holds under the asked
    space, no record twice, and [size] counts them. *)
Theorem list_own_records (σ : DynamoDBClient) (space : string) (options : ListOptions) :
  outage σ = None →
  decodable (table σ) →
  truthy_opt (cursor options) = false →
  1 ≤ page_limit options →
  ∃ r, (list_ space options σ).1 = Return (ok r)
       ∧ Forall (λ item, is_Some (table σ !! (space, result_key item))) (results r)
       ∧ NoDup (result_key <$> results r)
       ∧ r_size r = length (results r).
Proof.
  intros Hup Htbl Hcursor Hlimit. eexists. split; [by apply list_run|].
  cbn [results r_size].
  set (page := if pre options then _ else _).
  assert (Hsub : page `sublist_of` partition (table σ) space).
  { subst page. destruct (pre options); [apply sublist_drop|apply sublist_take]. }
  assert (Hkeys : result_key <$> (entry_result <$> page) = page.*1).
  { rewrite <- list_fmap_compose. apply list_fmap_ext. intros i [m item] Hi. cbn.
    apply (toBlobListResult_entry (table σ) space m item Htbl).
    apply partition_lookup, (sublist_subseteq _ _ Hsub), (list_elem_of_lookup_2 _ i), Hi. }
  split; [|split].
  - apply Forall_fmap, Forall_forall. intros [m item] Hin%(sublist_subseteq _ _ Hsub).
    apply partition_lookup in Hin. cbn.
    rewrite (proj2 (toBlobListResult_entry (table σ) space m item Htbl Hin)). by eexists.
  - rewrite Hkeys. eapply sublist_NoDup; [apply (partition_NoDup (table σ) space)|].
    by apply fmap_sublist.
  - by rewrite length_fmap.
Qed.

(** X25. With the store up, [list] with a cursor throws the store's
    validation error and leaves the table as it is: the cursor is sent as
    the attribute [link] of the start key, which the table's key does not
    have. *)
Theorem list_with_cursor_throws (σ : DynamoDBClient) (space c : string)
    (options : ListOptions) :
  outage σ = None →
  cursor options = Some c →
  truthy c = true →
  (list_ space options σ).1 = Throw ValidationException
  ∧ table (list_ space options σ).2 = table σ.
Proof.
  intros Hup Hcursor Htruthy. unfold list_, bind. rewrite Hcursor. cbn [truthy_opt].
  rewrite Htruthy. rewrite send_up by done. done.
Qed.

End AllocationsFacts.

Module AllocationsFactsCases.
Import DynamoDB Allocations AllocationsCases AllocationsFacts.

Definition throttled : JSError :=
  mkError "ProvisionedThroughputExceededException" "Rate exceeded" (Some 400).
Definition failing : DynamoDBClient :=
  {| table := table one_allocation; outage := Some throttled; sent := [] |}.
Definition with_cursor : ListOptions :=
  {| cursor := Some (Base58.encode digest_1); o_size := None; pre := false |}.

Lemma failures_surface_witness :
  (get string Return alice digest_b failing).1 = Throw throttled
  ∧ (insert string id "2024-05-02T10:00:00.000Z" second_input failing).1 = Throw throttled
  ∧ (list_ alice no_options failing).1 = Throw throttled
  ∧ (exists_ alice digest_b failing).1 = Return (ok false).
Proof.
  destruct (failures_surface string id Return (table one_allocation) [] throttled
              alice digest_b "2024-05-02T10:00:00.000Z" second_input no_options)
    as (Hget & Hinsert & Hlist & Hexists & _).
  - discriminate.
  - split; [exact Hget|]. split; [exact Hinsert|]. split; [exact Hlist|exact Hexists].
Defined.

Lemma insert_then_remove_witness :
  let inserted := insert string id "2024-05-02T10:00:00.000Z" second_input one_allocation in
  let removed := remove alice digest_1 inserted.2 in
  inserted.1 = Return (ok (blob second_input))
  ∧ removed.1 = Return (ok {| removed_size := Some 2048 |})
  ∧ table removed.2 = table one_allocation.
Proof.
  apply (insert_then_remove string id "2024-05-02T10:00:00.000Z" second_input
           one_allocation).
  - unfold safe_integer, MAX_SAFE_INTEGER. cbn. lia.
  - reflexivity.
  - vm_compute. reflexivity.
Defined.

Lemma other_records_untouched_witness :
  (exists_ alice digest_b two_allocations).1 = (exists_ alice digest_b one_allocation).1
  ∧ (get string Return alice digest_b two_allocations).1
    = (get string Return alice digest_b one_allocation).1.
Proof.
  destruct (other_records_untouched string id Return "2024-05-02T10:00:00.000Z"
              second_input alice digest_b one_allocation) as (Hexists & Hget & _).
  - discriminate.
  - split; [exact Hexists|exact Hget].
Defined.

Lemma removed_is_gone_witness :
  let removed := (remove alice digest_b two_allocations).2 in
  (exists_ alice digest_b removed).1 = Return (ok false)
  ∧ (get string Return alice digest_b removed).1 = Return (error RecordNotFound).
Proof.
  apply (removed_is_gone string Return alice digest_b two_allocations).
  - reflexivity.
  - exact two_allocations_decodable.
Defined.

Lemma one_allocation_decodable : decodable (table one_allocation).
Proof. apply (bool_decide_unpack (decodable _)). vm_compute. reflexivity. Qed.

Lemma inserted_is_listed_witness :
  ∃ r, (list_ alice no_options two_allocations).1 = Return (ok r)
       ∧ {| l_blob := {| digest := digest_1; size := Some (JSNumber 2048) |};
            insertedAt := Some (JSString "2024-05-02T10:00:00.000Z") |} ∈ results r.
Proof.
  apply (inserted_is_listed string id "2024-05-02T10:00:00.000Z" second_input no_options
           one_allocation).
  - reflexivity.
  - exact one_allocation_decodable.
  - vm_compute. reflexivity.
  - reflexivity.
  - vm_compute. discriminate.
  - apply Nat.leb_le. vm_compute. reflexivity.
Defined.

Lemma list_own_records_witness :
  ∃ r, (list_ alice backwards two_allocations).1 = Return (ok r)
       ∧ Forall (λ item, is_Some (table two_allocations !! (alice, result_key item)))
           (results r)
       ∧ NoDup (result_key <$> results r)
       ∧ r_size r = length (results r).
Proof.
  apply (list_own_records two_allocations alice backwards).
  - reflexivity.
  - exact two_allocations_decodable.
  - reflexivity.
  - vm_compute. discriminate.
Defined.

Lemma list_with_cursor_throws_witness :
  (list_ alice with_cursor two_allocations).1 = Throw ValidationException
  ∧ table (list_ alice with_cursor two_allocations).2 = table two_allocations.
Proof.
  apply (list_with_cursor_throws two_allocations alice (Base58.encode digest_1) with_cursor).
  - reflexivity.
  - reflexivity.
  - vm_compute. reflexivity.
Defined.

End AllocationsFactsCases.

(** ** upload-api/tables/space-metrics.js *)

Module SpaceMetrics.
Import DynamoDB.

(** The space-metrics table: its items are keyed by [consumer] and [name].
    A client whose [failure] is set fails every command with that error. *)
Record MetricsClient := {
  metrics : gmap (string * string) (gmap string AttributeValue);
  failure : option JSError
}.

(** A key names the two key attributes and nothing else. *)
Definition metrics_key (key : gmap string AttributeValue) : option (string * string) :=
  if decide (size key = 2%nat) then
    match key !! "consumer", key !! "name" with
    | Some (attr_S consumer), Some (attr_S name) => Some (consumer, name)
    | _, _ => None
    end
  else None.

(** [GetItemCommand] with [AttributesToGet] on this table. *)
Definition send_GetItem (key : gmap string AttributeValue) (attributes : list string)
    : Async MetricsClient GetItemOutput := λ σ,
  match failure σ with
  | Some e => (Throw e, σ)
  | None =>
      match metrics_key key with
      | None => (Throw ValidationException, σ)
      | Some k => (Return {| Item := project attributes <$> metrics σ !! k |}, σ)
      end
  end.

(** Return the total amount of of storage a space has used: the [value] of
    the consumer's 'store/add-size-total' item, [undefined] ([None]) when
    the item has no such attribute, and 0 when there is no item. *)
Definition getAllocated (consumer : string)
    : Async MetricsClient (option Allocations.JSValue) :=
  let* response :=
    send_GetItem
      (Allocations.marshall
         {[ "consumer" := Allocations.JSString consumer;
            "name" := Allocations.JSString "store/add-size-total" ]})
      ["value"] in
  ret (match Item response with
       | Some item => Allocations.unmarshall item !! "value"
       | None => Some (Allocations.JSNumber 0)
       end).

(** X26. On a table that is up, [getAllocated] of a consumer answers the
    [value] of the consumer's 'store/add-size-total' item and 0 when the
    consumer has no such item, whatever other metrics the table holds; when
    the table fails it throws the table's error. *)
Theorem getAllocated_answers (consumer : string)
    (tbl : gmap (string * string) (gmap string AttributeValue)) :
  let σ := {| metrics := tbl; failure := None |} in
  getAllocated consumer σ
  = (Return (match tbl !! (consumer, "store/add-size-total") with
             | Some item =>
                 match item !! "value" with
                 | Some (attr_S s) => Some (Allocations.JSString s)
                 | Some (attr_N n) => Some (Allocations.JSNumber n)
                 | None => None
                 end
             | None => Some (Allocations.JSNumber 0)
             end), σ)
  ∧ ∀ e, getAllocated consumer {| metrics := tbl; failure := Some e |}
         = (Throw e, {| metrics := tbl; failure := Some e |}).
Proof.
  intros σ. split; [|done]. subst σ. unfold getAllocated, bind, send_GetItem.
  cbn [failure metrics].
  change (metrics_key _) with (Some (consumer, "store/add-size-total")).
  cbn [Item ret]. destruct (tbl !! (consumer, "store/add-size-total")) as [item|]; [|done].
  cbn [fmap option_fmap option_map]. unfold Allocations.unmarshall.
  rewrite lookup_fmap, project_lookup by (apply list_elem_of_In; simpl; tauto).
  by destruct (item !! "value") as [[s|n]|].
Qed.

End SpaceMetrics.

(** ** billing/data/space-snapshot.js *)

Module SpaceSnapshot.
Import JSDate.

(** [BigInt.prototype.toString]: the decimal digits, after a minus sign for
    a negative value. *)
Definition BigInt_toString (n : Z) : string := NilZero.string_of_int (Z.to_int n).

(** [BigInt(string)] for decimal literals, with a minus sign for a negative
    one; the empty string is 0n and anything else a SyntaxError. *)
Definition BigInt (s : string) : Completion Z :=
  if String.eqb s "" then Return 0
  else match NilZero.int_of_string s with
       | Some d => Return (Z.of_int d)
       | None => Throw (mkError "SyntaxError" ("Cannot convert " +:+ s +:+ " to a BigInt") None)
       end.

(** [Schema.did({ method }).from(value)] (ucanto): the value itself when it
    starts with [did:] and the method, an error thrown otherwise. *)
Definition did_prefix (method : option string) : string :=
  match method with
  | Some method => "did:" +:+ method +:+ ":"
  | None => "did:"
  end.
Definition did_from (method : option string) (value : string) : Completion string :=
  if startsWith value (did_prefix method) then Return value
  else Throw (mkError "Error"
                ("Expected a " +:+ did_prefix method +:+ " but got " +:+ value +:+ " instead")
                None).

Record SpaceSnapshot := {
  provider : string;
  space : string;
  size : Z;
  recordedAt : Date;
  insertedAt : Date
}.

Record SpaceSnapshotStoreRecord := {
  pk : string;
  s_space : string;
  s_provider : string;
  s_size : string;
  s_recordedAt : string;
  s_insertedAt : string
}.

Inductive Failure :=
| EncodeFailure (message : string)
| DecodeFailure (message : string).

(** A Date that is not the invalid date: its time value is in range. *)
Definition valid_date (date : Date) : Prop :=
  match date with
  | TimeValue t => Z.abs t ≤ maxTime
  | InvalidDate => False
  end.

(** [schema]: the provider a did:web DID, the space a DID, the size a
    bigint that is at least 0n, and two dates. *)
Definition schema (input : SpaceSnapshot) : Prop :=
  startsWith (provider input) (did_prefix (Some "web")) = true
  ∧ startsWith (space input) (did_prefix None) = true
  ∧ 0 ≤ size input
  ∧ valid_date (recordedAt input)
  ∧ valid_date (insertedAt input).

Definition encode (input : SpaceSnapshot) : Result SpaceSnapshotStoreRecord Failure :=
  let record :=
    match toISOString (recordedAt input) with
    | Throw err => Throw err
    | Return recorded =>
        match toISOString (insertedAt input) with
        | Throw err => Throw err
        | Return inserted =>
            Return {| pk := space input +:+ "#" +:+ provider input;
                      s_space := space input;
                      s_provider := provider input;
                      s_size := BigInt_toString (size input);
                      s_recordedAt := recorded;
                      s_insertedAt := inserted |}
        end
    end in
  match record with
  | Return record => ok record
  | Throw err =>
      error (EncodeFailure ("encoding space snapshot record: " +:+ JS.message err))
  end.

Definition decode (input : SpaceSnapshotStoreRecord) : Result SpaceSnapshot Failure :=
  let snapshot :=
    match did_from None (s_space input) with
    | Throw err => Throw err
    | Return space =>
        match did_from (Some "web") (s_provider input) with
        | Throw err => Throw err
        | Return provider =>
            match BigInt (s_size input) with
            | Throw err => Throw err
            | Return size =>
                Return {| provider := provider;
                          space := space;
                          size := size;
                          recordedAt := new_Date (s_recordedAt input);
                          insertedAt := new_Date (s_insertedAt input) |}
            end
        end
    end in
  match snapshot with
  | Return snapshot => ok snapshot
  | Throw err =>
      error (DecodeFailure ("decoding space snapshot record: " +:+ JS.message err))
  end.

(** *** Decoding an encoded record *)

Lemma BigInt_toString_nonempty n : BigInt_toString n ≠ "".
Proof.
  unfold BigInt_toString. destruct n as [|p|p]; cbn; [done| |done].
  unfold NilZero.string_of_uint. pose proof (DecimalPos.Unsigned.to_uint_nonnil p).
  destruct (Pos.to_uint p); try done.
Qed.

Lemma BigInt_of_toString n : BigInt (BigInt_toString n) = Return n.
Proof.
  unfold BigInt. rewrite (proj2 (String.eqb_neq _ _) (BigInt_toString_nonempty n)).
  unfold BigInt_toString. rewrite NilZero.isi.
  - by rewrite DecimalZ.of_to.
  - destruct n as [|p|p]; cbn; try done.
    intros [= H]. by apply DecimalPos.Unsigned.to_uint_nonnil in H.
  - destruct n as [|p|p]; cbn; try done.
    intros [= H]. by apply DecimalPos.Unsigned.to_uint_nonnil in H.
Qed.

Lemma valid_date_round_trip date :
  valid_date date → ∃ s, toISOString date = Return s ∧ new_Date s = date.
Proof. destruct date as [t|]; [|done]. apply new_Date_toISOString. Qed.

(** C10. For a space snapshot that satisfies the schema, [encode] returns a
    record and [decode] of that record returns the snapshot itself: the same
    provider and space, the size as the same bigint, and the two dates with
    the same time values (milliseconds). Neither returns an error. *)
Theorem decode_encode (input : SpaceSnapshot) :
  schema input →
  ∃ record, encode input = ok record ∧ decode record = ok input.
Proof.
  intros (Hprovider & Hspace & _ & Hrecorded & Hinserted).
  destruct (valid_date_round_trip _ Hrecorded) as (recorded & Hr & Hr').
  destruct (valid_date_round_trip _ Hinserted) as (inserted & Hi & Hi').
  eexists. unfold encode. rewrite Hr, Hi. split; [reflexivity|].
  unfold decode, did_from. cbn [s_space s_provider s_size s_recordedAt s_insertedAt].
  rewrite Hspace, Hprovider, BigInt_of_toString, Hr', Hi'.
  by destruct input.
Qed.

End SpaceSnapshot.

Module SpaceSnapshotCases.
Import JSDate SpaceSnapshot.

Definition snapshot : SpaceSnapshot.SpaceSnapshot :=
  {| provider := "did:web:web3.storage";
     space := "did:key:z6Mksjp3Mbe7TnQbYK43NECF7TRuDGZu9xdzeLg379Dw66mF";
     size := 18446744073709551616;
     recordedAt := TimeValue 1714521600000;
     insertedAt := TimeValue 1714557600123 |}.

Lemma decode_encode_witness :
  ∃ record, encode snapshot = ok record ∧ decode record = ok snapshot.
Proof.
  apply decode_encode. unfold schema, snapshot, valid_date, maxTime. cbn.
  repeat split; (reflexivity || lia).
Defined.

Example encode_snapshot :
  encode snapshot
  = ok {| pk := "did:key:z6Mksjp3Mbe7TnQbYK43NECF7TRuDGZu9xdzeLg379Dw66mF#did:web:web3.storage";
          s_space := "did:key:z6Mksjp3Mbe7TnQbYK43NECF7TRuDGZu9xdzeLg379Dw66mF";
          s_provider := "did:web:web3.storage";
          s_size := "18446744073709551616";
          s_recordedAt := "2024-05-01T00:00:00.000Z";
          s_insertedAt := "2024-05-01T10:00:00.123Z" |}.
Proof. reflexivity. Qed.

End SpaceSnapshotCases.

(** ** billing/data/space-snapshot.js: keys, and what the codecs check *)

Module SpaceSnapshotFacts.
Import JSDate SpaceSnapshot.

(** [SpaceSnapshotKey] and its store record. *)
Record SpaceSnapshotKey := {
  k_provider : string;
  k_space : string;
  k_recordedAt : Date
}.
Record SpaceSnapshotKeyStoreRecord := {
  k_pk : string;
  ks_recordedAt : string
}.

(** [encodeKey] has no try block: what [toISOString] throws, it throws. *)
Definition encodeKey (input : SpaceSnapshotKey)
    : Completion (Result SpaceSnapshotKeyStoreRecord Failure) :=
  match toISOString (k_recordedAt input) with
  | Throw err => Throw err
  | Return recorded =>
      Return (ok {| k_pk := k_space input +:+ "#" +:+ k_provider input;
                    ks_recordedAt := recorded |})
  end.

(** The key of a snapshot. *)
Definition snapshot_key (input : SpaceSnapshot) : SpaceSnapshotKey :=
  {| k_provider := provider input; k_space := space input;
     k_recordedAt := recordedAt input |}.

Lemma toISOString_TimeValue t : ∃ s, toISOString (TimeValue t) = Return s.
Proof.
  unfold toISOString. destruct (civil_from_days (t / msPerDay)) as [[y m] d]. by eexists.
Qed.

(** X27. [encode] answers [EncodeFailure] "encoding space snapshot record:
    Invalid time value" when one of the two dates is the invalid date. *)
Theorem encode_invalid_date (input : SpaceSnapshot) :
  recordedAt input = InvalidDate ∨ insertedAt input = InvalidDate →
  encode input
  = error (EncodeFailure "encoding space snapshot record: Invalid time value").
Proof.
  unfold encode. intros [H|H]; rewrite H; [done|].
  destruct (recordedAt input) as [t|]; [|done].
  by destruct (toISOString_TimeValue t) as [s ->].
Qed.

(** X28. [decode] answers [DecodeFailure], with a message that starts
    "decoding space snapshot record: ", and does not throw, for a record
    whose space does not start with [did:] or whose provider does not start
    with [did:web:]; the answer is the same whatever the record's size and
    dates are, which are not read. *)
Theorem decode_not_a_did (record : SpaceSnapshotStoreRecord) :
  startsWith (s_space record) "did:" = false
  ∨ startsWith (s_provider record) "did:web:" = false →
  ∃ reason,
    decode record = error (DecodeFailure ("decoding space snapshot record: " +:+ reason))
    ∧ ∀ size recorded inserted,
        decode {| pk := pk record; s_space := s_space record;
                  s_provider := s_provider record; s_size := size;
                  s_recordedAt := recorded; s_insertedAt := inserted |}
        = decode record.
Proof.
  unfold decode, did_from. cbn [s_space s_provider s_size s_recordedAt s_insertedAt].
  change (did_prefix None) with "did:". change (did_prefix (Some "web")) with "did:web:".
  intros [Hspace|Hprovider].
  - rewrite Hspace. by eexists.
  - rewrite Hprovider. destruct (startsWith (s_space record) "did:"); by eexists.
Qed.

(** X29. For a snapshot that [encode] accepts, [encodeKey] of its key
    answers the [pk] and [recordedAt] that [encode] writes; for a key whose
    date is invalid [encodeKey] throws the RangeError. *)
Theorem encodeKey_agrees (input : SpaceSnapshot) (record : SpaceSnapshotStoreRecord) :
  encode input = ok record →
  encodeKey (snapshot_key input)
  = Return (ok {| k_pk := pk record; ks_recordedAt := s_recordedAt record |})
  ∧ ∀ p s, encodeKey {| k_provider := p; k_space := s; k_recordedAt := InvalidDate |}
           = Throw (mkError "RangeError" "Invalid time value" None).
Proof.
  unfold encode, encodeKey, snapshot_key. cbn [k_provider k_space k_recordedAt].
  destruct (toISOString (recordedAt input)) as [recorded|]; [|done].
  destruct (toISOString (insertedAt input)) as [inserted|]; [|done].
  by intros [= <-].
Qed.

End SpaceSnapshotFacts.

Module SpaceSnapshotFactsCases.
Import JSDate SpaceSnapshot SpaceSnapshotCases SpaceSnapshotFacts.

Definition undated : SpaceSnapshot.SpaceSnapshot :=
  {| provider := provider snapshot; space := space snapshot; size := size snapshot;
     recordedAt := recordedAt snapshot; insertedAt := InvalidDate |}.

Definition stored_snapshot : SpaceSnapshotStoreRecord :=
  {| pk := "did:key:z6Mksjp3Mbe7TnQbYK43NECF7TRuDGZu9xdzeLg379Dw66mF#did:web:web3.storage";
     s_space := "did:key:z6Mksjp3Mbe7TnQbYK43NECF7TRuDGZu9xdzeLg379Dw66mF";
     s_provider := "did:web:web3.storage";
     s_size := "18446744073709551616";
     s_recordedAt := "2024-05-01T00:00:00.000Z";
     s_insertedAt := "2024-05-01T10:00:00.123Z" |}.

Lemma encode_invalid_date_witness :
  encode undated
  = error (EncodeFailure "encoding space snapshot record: Invalid time value").
Proof. apply (encode_invalid_date undated). right. reflexivity. Defined.

(** A record whose provider is a did:key. *)
Definition foreign_provider : SpaceSnapshotStoreRecord :=
  {| pk := "did:key:z6Mksjp3Mbe7TnQbYK43NECF7TRuDGZu9xdzeLg379Dw66mF#did:key:z6MkProvider";
     s_space := "did:key:z6Mksjp3Mbe7TnQbYK43NECF7TRuDGZu9xdzeLg379Dw66mF";
     s_provider := "did:key:z6MkProvider";
     s_size := "1024";
     s_recordedAt := "2024-05-01T00:00:00.000Z";
     s_insertedAt := "2024-05-01T10:00:00.123Z" |}.

Lemma decode_not_a_did_witness :
  ∃ reason,
    decode foreign_provider
    = error (DecodeFailure ("decoding space snapshot record: " +:+ reason)).
Proof.
  destruct (decode_not_a_did foreign_provider) as (reason & Hdecode & _).
  - right. reflexivity.
  - exists reason. exact Hdecode.
Defined.

Lemma encodeKey_agrees_witness :
  encodeKey (snapshot_key snapshot)
  = Return (ok {| k_pk := pk stored_snapshot; ks_recordedAt := "2024-05-01T00:00:00.000Z" |}).
Proof.
  destruct (encodeKey_agrees snapshot stored_snapshot) as [Hkey _].
  - vm_compute. reflexivity.
  - exact Hkey.
Defined.

End SpaceSnapshotFactsCases.

(** ** billing/data/customer.js *)

Module Customer.
Import JSDate.

Inductive Failure :=
| EncodeFailure (message : string)
| DecodeFailure (message : string).

Section Links.

(** Links (multiformats) with their string form and parser, and the
    did:mailto cast of the billing library, which throws on what is no
    did:mailto DID. *)
Variable Link : Type.
Variable Link_toString : Link → string.
Variable Link_parse : string → Completion Link.
Variable asDIDMailto : string → Completion string.

Record Customer := {
  cause : Link;
  customer : string;
  account : string;
  product : string;
  insertedAt : Date;
  updatedAt : Date
}.

(** The store record, as [encode] writes it: every field a string, on which
    [String] is the identity. *)
Record CustomerStoreRecord := {
  s_cause : string;
  s_customer : string;
  s_account : string;
  s_product : string;
  s_insertedAt : string;
  s_updatedAt : string
}.

Definition encode (input : Customer) : Result CustomerStoreRecord Failure :=
  let record :=
    match toISOString (insertedAt input) with
    | Throw err => Throw err
    | Return inserted =>
        match toISOString (updatedAt input) with
        | Throw err => Throw err
        | Return updated =>
            Return {| s_cause := Link_toString (cause input);
                      s_customer := customer input;
                      s_account := account input;
                      s_product := product input;
                      s_insertedAt := inserted;
                      s_updatedAt := updated |}
        end
    end in
  match record with
  | Return record => ok record
  | Throw err => error (EncodeFailure ("encoding customer record: " +:+ JS.message err))
  end.

Definition decode (input : CustomerStoreRecord) : Result Customer Failure :=
  let decoded :=
    match Link_parse (s_cause input) with
    | Throw err => Throw err
    | Return cause =>
        match asDIDMailto (s_customer input) with
        | Throw err => Throw err
        | Return customer =>
            Return {| cause := cause;
                      customer := customer;
                      account := s_account input;
                      product := s_product input;
                      insertedAt := new_Date (s_insertedAt input);
                      updatedAt := new_Date (s_updatedAt input) |}
        end
    end in
  match decoded with
  | Return decoded => ok decoded
  | Throw err => error (DecodeFailure ("decoding customer record: " +:+ JS.message err))
  end.

(** A Date that is not the invalid date: its time value is in range. *)
Definition valid_date (date : Date) : Prop :=
  match date with
  | TimeValue t => Z.abs t ≤ maxTime
  | InvalidDate => False
  end.

(** X30. For a customer whose cause reads back from its string form, whose
    customer DID the did:mailto cast returns as it is and whose two dates
    are valid, [encode] answers a record and [decode] of that record answers
    the customer itself. *)
Theorem customer_decode_encode (input : Customer) :
  Link_parse (Link_toString (cause input)) = Return (cause input) →
  asDIDMailto (customer input) = Return (customer input) →
  valid_date (insertedAt input) →
  valid_date (updatedAt input) →
  ∃ record, encode input = ok record ∧ decode record = ok input.
Proof.
  intros Hcause Hcustomer Hinserted Hupdated.
  destruct (insertedAt input) as [ti|] eqn:Hi; [|done].
  destruct (updatedAt input) as [tu|] eqn:Hu; [|done].
  destruct (new_Date_toISOString ti Hinserted) as (inserted & Hi1 & Hi2).
  destruct (new_Date_toISOString tu Hupdated) as (updated & Hu1 & Hu2).
  eexists. unfold encode. rewrite Hi, Hu, Hi1, Hu1. split; [reflexivity|].
  unfold decode. cbn [s_cause s_customer s_account s_product s_insertedAt s_updatedAt].
  rewrite Hcause, Hcustomer, Hi2, Hu2, <- Hi, <- Hu. by destruct input.
Qed.

End Links.

End Customer.

Module CustomerCases.
Import JSDate Customer.

(** Links spelled by their string form, and a cast that takes what starts
    with [did:mailto:]. *)
Definition asDIDMailto (s : string) : Completion string :=
  if startsWith s "did:mailto:" then Return s
  else Throw (mkError "Error" "not a did:mailto" None).

Definition alice : Customer.Customer string :=
  {| cause := "bafyreicause";
     customer := "did:mailto:example.com:alice";
     account := "stripe:cus_9s6XKzkNRiz8i3";
     product := "did:web:starter.web3.storage";
     insertedAt := TimeValue 1714521600000;
     updatedAt := TimeValue 1714557600123 |}.

Lemma customer_decode_encode_witness :
  ∃ record, encode string id alice = ok record
            ∧ decode string Return asDIDMailto record = ok alice.
Proof.
  apply (customer_decode_encode string id Return asDIDMailto alice).
  - reflexivity.
  - reflexivity.
  - unfold valid_date, maxTime. cbn. lia.
  - unfold valid_date, maxTime. cbn. lia.
Defined.

End CustomerCases.
